(** * Recording playback of the macOS HID prototype

    A shallow embedding of [src/hid_controller/macos_hid_prototype.cpp]:
    the [RecordedAction] record, the [HIDController] class with its
    coordinate mapping, motion interpolation, click / drag sequencing and
    ASCII-to-keycode table, and [executeRecording].

    - C++ [float] is IEEE-754 binary32, taken from the standard library's
      executable specification ([SpecFloat] at precision 24, [emax] 128).
      A [float] expression is evaluated in binary32, rounding to nearest
      with ties to even, as on the targets of this program (macOS on
      x86-64 and arm64).
    - C++ [int] is a mathematical integer together with its 32-bit range;
      an operation whose result leaves the range (undefined behaviour in
      C++) has no result in the model.
    - Console output and [sleep_for] are recorded, in program order, in a
      trace of events.  The IOKit handles of the class are used by the
      constructor and destructor only and are left out. *)

From Stdlib Require Import ZArith List Bool Lia String Ascii.
From Stdlib Require Import QArith Qround Qpower Lqa.
From Stdlib Require Import Floats.SpecFloat.
Import ListNotations.

Open Scope Z_scope.

(** ** binary32 *)

Module Float32.

Definition prec : Z := 24.
Definition emax : Z := 128.

Definition float : Type := spec_float.

(** Conversion of an integer, rounding to nearest-even. *)
Definition of_int (z : Z) : float := binary_normalize prec emax z 0 false.

Definition mul : float -> float -> float := SFmul prec emax.

(** The literal [num/den] written in decimal with suffix [f], e.g.
    [0.85f] is [literal 85 100]: both integers are exact in binary32, so
    the correctly rounded quotient is the correctly rounded literal. *)
Definition literal (num den : Z) : float :=
  SFdiv prec emax (of_int num) (of_int den).

(** [2^e] as a rational, [e] of either sign. *)
Definition pow2 (e : Z) : Q := Qpower (2 # 1) e.

(** The rational denoted by a finite float (0 for the others). *)
Definition value (x : float) : Q :=
  match x with
  | S754_finite s m e => (inject_Z (cond_Zopp s (Zpos m)) * pow2 e)%Q
  | _ => 0%Q
  end.

Definition is_finite (x : float) : bool :=
  match x with
  | S754_zero _ | S754_finite _ _ _ => true
  | _ => false
  end.

(** Truncation toward zero of a finite float. *)
Definition trunc (x : float) : option Z :=
  match x with
  | S754_zero _ => Some 0
  | S754_finite s m e =>
      Some (cond_Zopp s
              (match e with
               | Zneg p => Z.shiftr (Zpos m) (Zpos p)
               | _ => Z.shiftl (Zpos m) e
               end))
  | _ => None
  end.

(** Zero of either sign, or a positive finite number. *)
Definition nonneg (x : float) : bool :=
  match x with
  | S754_zero _ | S754_finite false _ _ => true
  | _ => false
  end.

(** [0 <= x <= 1] for a float. *)
Definition in_unit (x : float) : Prop :=
  is_finite x = true /\ (0 <= value x <= 1)%Q.

End Float32.

Definition float : Type := Float32.float.

(** ** C++ [int] and [uint8_t] *)

Definition INT_MIN : Z := -2147483648.
Definition INT_MAX : Z := 2147483647.

Definition in_int (z : Z) : bool := (INT_MIN <=? z) && (z <=? INT_MAX).

Definition checked (z : Z) : option Z := if in_int z then Some z else None.

(** [a - b] on [int]. *)
Definition int_sub (a b : Z) : option Z := checked (a - b).

(** [(int) x] for a [float] [x]: truncation; no result when the truncated
    value is not an [int] (NaN and the infinities included). *)
Definition float_to_int (x : float) : option Z :=
  match Float32.trunc x with
  | Some z => checked z
  | None => None
  end.

(** [(uint8_t)(z & 0xFF)]. *)
Definition low_byte (z : Z) : Z := Z.land z 255.

(** A byte read back as a two's-complement [int8_t]. *)
Definition as_int8 (b : Z) : Z := if b <? 128 then b else b - 256.

(** ** Recorded actions *)

Inductive ActionType := MOVE | CLICK | DRAG | WAIT | TYPE.

Record RecordedAction := {
  type : ActionType;
  relativeX : float;
  relativeY : float;
  toRelativeX : float;
  toRelativeY : float;
  waitMs : Z;
  text : string
}.

(** The constructor [RecordedAction(Type t, float x = 0, float y = 0)]. *)
Definition mkAction (t : ActionType) (x y : float) : RecordedAction :=
  {| type := t; relativeX := x; relativeY := y;
     toRelativeX := Float32.of_int 0; toRelativeY := Float32.of_int 0;
     waitMs := 0; text := EmptyString |}.

(** ** The controller and its effects *)

Record HIDController := {
  screenWidth : Z;
  screenHeight : Z;
  currentX : Z;
  currentY : Z
}.

(** The member initialisers: an iPhone 14 Pro screen, cursor at the
    origin. *)
Definition initial : HIDController :=
  {| screenWidth := 390; screenHeight := 844; currentX := 0; currentY := 0 |}.

(** The lines written to [std::cout] by the public member functions. *)
Inductive Line :=
| Moved (relX relY : float) (targetX targetY : Z)
| Clicked (x y : Z)
| Dragged (fromX fromY toX toY : float)
| Typing (t : string)
| Waiting (ms : Z)
| Executing
| Complete.

(** What a run does, in program order.  The three emitters build a HID
    report and write one line ([HID Move], [HID Click], [HID Type]): the
    event keeps the arguments and the report.  [Sleep] is a
    [std::this_thread::sleep_for] of so many milliseconds. *)
Inductive Event :=
| HidMove (dx dy : Z) (report : list Z)
| HidClick (pressed : bool) (report : list Z)
| HidType (key : ascii) (keycode : Z) (report : list Z)
| Sleep (ms : Z)
| Cout (l : Line).

(** A member function: reads and updates the controller, appends to the
    trace, and may have no defined result. *)
Definition M (A : Type) : Type :=
  HIDController -> option (A * HIDController * list Event).

Definition ret {A} (a : A) : M A := fun st => Some (a, st, []).

Definition bind {A B} (m : M A) (k : A -> M B) : M B :=
  fun st =>
    match m st with
    | None => None
    | Some (a, st1, tr1) =>
        match k a st1 with
        | None => None
        | Some (b, st2, tr2) => Some (b, st2, tr1 ++ tr2)
        end
    end.

Notation "x <- m ;; k" := (bind m (fun x => k))
  (at level 61, m at next level, right associativity).
Notation "m ;; k" := (bind m (fun _ => k))
  (at level 61, right associativity).
Notation "' p <- m ;; k" := (bind m (fun x => match x with p => k end))
  (at level 61, p pattern, m at next level, right associativity).

Definition get : M HIDController := fun st => Some (st, st, []).
Definition put (st : HIDController) : M unit := fun _ => Some (tt, st, []).
Definition emit (e : Event) : M unit := fun st => Some (tt, st, [e]).
Definition lift {A} (o : option A) : M A :=
  fun st => match o with Some a => Some (a, st, []) | None => None end.

Definition sleep_for (ms : Z) : M unit := emit (Sleep ms).
Definition cout (l : Line) : M unit := emit (Cout l).

(** [for (int i = 0; i < n; i++) body]. *)
Fixpoint for_loop (n : nat) (body : M unit) : M unit :=
  match n with
  | O => ret tt
  | S n' => body ;; for_loop n' body
  end.

(** A range-based [for] over a container. *)
Fixpoint for_each {A} (l : list A) (body : A -> M unit) : M unit :=
  match l with
  | [] => ret tt
  | a :: l' => body a ;; for_each l' body
  end.

(** *** Private emitters *)

(** [report[i] = v] on a fixed-size array (the index is in range at the
    only use). *)
Fixpoint store (i : nat) (v : Z) (report : list Z) : list Z :=
  match report, i with
  | [], _ => []
  | _ :: r, O => v :: r
  | b :: r, S i' => b :: store i' v r
  end.

Definition sendMouseMove (dx dy : Z) : M unit :=
  let report := [0; low_byte dx; low_byte dy] in
  emit (HidMove dx dy report).

Definition sendMouseButton (pressed : bool) : M unit :=
  let report := [if pressed then 1 else 0; 0; 0] in
  emit (HidClick pressed report).

(** The value of a [char] (a signed byte on the target). *)
Definition code (c : ascii) : Z :=
  let n := Z.of_nat (nat_of_ascii c) in
  if n <? 128 then n else n - 256.

Definition asciiToHIDKeycode (c : ascii) : Z :=
  if (code "a" <=? code c) && (code c <=? code "z") then 4 + (code c - code "a")
  else if (code "A" <=? code c) && (code c <=? code "Z") then 4 + (code c - code "A")
  else if (code "1" <=? code c) && (code c <=? code "9") then 30 + (code c - code "1")
  else if code c =? code "0" then 39
  else if code c =? code " " then 44
  else if code c =? 10 then 40
  else 0.

(** The release report (key slot cleared) is built after the press is
    written out, and nothing is written for it. *)
Definition sendKeyPress (key : ascii) : M unit :=
  let keycode := asciiToHIDKeycode key in
  let report := [0; 0; keycode; 0; 0; 0; 0; 0] in
  emit (HidType key keycode report) ;;
  let report := store 2 0 report in
  ret tt.

(** *** Public interface *)

Definition relativeToAbsolute (relX relY : float) : M (Z * Z) :=
  st <- get ;;
  absX <- lift (float_to_int (Float32.mul relX (Float32.of_int (screenWidth st)))) ;;
  absY <- lift (float_to_int (Float32.mul relY (Float32.of_int (screenHeight st)))) ;;
  ret (absX, absY).

Definition moveToPosition (relX relY : float) : M unit :=
  '(targetX, targetY) <- relativeToAbsolute relX relY ;;
  st <- get ;;
  dx <- lift (int_sub targetX (currentX st)) ;;
  dy <- lift (int_sub targetY (currentY st)) ;;
  let steps := 10 in
  for_loop (Z.to_nat steps)
    (sendMouseMove (Z.quot dx steps) (Z.quot dy steps) ;; sleep_for 10) ;;
  put {| screenWidth := screenWidth st; screenHeight := screenHeight st;
         currentX := targetX; currentY := targetY |} ;;
  cout (Moved relX relY targetX targetY).

Definition click : M unit :=
  sendMouseButton true ;;
  sleep_for 50 ;;
  sendMouseButton false ;;
  st <- get ;;
  cout (Clicked (currentX st) (currentY st)).

Definition drag (fromX fromY toX toY : float) : M unit :=
  moveToPosition fromX fromY ;;
  sleep_for 100 ;;
  sendMouseButton true ;;
  sleep_for 100 ;;
  moveToPosition toX toY ;;
  sleep_for 100 ;;
  sendMouseButton false ;;
  cout (Dragged fromX fromY toX toY).

Definition typeText (t : string) : M unit :=
  cout (Typing t) ;;
  for_each (list_ascii_of_string t)
    (fun c => sendKeyPress c ;; sleep_for 50).

Definition execute_action (action : RecordedAction) : M unit :=
  match type action with
  | MOVE => moveToPosition (relativeX action) (relativeY action)
  | CLICK =>
      moveToPosition (relativeX action) (relativeY action) ;;
      sleep_for 100 ;;
      click
  | DRAG =>
      drag (relativeX action) (relativeY action)
           (toRelativeX action) (toRelativeY action)
  | WAIT =>
      cout (Waiting (waitMs action)) ;;
      sleep_for (waitMs action)
  | TYPE => typeText (text action)
  end.

Definition executeRecording (actions : list RecordedAction) : M unit :=
  cout Executing ;;
  for_each actions (fun action => execute_action action ;; sleep_for 100) ;;
  cout Complete.

(** *** The recording built by [getHomeButtonRecording] *)

Definition getHomeButtonRecording : list RecordedAction :=
  let hover := mkAction MOVE (Float32.literal 5 10) (Float32.literal 5 100) in
  let wait := mkAction WAIT (Float32.of_int 0) (Float32.of_int 0) in
  let wait1 :=
    {| type := type wait; relativeX := relativeX wait; relativeY := relativeY wait;
       toRelativeX := toRelativeX wait; toRelativeY := toRelativeY wait;
       waitMs := 500; text := text wait |} in
  let homeClick := mkAction CLICK (Float32.literal 85 100) (Float32.literal 2 100) in
  let wait2 :=
    {| type := type wait1; relativeX := relativeX wait1; relativeY := relativeY wait1;
       toRelativeX := toRelativeX wait1; toRelativeY := toRelativeY wait1;
       waitMs := 1000; text := text wait1 |} in
  [hover; wait1; homeClick; wait2].

(** ** Observations on a trace *)

(** The events handed to the HID transport (the output sink): moves,
    button changes and key reports. *)
Definition is_hid (e : Event) : bool :=
  match e with
  | HidMove _ _ _ | HidClick _ _ | HidType _ _ _ => true
  | _ => false
  end.

Definition hid_events (tr : list Event) : list Event := filter is_hid tr.

(** ** Vocabulary of the statements *)

(** The reports the emitters build. *)
Definition move_report (dx dy : Z) : list Z := [0; low_byte dx; low_byte dy].

Definition button_report (pressed : bool) : list Z :=
  [if pressed then 1 else 0; 0; 0].

Definition key_report (keycode : Z) : list Z :=
  [0; 0; keycode; 0; 0; 0; 0; 0].

(** The ten sub-steps of one move, with their inter-step delays. *)
Definition sub_steps (dx dy : Z) : list Event :=
  List.concat (repeat [HidMove (Z.quot dx 10) (Z.quot dy 10)
                         (move_report (Z.quot dx 10) (Z.quot dy 10)); Sleep 10]
                 10%nat).

Definition with_cursor (st : HIDController) (x y : Z) : HIDController :=
  {| screenWidth := screenWidth st; screenHeight := screenHeight st;
     currentX := x; currentY := y |}.

(** A controller whose profile converts exactly to [float] and whose
    cursor lies on the screen. *)
Definition on_screen (st : HIDController) : Prop :=
  0 < screenWidth st <= 2 ^ 24 /\ 0 < screenHeight st <= 2 ^ 24 /\
  0 <= currentX st <= screenWidth st /\ 0 <= currentY st <= screenHeight st.

(** The controller as constructed, its cursor anywhere on the screen. *)
Definition default_profile (st : HIDController) : Prop :=
  screenWidth st = 390 /\ screenHeight st = 844 /\
  0 <= currentX st <= 390 /\ 0 <= currentY st <= 844.

(** The key report of a character, and what [typeText] does for it. *)
Definition key_event (c : ascii) : Event :=
  HidType c (asciiToHIDKeycode c) (key_report (asciiToHIDKeycode c)).

Definition key_events (c : ascii) : list Event := [key_event c; Sleep 50].

(** Number of HID events of a fully executed action. *)
Definition hid_count (a : RecordedAction) : nat :=
  match type a with
  | MOVE => 10
  | CLICK => 12
  | DRAG => 22
  | WAIT => 0
  | TYPE => List.length (list_ascii_of_string (text a))
  end.

(** Replay of the actions of a recording, one after the other, each
    followed by the inter-action delay. *)
Inductive Replay : HIDController -> list RecordedAction ->
                   HIDController -> list Event -> Prop :=
| Replay_nil st : Replay st [] st []
| Replay_cons st a st1 tr1 acts st2 tr2 :
    execute_action a st = Some (tt, st1, tr1) ->
    Replay st1 acts st2 tr2 ->
    Replay st (a :: acts) st2 (tr1 ++ Sleep 100 :: tr2).

(** The displacement a trace asks of the device: the sum of its relative
    moves. *)
Definition travelled (tr : list Event) : Z * Z :=
  fold_right (fun e acc =>
                match e with
                | HidMove dx dy _ => (dx + fst acc, dy + snd acc)
                | _ => acc
                end) (0, 0) tr.

Definition is_button (pressed : bool) (e : Event) : bool :=
  match e with
  | HidClick p _ => Bool.eqb p pressed
  | _ => false
  end.

(** Button-down ([pressed = true]) or button-up events of a trace. *)
Definition count_button (pressed : bool) (tr : list Event) : nat :=
  List.length (filter (is_button pressed) tr).

(** Character classes of the keycode table. *)
Definition is_lower (c : ascii) : bool :=
  (code "a" <=? code c) && (code c <=? code "z").

Definition is_upper (c : ascii) : bool :=
  (code "A" <=? code c) && (code c <=? code "Z").

Definition is_digit19 (c : ascii) : bool :=
  (code "1" <=? code c) && (code c <=? code "9").

Definition to_upper (c : ascii) : ascii := ascii_of_nat (nat_of_ascii c - 32).

Definition newline : ascii := "010"%char.

(** A drag from (0.25, 0.25) to (0.75, 0.75). *)
Definition quarter_drag : RecordedAction :=
  {| type := DRAG;
     relativeX := Float32.literal 25 100; relativeY := Float32.literal 25 100;
     toRelativeX := Float32.literal 75 100; toRelativeY := Float32.literal 75 100;
     waitMs := 0; text := EmptyString |}.

(** The coordinates an action uses all lie in [[0, 1]]. *)
Definition coords_in_unit (a : RecordedAction) : Prop :=
  match type a with
  | MOVE | CLICK =>
      Float32.in_unit (relativeX a) /\ Float32.in_unit (relativeY a)
  | DRAG =>
      Float32.in_unit (relativeX a) /\ Float32.in_unit (relativeY a) /\
      Float32.in_unit (toRelativeX a) /\ Float32.in_unit (toRelativeY a)
  | WAIT | TYPE => True
  end.

(** A move event whose deltas survive the cast to the report's bytes. *)
Definition int8_faithful (e : Event) : Prop :=
  match e with
  | HidMove dx dy report =>
      -39 <= dx <= 39 /\ -84 <= dy <= 84 /\
      report = [0; low_byte dx; low_byte dy] /\
      as_int8 (low_byte dx) = dx /\ as_int8 (low_byte dy) = dy
  | _ => True
  end.

(** The final controller and the trace of a run (the starting controller
    and no event when the run has no result). *)
Definition state_of {A} (st : HIDController)
    (r : option (A * HIDController * list Event)) : HIDController :=
  match r with Some (_, st', _) => st' | None => st end.

Definition trace_of {A} (r : option (A * HIDController * list Event)) : list Event :=
  match r with Some (_, _, tr) => tr | None => [] end.

(** ** Further vocabulary: time, drift and report bytes *)

(** Milliseconds a trace spends sleeping ([sleep_for] of a duration that
    is not positive returns at once). *)
Definition slept (tr : list Event) : Z :=
  fold_right (fun e acc =>
                match e with
                | Sleep ms => Z.max 0 ms + acc
                | _ => acc
                end) 0 tr.

(** The sleeps written in the code of each action. *)
Definition duration (a : RecordedAction) : Z :=
  match type a with
  | MOVE => 100
  | CLICK => 250
  | DRAG => 500
  | WAIT => Z.max 0 (waitMs a)
  | TYPE => 50 * Z.of_nat (List.length (list_ascii_of_string (text a)))
  end.

(** Calls of [moveToPosition] an action makes. *)
Definition legs (a : RecordedAction) : Z :=
  match type a with
  | MOVE | CLICK => 1
  | DRAG => 2
  | WAIT | TYPE => 0
  end.

(** The actions that move the cursor. *)
Definition is_positional (a : RecordedAction) : bool :=
  match type a with
  | MOVE | CLICK | DRAG => true
  | WAIT | TYPE => false
  end.

(** Calls of [moveToPosition] a recording makes. *)
Definition total_legs (actions : list RecordedAction) : Z :=
  fold_right (fun a acc => legs a + acc) 0 actions.

(** The button byte of a mouse report, and its two deltas as the device
    reads them. *)
Definition report_buttons (report : list Z) : Z := nth 0 report 0.

Definition report_dx (report : list Z) : Z := as_int8 (nth 1 report 0).

Definition report_dy (report : list Z) : Z := as_int8 (nth 2 report 0).

(** A move event within the per-step bound of a [w] by [h] screen. *)
Definition step_within (w h : Z) (e : Event) : Prop :=
  match e with
  | HidMove dx dy report =>
      - (w / 10) <= dx <= w / 10 /\ - (h / 10) <= dy <= h / 10 /\
      report = [0; low_byte dx; low_byte dy]
  | _ => True
  end.

(** An iPad Pro 12.9 in landscape, cursor at the origin. *)
Definition wide_screen : HIDController :=
  {| screenWidth := 1366; screenHeight := 1024; currentX := 0; currentY := 0 |}.

(** The move events of a trace between the button-down and the button-up
    of a drag. *)
Fixpoint held_moves (down : bool) (tr : list Event) : list Event :=
  match tr with
  | [] => []
  | HidClick pressed _ :: tr' => held_moves pressed tr'
  | HidMove dx dy report :: tr' =>
      if down then HidMove dx dy report :: held_moves down tr'
      else held_moves down tr'
  | _ :: tr' => held_moves down tr'
  end.

(** A move event whose report has no button down. *)
Definition buttons_clear (e : Event) : Prop :=
  match e with
  | HidMove _ _ report => report_buttons report = 0
  | _ => True
  end.

(** Every [char]. *)
Definition all_ascii : list ascii := map ascii_of_nat (seq 0 256).

(** The same character, or the two cases of one letter. *)
Definition same_key (c d : ascii) : bool :=
  Ascii.eqb c d
  || (is_lower c && Ascii.eqb d (to_upper c))
  || (is_lower d && Ascii.eqb c (to_upper d)).

(** Every pair of entries of a keycode table with the same keycode, other
    than 0, is a pair of characters on the same key. *)
Definition collisions_on_same_key (table : list (ascii * Z)) : bool :=
  forallb (fun p =>
             if snd p =? 0 then true
             else forallb (fun q =>
                             if snd q =? snd p then same_key (fst p) (fst q)
                             else true) table) table.

(** A Wait of [ms] milliseconds and a Type of [t], built as
    [getHomeButtonRecording] builds its waits. *)
Definition wait_action (ms : Z) : RecordedAction :=
  {| type := WAIT; relativeX := Float32.of_int 0; relativeY := Float32.of_int 0;
     toRelativeX := Float32.of_int 0; toRelativeY := Float32.of_int 0;
     waitMs := ms; text := EmptyString |}.

Definition type_action (t : string) : RecordedAction :=
  {| type := TYPE; relativeX := Float32.of_int 0; relativeY := Float32.of_int 0;
     toRelativeX := Float32.of_int 0; toRelativeY := Float32.of_int 0;
     waitMs := 0; text := t |}.

(** A Move whose first coordinate is a NaN. *)
Definition nan_move : RecordedAction :=
  mkAction MOVE S754_nan (Float32.literal 5 10).

(** The HID events of the ten sub-steps of a move by [(dx, dy)]. *)
Definition leg_events (dx dy : Z) : list Event :=
  repeat (HidMove (Z.quot dx 10) (Z.quot dy 10)
            [0; low_byte (Z.quot dx 10); low_byte (Z.quot dy 10)]) 10.

(** The HID events one action owes, and the controller it leaves: the
    targets are those of [relativeToAbsolute] on the action's
    coordinates, the legs start where the cursor is. *)
Inductive Performs : HIDController -> RecordedAction ->
                     HIDController -> list Event -> Prop :=
| Performs_move st a x y :
    type a = MOVE ->
    relativeToAbsolute (relativeX a) (relativeY a) st = Some ((x, y), st, []) ->
    Performs st a (with_cursor st x y)
      (leg_events (x - currentX st) (y - currentY st))
| Performs_click st a x y :
    type a = CLICK ->
    relativeToAbsolute (relativeX a) (relativeY a) st = Some ((x, y), st, []) ->
    Performs st a (with_cursor st x y)
      (leg_events (x - currentX st) (y - currentY st)
       ++ [HidClick true [1; 0; 0]; HidClick false [0; 0; 0]])
| Performs_drag st a fromX fromY toX toY :
    type a = DRAG ->
    relativeToAbsolute (relativeX a) (relativeY a) st
      = Some ((fromX, fromY), st, []) ->
    relativeToAbsolute (toRelativeX a) (toRelativeY a) st
      = Some ((toX, toY), st, []) ->
    Performs st a (with_cursor st toX toY)
      (leg_events (fromX - currentX st) (fromY - currentY st)
       ++ [HidClick true [1; 0; 0]]
       ++ leg_events (toX - fromX) (toY - fromY)
       ++ [HidClick false [0; 0; 0]])
| Performs_wait st a :
    type a = WAIT -> Performs st a st []
| Performs_type st a :
    type a = TYPE ->
    Performs st a st (map key_event (list_ascii_of_string (text a))).

(** The HID events a recording owes: those of its actions, one after the
    other, each from the controller the one before leaves. *)
Inductive PerformsAll : HIDController -> list RecordedAction ->
                        HIDController -> list Event -> Prop :=
| PerformsAll_nil st : PerformsAll st [] st []
| PerformsAll_cons st a st1 ev1 acts st2 ev2 :
    Performs st a st1 ev1 ->
    PerformsAll st1 acts st2 ev2 ->
    PerformsAll st (a :: acts) st2 (ev1 ++ ev2).

(** The mouse events: moves and button changes. *)
Definition is_mouse (e : Event) : bool :=
  match e with
  | HidMove _ _ _ | HidClick _ _ => true
  | _ => false
  end.

(** The key reports of a Type action (none for the other actions). *)
Definition typed_keys (a : RecordedAction) : list Event :=
  match type a with
  | TYPE => map key_event (list_ascii_of_string (text a))
  | _ => []
  end.

(** The mantissa [M] shifted right by [n] places and rounded to nearest,
    ties to even, as [shr] and [round_nearest_even] compute it: the round
    bit is the last place shifted out, the sticky bit tells whether any
    place below it is set. *)
Definition rne_shift (M n : Z) : Z :=
  if n <=? 0 then M
  else round_nearest_even (M / 2 ^ n)
         (loc_of_shr_record
            {| shr_m := M / 2 ^ n;
               shr_r := Z.odd (M / 2 ^ (n - 1));
               shr_s := negb (M mod 2 ^ (n - 1) =? 0) |}).

(** * The relay client ([send_to_esp32.cpp]) *)

Module Relay.

(** A C++ string literal, written with an apostrophe for each double
    quote (no literal of the source contains an apostrophe). *)
Fixpoint lit (s : string) : string :=
  match s with
  | EmptyString => EmptyString
  | String c s' =>
      String (if Ascii.eqb c "'" then ascii_of_nat 34 else c) (lit s')
  end.

(** The lines the program writes. *)
Inductive Line :=
| Failed (res : Z)
| Sent (json : string)
| Usage (argv0 : string)
| Example_ (argv0 : string)
| Banner
| Prompt
| Unknown.

(** What a run does: a [curl_easy_perform] with the URL and the POST
    fields set on the handle, and its result code; a line written. *)
Inductive Event :=
| Perform (url postfields : string) (res : Z)
| Cout (l : Line).

(** How a run of [main] stands after so many turns of its loop. *)
Inductive Result :=
| Exit (code : Z)
| Undefined
| Running.

Record ESP32Controller := {
  esp32_ip : string;
  curl : bool
}.

Definition CURLE_OK : Z := 0.

Section Client.

(** The environment: [std::to_string] on [float], whether
    [curl_easy_init] returns a handle, and the result code of the [n]-th
    [curl_easy_perform]. *)
Variable to_string : float -> string.
Variable curl_easy_init : bool.
Variable curl_easy_perform : nat -> Z.

(** The constructor. *)
Definition connect (ip : string) : ESP32Controller :=
  {| esp32_ip := ip; curl := curl_easy_init |}.

(** [n] counts the requests performed so far. *)
Definition sendCommand (c : ESP32Controller) (json : string) (n : nat)
  : nat * list Event :=
  if negb (curl c) then (n, [])
  else
    let url := ("http://" ++ esp32_ip c ++ ":8080")%string in
    let res := curl_easy_perform n in
    (S n, [Perform url json res;
           if negb (res =? CURLE_OK) then Cout (Failed res) else Cout (Sent json)]).

Definition click (c : ESP32Controller) (x y : float) (n : nat)
  : nat * list Event :=
  let json := (lit "{'type':'click','x':" ++ to_string x
               ++ lit ",'y':" ++ to_string y ++ "}")%string in
  sendCommand c json n.

Definition home_json : string := lit "{
            'type': 'recording',
            'actions': [
                {'type': 'click', 'x': 0.5, 'y': 0.05},
                {'type': 'wait', 'ms': 500},
                {'type': 'click', 'x': 0.85, 'y': 0.02},
                {'type': 'wait', 'ms': 1000}
            ]
        }".

Definition executeHomeButton (c : ESP32Controller) (n : nat)
  : nat * list Event :=
  let json := home_json in
  sendCommand c json n.

(** The [switch] of the command loop on a command other than [q]. *)
Definition dispatch (c : ESP32Controller) (k : ascii) (n : nat)
  : nat * list Event :=
  if Ascii.eqb k "h" then executeHomeButton c n
  else if Ascii.eqb k "c" then
    click c (Float32.literal 5 10) (Float32.literal 5 10) n
  else (n, [Cout Unknown]).

(** [std::cin >> cmd] for a [char]: white space is skipped and the next
    character stored; at the end of the input the extraction fails and
    [cmd] keeps its value. *)
Definition isspace (c : ascii) : bool :=
  let n := nat_of_ascii c in
  (n =? 32)%nat || ((9 <=? n)%nat && (n <=? 13)%nat).

Fixpoint skipws (input : list ascii) : list ascii :=
  match input with
  | [] => []
  | c :: rest => if isspace c then skipws rest else input
  end.

Definition extract (input : list ascii) (cmd : option ascii)
  : list ascii * option ascii :=
  match skipws input with
  | c :: rest => (rest, Some c)
  | [] => ([], cmd)
  end.

(** The command loop of [main], run for at most [turns] turns.  [cmd] is
    [None] while the variable is uninitialised. *)
Fixpoint loop (turns : nat) (c : ESP32Controller) (input : list ascii)
    (cmd : option ascii) (n : nat) : Result * list Event :=
  match turns with
  | O => (Running, [])
  | S turns' =>
      let '(input', cmd') := extract input cmd in
      match cmd' with
      | None => (Undefined, [Cout Prompt])
      | Some k =>
          if Ascii.eqb k "q" then (Exit 0, [Cout Prompt])
          else
            let '(n', out) :=
              if Ascii.eqb k "h" then executeHomeButton c n
              else if Ascii.eqb k "c" then
                click c (Float32.literal 5 10) (Float32.literal 5 10) n
              else (n, [Cout Unknown]) in
            let '(r, tr) := loop turns' c input' cmd' n' in
            (r, Cout Prompt :: out ++ tr)
      end
  end.

Definition main (turns : nat) (argv : list string) (input : list ascii)
  : Result * list Event :=
  match argv with
  | [] => (Undefined, [])
  | [argv0] => (Exit 1, [Cout (Usage argv0); Cout (Example_ argv0)])
  | argv0 :: argv1 :: _ =>
      let controller := connect argv1 in
      let '(r, tr) := loop turns controller input None 0 in
      (r, Cout Banner :: tr)
  end.

End Client.

(** ** Vocabulary *)

(** The commands of an input: its characters other than white space. *)
Definition commands (input : list ascii) : list ascii :=
  filter (fun c => negb (isspace c)) input.

(** The commands before the first [q]. *)
Fixpoint before_quit (cmds : list ascii) : list ascii :=
  match cmds with
  | [] => []
  | k :: rest => if Ascii.eqb k "q" then [] else k :: before_quit rest
  end.

(** The commands that send a request. *)
Definition is_request (k : ascii) : bool := Ascii.eqb k "h" || Ascii.eqb k "c".

(** The requests of a run. *)
Definition performs (tr : list Event) : list Event :=
  filter (fun e => match e with Perform _ _ _ => true | _ => false end) tr.

(** The loop can neither leave nor stop: no [q] is left in the input, and
    [cmd] holds a command other than [q] once the input is used up. *)
Definition spinning (input : list ascii) (cmd : option ascii) : Prop :=
  ~ In "q"%char (commands input) /\
  (commands input <> [] \/ exists k, cmd = Some k /\ Ascii.eqb k "q" = false).

(** The value of [cmd] once the commands are used up. *)
Definition final_command (cmds : list ascii) (cmd : option ascii) : option ascii :=
  fold_left (fun _ k => Some k) cmds cmd.

(** No [q] is left, and the loop is left with a request. *)
Definition flooding (input : list ascii) (cmd : option ascii) : Prop :=
  ~ In "q"%char (commands input) /\
  exists k, final_command (commands input) cmd = Some k /\ is_request k = true.

(** A line that is not about a request. *)
Definition local_line (e : Event) : Prop :=
  match e with
  | Cout (Banner | Prompt | Unknown | Usage _ | Example_ _) => True
  | _ => False
  end.

End Relay.

(** * Facts about binary32 rounding *)

Section Float32Facts.
Import Float32.

(** *** Powers of two *)

Lemma pow2_pos e : (0 < pow2 e)%Q.
Proof. apply Qpower_0_lt. reflexivity. Qed.

Lemma pow2_add a b : (pow2 (a + b) == pow2 a * pow2 b)%Q.
Proof. apply Qpower_plus. discriminate. Qed.

Lemma pow2_Z n : 0 <= n -> (pow2 n == inject_Z (2 ^ n))%Q.
Proof. intros H. unfold pow2. now rewrite Zpower_Qpower. Qed.

Lemma pow2_lt_inv a b : (pow2 a < pow2 b)%Q -> a < b.
Proof. intros H. apply (Qpower_lt_compat_l_inv (2 # 1)); [exact H | reflexivity]. Qed.

Lemma pow2_le_inv a b : (pow2 a <= pow2 b)%Q -> a <= b.
Proof. intros H. apply (Qpower_le_compat_l_inv (2 # 1)); [exact H | reflexivity]. Qed.

Lemma fexp_eq k : fexp prec emax k = Z.max (k - 24) (-149).
Proof. reflexivity. Qed.

(** *** Number of binary digits *)

Lemma digits_bounds m :
  2 ^ (Zpos (digits2_pos m) - 1) <= Zpos m < 2 ^ Zpos (digits2_pos m).
Proof.
  induction m as [p IH | p IH |]; cbn [digits2_pos].
  - rewrite Pos2Z.inj_succ, Pos2Z.inj_xI.
    replace (Z.succ (Zpos (digits2_pos p)) - 1) with (Z.succ (Zpos (digits2_pos p) - 1)) by lia.
    rewrite !Z.pow_succ_r by lia.
    generalize dependent (2 ^ (Z.pos (digits2_pos p) - 1)).
    generalize (2 ^ Z.pos (digits2_pos p)). intros; lia.
  - rewrite Pos2Z.inj_succ. change (Z.pos p~0) with (2 * Z.pos p).
    replace (Z.succ (Zpos (digits2_pos p)) - 1) with (Z.succ (Zpos (digits2_pos p) - 1)) by lia.
    rewrite !Z.pow_succ_r by lia.
    generalize dependent (2 ^ (Z.pos (digits2_pos p) - 1)).
    generalize (2 ^ Z.pos (digits2_pos p)). intros; lia.
  - cbn. lia.
Qed.

Lemma digits_bounds_Q m e :
  (pow2 (Zpos (digits2_pos m) - 1 + e) <= inject_Z (Zpos m) * pow2 e
   /\ inject_Z (Zpos m) * pow2 e < pow2 (Zpos (digits2_pos m) + e))%Q.
Proof.
  destruct (digits_bounds m) as [Hl Hu].
  rewrite !pow2_add.
  rewrite (pow2_Z (Zpos (digits2_pos m) - 1)), (pow2_Z (Zpos (digits2_pos m))) by lia.
  pose proof (pow2_pos e) as He.
  rewrite Zle_Qle in Hl. rewrite Zlt_Qlt in Hu.
  generalize dependent (inject_Z (2 ^ (Z.pos (digits2_pos m) - 1))).
  generalize dependent (inject_Z (2 ^ (Z.pos (digits2_pos m)))).
  generalize dependent (inject_Z (Z.pos m)).
  generalize dependent (pow2 e).
  intros; split; nra.
Qed.

Lemma scale_le (a b : Z) (q : Q) :
  (0 < q)%Q -> (inject_Z a * q <= inject_Z b * q)%Q <-> a <= b.
Proof.
  intros Hq. rewrite Qmult_le_r by exact Hq. now rewrite <- Zle_Qle.
Qed.

Lemma pow2_split e n :
  0 <= n -> (pow2 (e + n) == inject_Z (2 ^ n) * pow2 e)%Q.
Proof.
  intros Hn. rewrite pow2_add, (pow2_Z n) by exact Hn. ring.
Qed.

(** *** Right shifts with round and sticky bits *)

Lemma shr_1_m mrs : 0 <= shr_m mrs -> shr_m (shr_1 mrs) = shr_m mrs / 2.
Proof.
  destruct mrs as [m r s]; cbn [shr_m]; intros Hm.
  destruct m as [|[p|p|]|p]; try lia; cbn [shr_1 shr_m];
    rewrite <- Z.div2_div; reflexivity.
Qed.

Lemma shr_1_r mrs : 0 <= shr_m mrs -> shr_r (shr_1 mrs) = Z.odd (shr_m mrs).
Proof.
  destruct mrs as [m r s]; cbn [shr_m]; intros Hm.
  destruct m as [|[p|p|]|p]; try lia; reflexivity.
Qed.

Lemma shr_1_s mrs : shr_s (shr_1 mrs) = shr_r mrs || shr_s mrs.
Proof.
  destruct mrs as [m r s]. destruct m as [|[p|p|]|[p|p|]]; reflexivity.
Qed.

Lemma iter_pos_nat {A} (f : A -> A) p :
  forall x, iter_pos f p x = Nat.iter (Pos.to_nat p) f x.
Proof.
  induction p as [p IH | p IH |]; intros x; cbn [iter_pos].
  - rewrite !IH, Pos2Nat.inj_xI, <- Nat.iter_succ_r, <- Nat.iter_add.
    f_equal. lia.
  - rewrite !IH, Pos2Nat.inj_xO, <- Nat.iter_add. f_equal. lia.
  - reflexivity.
Qed.

Lemma divisible_step M d :
  0 < d -> M mod (d * 2) = 0 -> M mod d = 0 /\ Z.odd (M / d) = false.
Proof.
  intros Hd H.
  apply Z.mod_divide in H; [|lia]. destruct H as [q Hq]. subst M.
  replace (q * (d * 2)) with ((2 * q) * d) by ring.
  rewrite Z.mod_mul, Z.div_mul by lia.
  split; [reflexivity|]. rewrite Z.odd_mul. reflexivity.
Qed.

Lemma shr_iter M (n : nat) :
  0 <= M ->
  let mrs := Nat.iter n shr_1 {| shr_m := M; shr_r := false; shr_s := false |} in
  shr_m mrs = M / 2 ^ Z.of_nat n /\
  (M mod 2 ^ Z.of_nat n = 0 -> shr_r mrs = false /\ shr_s mrs = false).
Proof.
  intros HM. induction n as [|n IH]; cbn zeta.
  - cbn. rewrite Z.div_1_r. auto.
  - rewrite Nat.iter_succ. cbn zeta in IH. destruct IH as [IHm IHrs].
    set (mrs := Nat.iter n shr_1 _) in *.
    assert (Hpos : 0 < 2 ^ Z.of_nat n) by (apply Z.pow_pos_nonneg; lia).
    assert (Hm : 0 <= shr_m mrs) by (rewrite IHm; apply Z.div_pos; lia).
    rewrite Nat2Z.inj_succ, Z.pow_succ_r by lia.
    rewrite (Z.mul_comm 2).
    split.
    + rewrite shr_1_m, IHm, Z.div_div by lia. reflexivity.
    + intros Hdiv. apply divisible_step in Hdiv; [|exact Hpos].
      destruct Hdiv as [H0 Hodd]. destruct (IHrs H0) as [Hr Hs].
      rewrite shr_1_r, shr_1_s, IHm, Hodd, Hr, Hs by exact Hm. auto.
Qed.

Lemma shr_fexp_spec m e :
  0 <= m ->
  let n := Z.max 0 (fexp prec emax (Zdigits2 m + e) - e) in
  exists mrs,
    shr_fexp prec emax m e loc_Exact = (mrs, e + n) /\
    shr_m mrs = m / 2 ^ n /\
    (m mod 2 ^ n = 0 -> loc_of_shr_record mrs = loc_Exact).
Proof.
  intros Hm. cbn zeta. unfold shr_fexp, shr.
  destruct (fexp prec emax (Zdigits2 m + e) - e) as [|p|p] eqn:En.
  - exists (shr_record_of_loc m loc_Exact). rewrite Z.add_0_r.
    cbn. rewrite Z.div_1_r. auto.
  - rewrite iter_pos_nat.
    destruct (shr_iter m (Pos.to_nat p) Hm) as [H1 H2].
    rewrite positive_nat_Z in H1, H2.
    replace (Z.max 0 (Z.pos p)) with (Z.pos p) by lia.
    eexists; split; [reflexivity|]. cbn [shr_record_of_loc].
    split; [exact H1|]. intros H0. destruct (H2 H0) as [Hr Hs].
    destruct (Nat.iter _ _ _) as [m' r' s']. cbn in Hr, Hs. subst. reflexivity.
  - exists (shr_record_of_loc m loc_Exact).
    replace (Z.max 0 (Z.neg p)) with 0 by lia. rewrite Z.add_0_r.
    cbn. rewrite Z.div_1_r. auto.
Qed.

Lemma rne_bounds m l : m <= round_nearest_even m l <= m + 1.
Proof.
  destruct l as [|[ | | ]]; cbn; try destruct (Z.even m); lia.
Qed.

(** *** Rounding against a float above the exact value *)

Lemma fexp_le_of_value_le m e mv ev :
  (inject_Z (Zpos m) * pow2 e <= inject_Z (Zpos mv) * pow2 ev)%Q ->
  canonical_mantissa prec emax mv ev = true ->
  fexp prec emax (Zpos (digits2_pos m) + e) <= ev.
Proof.
  intros Hle Hc. unfold canonical_mantissa in Hc. apply Z.eqb_eq in Hc.
  destruct (digits_bounds_Q m e) as [Hl _].
  destruct (digits_bounds_Q mv ev) as [_ Hu].
  assert (Hd : Zpos (digits2_pos m) - 1 + e < Zpos (digits2_pos mv) + ev).
  { apply pow2_lt_inv. eapply Qle_lt_trans; [exact Hl|].
    eapply Qle_lt_trans; [exact Hle | exact Hu]. }
  rewrite fexp_eq in *. lia.
Qed.

Lemma div_round_up_le M P K m' :
  0 <= M -> 0 < P -> M <= K * P ->
  m' <= M / P + 1 -> (M mod P = 0 -> m' <= M / P) ->
  m' <= K.
Proof.
  intros HM HP HK H1 H2.
  pose proof (Z.div_mod M P ltac:(lia)) as Hdm.
  pose proof (Z.mod_pos_bound M P HP) as Hb.
  destruct (Z.eq_dec (M mod P) 0) as [H0|H0].
  - specialize (H2 H0). nia.
  - nia.
Qed.

Lemma grid_upper M E n m' mv ev :
  0 <= M -> 0 <= n -> n = 0 \/ E + n <= ev ->
  (inject_Z M * pow2 E <= inject_Z (Zpos mv) * pow2 ev)%Q ->
  m' <= M / 2 ^ n + 1 -> (M mod 2 ^ n = 0 -> m' <= M / 2 ^ n) ->
  (inject_Z m' * pow2 (E + n) <= inject_Z (Zpos mv) * pow2 ev)%Q.
Proof.
  intros HM Hn [->|He] Hle Hm1 Hm2.
  { rewrite Z.add_0_r. change (2 ^ 0) with 1 in Hm2.
    rewrite Z.mod_1_r, Z.div_1_r in Hm2. specialize (Hm2 eq_refl).
    eapply Qle_trans; [|exact Hle].
    apply scale_le; [apply pow2_pos | exact Hm2]. }
  set (k := ev - (E + n)).
  assert (Hk : 0 <= k) by (unfold k; lia).
  assert (Hev : (inject_Z (Zpos mv) * pow2 ev
                 == inject_Z (Zpos mv * 2 ^ k * 2 ^ n) * pow2 E)%Q).
  { replace ev with (E + n + k) by (unfold k; lia).
    rewrite (pow2_split (E + n) k), (pow2_split E n) by lia.
    rewrite !inject_Z_mult. ring. }
  rewrite Hev in *.
  apply scale_le in Hle; [|apply pow2_pos].
  assert (Hp : 0 < 2 ^ n) by (apply Z.pow_pos_nonneg; lia).
  assert (Hm' : m' <= Zpos mv * 2 ^ k)
    by (apply (div_round_up_le M (2 ^ n)); auto).
  rewrite (pow2_split E n), Qmult_assoc, <- inject_Z_mult by lia.
  apply scale_le; [apply pow2_pos|]. nia.
Qed.

Lemma value_nonneg_pos m e : (0 <= inject_Z (Zpos m) * pow2 e)%Q.
Proof.
  pose proof (pow2_pos e). assert (0 < inject_Z (Zpos m))%Q.
  { change 0%Q with (inject_Z 0). rewrite <- Zlt_Qlt. lia. }
  nra.
Qed.

(** A float above the exact value stays above the rounded value, and
    rounding a positive number gives zero or a positive finite float. *)
Lemma round_aux_upper M E mv ev :
  canonical_mantissa prec emax mv ev = true -> ev <= 104 -> E <= 104 ->
  (inject_Z (Zpos M) * pow2 E <= inject_Z (Zpos mv) * pow2 ev)%Q ->
  let r := binary_round_aux prec emax false (Zpos M) E loc_Exact in
  nonneg r = true /\ (0 <= value r <= inject_Z (Zpos mv) * pow2 ev)%Q.
Proof.
  intros Hc Hev HE Hle. cbn zeta. unfold binary_round_aux.
  destruct (shr_fexp_spec (Zpos M) E ltac:(lia)) as (mrs1 & H1 & Hm1 & Hx1).
  rewrite H1. clear H1.
  set (n1 := Z.max 0 _) in *.
  set (m2 := round_nearest_even (shr_m mrs1) (loc_of_shr_record mrs1)).
  assert (Hn1 : 0 <= n1) by lia.
  assert (Hp1 : 0 < 2 ^ n1) by (apply Z.pow_pos_nonneg; lia).
  pose proof (rne_bounds (shr_m mrs1) (loc_of_shr_record mrs1)) as Hrne.
  fold m2 in Hrne. rewrite Hm1 in Hrne.
  assert (Hm2lo : 0 <= m2).
  { pose proof (Z.div_pos (Zpos M) (2 ^ n1) ltac:(lia) Hp1). lia. }
  assert (Hm2b : Zpos M mod 2 ^ n1 = 0 -> m2 <= Zpos M / 2 ^ n1).
  { intros H0. unfold m2. rewrite (Hx1 H0), Hm1. cbn. lia. }
  assert (He1 : n1 = 0 \/ E + n1 <= ev).
  { pose proof (fexp_le_of_value_le M E mv ev Hle Hc) as Hf.
    unfold n1. cbn [Zdigits2]. lia. }
  assert (Hv2 : (inject_Z m2 * pow2 (E + n1) <= inject_Z (Zpos mv) * pow2 ev)%Q).
  { apply (grid_upper (Zpos M)); auto; lia. }
  destruct (shr_fexp_spec m2 (E + n1) Hm2lo) as (mrs2 & H2 & Hm3 & _).
  rewrite H2. clear H2.
  set (n2 := Z.max 0 (fexp prec emax (Zdigits2 m2 + (E + n1)) - (E + n1))) in *.
  assert (Hp2 : 0 < 2 ^ n2) by (apply Z.pow_pos_nonneg; lia).
  destruct (shr_m mrs2) as [|m3|m3] eqn:E3.
  - cbn. split; [reflexivity|]. split; [apply Qle_refl | apply value_nonneg_pos].
  - destruct m2 as [|p2|p2]; try lia.
    { rewrite Z.div_0_l in Hm3 by lia. discriminate. }
    assert (He2 : n2 = 0 \/ E + n1 + n2 <= ev).
    { pose proof (fexp_le_of_value_le p2 (E + n1) mv ev Hv2 Hc) as Hf.
      unfold n2. cbn [Zdigits2]. lia. }
    replace (E + n1 + n2 <=? emax - prec) with true
      by (symmetry; apply Z.leb_le; unfold emax, prec; lia).
    cbn [nonneg value cond_Zopp]. split; [reflexivity|].
    split; [apply value_nonneg_pos|].
    apply (grid_upper (Zpos p2)); auto; try lia.
  - pose proof (Z.div_pos m2 (2 ^ n2) Hm2lo Hp2). lia.
Qed.

(** *** Rounding against a float below the exact value *)

Lemma pow2_le_mono a b : a <= b -> (pow2 a <= pow2 b)%Q.
Proof. intros H. apply Qpower_le_compat_l; [exact H | discriminate]. Qed.

Lemma canonical_exponent m e :
  canonical_mantissa prec emax m e = true ->
  e = Z.max (Zpos (digits2_pos m) + e - 24) (-149).
Proof.
  unfold canonical_mantissa. rewrite fexp_eq. intros H.
  apply Z.eqb_eq in H. lia.
Qed.

Lemma digits_le_of_value_le m e mv ev :
  (inject_Z (Zpos mv) * pow2 ev <= inject_Z (Zpos m) * pow2 e)%Q ->
  Zpos (digits2_pos mv) + ev <= Zpos (digits2_pos m) + e.
Proof.
  intros Hle.
  destruct (digits_bounds_Q mv ev) as [Hl _].
  destruct (digits_bounds_Q m e) as [_ Hu].
  assert (Zpos (digits2_pos mv) - 1 + ev < Zpos (digits2_pos m) + e); [|lia].
  apply pow2_lt_inv. eapply Qle_lt_trans; [exact Hl|].
  eapply Qle_lt_trans; [exact Hle | exact Hu].
Qed.

Lemma digits_le_24 p : Zpos p < 2 ^ 24 -> Zpos (digits2_pos p) <= 24.
Proof.
  intros Hp. destruct (digits_bounds p) as [Hl _].
  destruct (Z_le_gt_dec (Zpos (digits2_pos p)) 24) as [|Hgt]; [assumption|exfalso].
  assert (2 ^ 24 <= 2 ^ (Zpos (digits2_pos p) - 1)) by (apply Z.pow_le_mono_r; lia).
  lia.
Qed.

(** A float below the exact value stays below the rounded value. *)
Lemma round_aux_lower M E mv ev :
  canonical_mantissa prec emax mv ev = true ->
  (inject_Z (Zpos mv) * pow2 ev <= inject_Z (Zpos M) * pow2 E)%Q ->
  let r := binary_round_aux prec emax false (Zpos M) E loc_Exact in
  r = S754_infinity false \/ (inject_Z (Zpos mv) * pow2 ev <= value r)%Q.
Proof.
  intros Hc Hle. cbn zeta. unfold binary_round_aux.
  destruct (shr_fexp_spec (Zpos M) E ltac:(lia)) as (mrs1 & H1 & Hm1 & Hx1).
  rewrite H1. clear H1. cbn [Zdigits2] in *.
  pose proof (canonical_exponent mv ev Hc) as Hev.
  pose proof (digits_le_of_value_le M E mv ev Hle) as Hdig.
  destruct (digits_bounds M) as [HMl HMu].
  set (dM := Zpos (digits2_pos M)) in *.
  set (dv := Zpos (digits2_pos mv)) in *.
  rewrite fexp_eq in *.
  set (F := Z.max (dM + E - 24) (-149)) in *.
  set (n1 := Z.max 0 (F - E)) in *.
  set (m2 := round_nearest_even (shr_m mrs1) (loc_of_shr_record mrs1)).
  assert (Hn1 : 0 <= n1) by lia.
  assert (Hp1 : 0 < 2 ^ n1) by (apply Z.pow_pos_nonneg; lia).
  pose proof (rne_bounds (shr_m mrs1) (loc_of_shr_record mrs1)) as Hrne.
  fold m2 in Hrne. rewrite Hm1 in Hrne.
  pose proof (Z.div_pos (Zpos M) (2 ^ n1) ltac:(lia) Hp1) as Hm1pos.
  assert (Hm2lo : 0 <= m2) by lia.
  assert (Hm2b : Zpos M mod 2 ^ n1 = 0 -> m2 = Zpos M / 2 ^ n1).
  { intros H0. unfold m2. rewrite (Hx1 H0), Hm1. reflexivity. }
  (* the value after the first shift and rounding *)
  assert (Hv2 : (inject_Z (Zpos mv) * pow2 ev <= inject_Z m2 * pow2 (E + n1))%Q).
  { destruct (Z.eq_dec n1 0) as [H0|H0].
    - rewrite H0 in *. rewrite Z.add_0_r. change (2 ^ 0) with 1 in *.
      rewrite Z.div_1_r in Hrne. eapply Qle_trans; [exact Hle|].
      apply scale_le; [apply pow2_pos | lia].
    - assert (HF : E + n1 = F) by lia. rewrite HF.
      destruct (Z.eq_dec ev F) as [He|He].
      + rewrite He in Hle |- *. rewrite <- HF in Hle at 1.
        rewrite (pow2_split E n1), Qmult_assoc, <- inject_Z_mult in Hle by lia.
        apply scale_le in Hle; [|apply pow2_pos].
        apply scale_le; [apply pow2_pos|].
        assert (Zpos mv <= Zpos M / 2 ^ n1)
          by (apply Z.div_le_lower_bound; lia).
        lia.
      + assert (HFn : F = dM + E - 24) by lia.
        assert (Hn : n1 = dM - 24) by lia.
        assert (H23 : 2 ^ 23 <= Zpos M / 2 ^ n1).
        { apply Z.div_le_lower_bound; [lia|].
          rewrite <- Z.pow_add_r by lia.
          replace (n1 + 23) with (dM - 1) by lia. exact HMl. }
        destruct (digits_bounds_Q mv ev) as [_ Hu]. fold dv in Hu.
        apply Qlt_le_weak.
        eapply Qlt_le_trans; [exact Hu|].
        eapply Qle_trans; [apply (pow2_le_mono _ (F + 23)); lia|].
        rewrite (pow2_split F 23) by lia.
        apply scale_le; [apply pow2_pos | lia]. }
  (* the second shift loses nothing *)
  destruct (shr_fexp_spec m2 (E + n1) Hm2lo) as (mrs2 & H2 & Hm3 & _).
  rewrite H2. clear H2. rewrite fexp_eq in *.
  set (n2 := Z.max 0 (Z.max (Zdigits2 m2 + (E + n1) - 24) (-149) - (E + n1))) in *.
  assert (Hp2 : 0 < 2 ^ n2) by (apply Z.pow_pos_nonneg; lia).
  assert (Hex2 : m2 mod 2 ^ n2 = 0).
  { destruct (Z.eq_dec n1 0) as [H0|H0].
    - assert (Hm2 : m2 = Zpos M).
      { rewrite Hm2b; rewrite H0; change (2 ^ 0) with 1.
        - apply Z.div_1_r. - apply Z.mod_1_r. }
      assert (n2 = 0); [|replace n2 with 0 by lia; apply Z.mod_1_r].
      unfold n2. rewrite Hm2. cbn [Zdigits2]. fold dM. lia.
    - assert (HF : E + n1 = F) by lia.
      assert (Hlt : Zpos M / 2 ^ n1 < 2 ^ 24).
      { apply Z.div_lt_upper_bound; [lia|].
        rewrite <- Z.pow_add_r by lia.
        eapply Z.lt_le_trans; [exact HMu|]. apply Z.pow_le_mono_r; lia. }
      destruct m2 as [|p2|p2] eqn:Em2; [apply Z.mod_0_l; lia| |lia].
      destruct (Z.eq_dec (Zpos p2) (2 ^ 24)) as [Htop|Htop].
      + assert (n2 = 1); [|replace n2 with 1 by lia; rewrite Htop; reflexivity].
        unfold n2. injection Htop as ->. cbn [Zdigits2 digits2_pos Pos.succ]. lia.
      + assert (n2 = 0); [|replace n2 with 0 by lia; apply Z.mod_1_r].
        pose proof (digits_le_24 p2 ltac:(lia)).
        unfold n2. cbn [Zdigits2]. lia. }
  assert (Hm32 : shr_m mrs2 * 2 ^ n2 = m2).
  { rewrite Hm3. pose proof (Z.div_mod m2 (2 ^ n2) ltac:(lia)). lia. }
  assert (Hv3 : (inject_Z (Zpos mv) * pow2 ev
                 <= inject_Z (shr_m mrs2) * pow2 (E + n1 + n2))%Q).
  { rewrite (pow2_split (E + n1) n2), Qmult_assoc, <- inject_Z_mult, Hm32 by lia.
    exact Hv2. }
  destruct (shr_m mrs2) as [|m3|m3] eqn:E3.
  - exfalso. rewrite Qmult_0_l in Hv3.
    pose proof (pow2_pos ev).
    assert (0 < inject_Z (Zpos mv))%Q
      by (change 0%Q with (inject_Z 0); rewrite <- Zlt_Qlt; lia).
    nra.
  - destruct (E + n1 + n2 <=? emax - prec); [right; exact Hv3 | left; reflexivity].
  - pose proof (Z.div_pos m2 (2 ^ n2) Hm2lo Hp2). lia.
Qed.

(** *** Conversion of integers *)

Lemma round_aux_canonical s m e :
  canonical_mantissa prec emax m e = true -> e <= 104 ->
  binary_round_aux prec emax s (Zpos m) e loc_Exact = S754_finite s m e.
Proof.
  intros Hc He. unfold canonical_mantissa in Hc. apply Z.eqb_eq in Hc.
  unfold binary_round_aux, shr_fexp. cbn [Zdigits2].
  rewrite Hc, Z.sub_diag. cbn [shr shr_record_of_loc shr_m loc_of_shr_record
                               round_nearest_even Zdigits2].
  rewrite Hc, Z.sub_diag. cbn [shr shr_record_of_loc shr_m].
  replace (e <=? emax - prec) with true
    by (symmetry; apply Z.leb_le; unfold emax, prec; lia).
  reflexivity.
Qed.

Lemma iter_xO_value p k : Zpos (Pos.iter xO p k) = Zpos p * 2 ^ Zpos k.
Proof.
  induction k as [|k IH] using Pos.peano_ind.
  - cbn. lia.
  - rewrite Pos.iter_succ, Pos2Z.inj_succ, Z.pow_succ_r by lia.
    change (Zpos (Pos.iter xO p k)~0) with (2 * Zpos (Pos.iter xO p k)).
    rewrite IH. ring.
Qed.

Lemma iter_xO_digits p k :
  Zpos (digits2_pos (Pos.iter xO p k)) = Zpos (digits2_pos p) + Zpos k.
Proof.
  induction k as [|k IH] using Pos.peano_ind.
  - cbn. lia.
  - rewrite Pos.iter_succ. cbn [digits2_pos]. rewrite !Pos2Z.inj_succ, IH. lia.
Qed.

(** Integers up to [2^24] convert exactly. *)
Lemma of_int_exact w :
  0 < w <= 2 ^ 24 ->
  exists m e,
    of_int w = S754_finite false m e /\
    canonical_mantissa prec emax m e = true /\ e <= 104 /\
    (inject_Z (Zpos m) * pow2 e == inject_Z w)%Q.
Proof.
  intros [Hw0 Hw]. destruct w as [|p|p]; try lia.
  destruct (Z.eq_dec (Zpos p) (2 ^ 24)) as [Htop|Htop].
  { injection Htop as ->. exists 8388608%positive, 1. repeat split; try reflexivity; lia. }
  assert (Hlt : Zpos p < 2 ^ 24) by lia. clear Hw Htop.
  destruct (digits_bounds p) as [Hdl Hdu].
  set (d := Zpos (digits2_pos p)) in *.
  assert (Hd : 1 <= d <= 24).
  { split; [unfold d; lia|].
    destruct (Z_le_gt_dec d 24) as [|Hgt]; [assumption|exfalso].
    assert (2 ^ 24 <= 2 ^ (d - 1)) by (apply Z.pow_le_mono_r; lia). lia. }
  unfold of_int, binary_normalize, binary_round, shl_align.
  fold d. rewrite fexp_eq.
  replace (Z.max (d + 0 - 24) (-149) - 0) with (d - 24) by lia.
  destruct (d - 24) as [|k|k] eqn:Ek; try lia.
  - exists p, 0. replace (Z.max (d + 0 - 24) (-149)) with 0 by lia.
    assert (Hc : canonical_mantissa prec emax p 0 = true).
    { unfold canonical_mantissa. fold d. rewrite fexp_eq. apply Z.eqb_eq. lia. }
    rewrite round_aux_canonical by (auto; lia).
    repeat split; auto; try lia. unfold pow2. cbn. ring.
  - exists (Pos.iter xO p k), (d - 24).
    replace (Z.max (d + 0 - 24) (-149)) with (d - 24) by lia.
    assert (Hc : canonical_mantissa prec emax (Pos.iter xO p k) (d - 24) = true).
    { unfold canonical_mantissa. rewrite iter_xO_digits. fold d.
      rewrite fexp_eq. apply Z.eqb_eq. lia. }
    rewrite round_aux_canonical by (auto; lia).
    repeat split; auto; try lia.
    rewrite iter_xO_value, inject_Z_mult.
    replace (Zpos k) with (24 - d) by lia.
    rewrite <- (pow2_Z (24 - d)) by lia. rewrite <- Qmult_assoc, <- pow2_add.
    replace (24 - d + (d - 24)) with 0 by lia. unfold pow2. cbn. ring.
Qed.

(** *** Products with a factor in the unit interval *)

(** The rounded product of [x] in [[0, 1]] and a positive float [y] is
    between 0 and [y]. *)
Lemma mul_unit_upper x m e :
  is_finite x = true -> (0 <= value x <= 1)%Q ->
  canonical_mantissa prec emax m e = true -> e <= 104 ->
  nonneg (mul x (S754_finite false m e)) = true /\
  (0 <= value (mul x (S754_finite false m e)) <= inject_Z (Zpos m) * pow2 e)%Q.
Proof.
  intros Hf [Hx0 Hx1] Hc He.
  destruct x as [s|s| |[|] mx ex]; try discriminate.
  - cbn. split; [reflexivity|]. split; [apply Qle_refl | apply value_nonneg_pos].
  - exfalso. cbn in Hx0.
    pose proof (pow2_pos ex).
    assert (inject_Z (Z.neg mx) < 0)%Q.
    { change 0%Q with (inject_Z 0). rewrite <- Zlt_Qlt. lia. }
    nra.
  - cbn [value cond_Zopp] in Hx0, Hx1.
    unfold mul, SFmul. cbn [xorb].
    assert (Hex : ex <= 0).
    { apply pow2_le_inv. change (pow2 0) with 1%Q.
      pose proof (pow2_pos ex).
      assert (1 <= inject_Z (Zpos mx))%Q.
      { change 1%Q with (inject_Z 1). rewrite <- Zle_Qle. lia. }
      nra. }
    apply round_aux_upper; auto; try lia.
    rewrite Pos2Z.inj_mul, inject_Z_mult, pow2_add.
    pose proof (value_nonneg_pos m e).
    setoid_replace (inject_Z (Z.pos mx) * inject_Z (Z.pos m) * (pow2 ex * pow2 e))%Q
      with ((inject_Z (Z.pos mx) * pow2 ex) * (inject_Z (Z.pos m) * pow2 e))%Q by ring.
    generalize dependent (inject_Z (Zpos mx) * pow2 ex)%Q.
    generalize dependent (inject_Z (Zpos m) * pow2 e)%Q.
    intros; nra.
Qed.

(** *** Conversion to [int] *)

Lemma pow2_neg p : (pow2 (Zneg p) == / inject_Z (2 ^ Zpos p))%Q.
Proof.
  change (Zneg p) with (- Zpos p). unfold pow2. rewrite Qpower_opp.
  apply Qinv_comp. symmetry. apply Zpower_Qpower. lia.
Qed.

(** On a non-negative float, truncation is the floor of the value. *)
Lemma trunc_floor x :
  nonneg x = true -> trunc x = Some (Qfloor (value x)).
Proof.
  destruct x as [s|s| |[|] m e]; try discriminate; intros _.
  - reflexivity.
  - cbn [trunc value cond_Zopp]. f_equal.
    destruct e as [|p|p].
    + rewrite Z.shiftl_0_r. rewrite <- (Qfloor_Z (Zpos m)) at 1.
      apply Qfloor_comp. unfold pow2. cbn. ring.
    + rewrite Z.shiftl_mul_pow2 by lia.
      rewrite <- (Qfloor_Z (Zpos m * 2 ^ Zpos p)).
      apply Qfloor_comp. rewrite inject_Z_mult, pow2_Z by lia. reflexivity.
    + rewrite Z.shiftr_div_pow2 by lia. rewrite Zdiv_Qdiv.
      apply Qfloor_comp. rewrite pow2_neg. reflexivity.
Qed.

(** [(int)(x * w)] is defined for [x] in [[0, 1]], and lies in [[0, w]]. *)
Lemma cast_unit x w :
  is_finite x = true -> (0 <= value x <= 1)%Q -> 0 < w <= 2 ^ 24 ->
  float_to_int (mul x (of_int w)) = Some (Qfloor (value (mul x (of_int w))))
  /\ 0 <= Qfloor (value (mul x (of_int w))) <= w.
Proof.
  intros Hf Hx Hw.
  destruct (of_int_exact w Hw) as (m & e & -> & Hc & He & Hv).
  destruct (mul_unit_upper x m e Hf Hx Hc He) as [Hn [Hlo Hhi]].
  rewrite Hv in Hhi.
  apply Qfloor_resp_le in Hlo, Hhi. rewrite Qfloor_Z in Hhi.
  change (Qfloor 0) with 0 in Hlo.
  unfold float_to_int. rewrite (trunc_floor _ Hn).
  split; [|lia].
  unfold checked, in_int, INT_MIN, INT_MAX.
  replace (_ && _) with true; [reflexivity|].
  symmetry. apply andb_true_iff. split; apply Z.leb_le; lia.
Qed.

(** The floor of the rounded product is the floor of the exact product,
    or one more. *)
Lemma mul_unit_bracket x w :
  is_finite x = true -> (0 <= value x <= 1)%Q -> 0 < w <= 2 ^ 24 ->
  Qfloor (value x * inject_Z w) <= Qfloor (value (mul x (of_int w)))
  <= Qfloor (value x * inject_Z w) + 1.
Proof.
  intros Hf Hx Hw.
  destruct (cast_unit x w Hf Hx Hw) as [_ Hcast].
  destruct (of_int_exact w Hw) as (m & e & EW & Hc & He & Hv).
  rewrite EW in *.
  destruct (mul_unit_upper x m e Hf Hx Hc He) as [Hn _].
  assert (HK : 0 <= Qfloor (value x * inject_Z w) <= w).
  { assert (0 <= inject_Z w)%Q
      by (change 0%Q with (inject_Z 0); rewrite <- Zle_Qle; lia).
    split.
    - change 0 with (Qfloor 0). apply Qfloor_resp_le. nra.
    - rewrite <- (Qfloor_Z w) at 2. apply Qfloor_resp_le. nra. }
  set (K := Qfloor (value x * inject_Z w)) in *.
  destruct x as [s|s| |[|] mx ex]; try discriminate.
  - (* zero *)
    assert (K = 0); [|cbn; lia].
    unfold K. change 0 with (Qfloor 0). apply Qfloor_comp. cbn [value]. ring.
  - (* negative: excluded *)
    exfalso. destruct Hx as [Hx0 _]. cbn in Hx0.
    pose proof (pow2_pos ex).
    assert (inject_Z (Z.neg mx) < 0)%Q
      by (change 0%Q with (inject_Z 0); rewrite <- Zlt_Qlt; lia).
    nra.
  - assert (HP : (inject_Z (Zpos (mx * m)) * pow2 (ex + e)
                  == value (S754_finite false mx ex) * inject_Z w)%Q).
    { cbn [value cond_Zopp]. rewrite <- Hv, Pos2Z.inj_mul, inject_Z_mult, pow2_add.
      ring. }
    assert (Hex : ex <= 0).
    { destruct Hx as [_ Hx1]. cbn [value cond_Zopp] in Hx1.
      apply pow2_le_inv. change (pow2 0) with 1%Q.
      pose proof (pow2_pos ex).
      assert (1 <= inject_Z (Zpos mx))%Q
        by (change 1%Q with (inject_Z 1); rewrite <- Zle_Qle; lia).
      nra. }
    unfold mul, SFmul in *. cbn [xorb] in *.
    set (r := binary_round_aux prec emax false (Zpos (mx * m)) (ex + e) loc_Exact) in *.
    split.
    + destruct (Z.eq_dec K 0) as [H0|H0]; [lia|].
      destruct (of_int_exact K ltac:(lia)) as (mk & ek & _ & Hck & _ & Hvk).
      destruct (round_aux_lower (mx * m) (ex + e) mk ek Hck) as [Hinf|Hlow].
      * rewrite Hvk, HP. apply Qfloor_le.
      * fold r in Hinf. rewrite Hinf in Hn. discriminate.
      * fold r in Hlow. rewrite Hvk in Hlow.
        rewrite <- (Qfloor_Z K). apply Qfloor_resp_le. exact Hlow.
    + destruct (Z_le_gt_dec (K + 1) (2 ^ 24)) as [Hle|Hgt]; [|lia].
      destruct (of_int_exact (K + 1) ltac:(lia)) as (mk & ek & _ & Hck & Hek & Hvk).
      destruct (round_aux_upper (mx * m) (ex + e) mk ek Hck Hek ltac:(lia))
        as [_ [_ Hup]].
      * rewrite Hvk, HP. apply Qlt_le_weak. apply Qlt_floor.
      * fold r in Hup. rewrite Hvk in Hup.
        rewrite <- (Qfloor_Z (K + 1)). apply Qfloor_resp_le. exact Hup.
Qed.

End Float32Facts.

(** * The member functions, equationally *)

(** *** Moves *)

Lemma relativeToAbsolute_eq relX relY st :
  relativeToAbsolute relX relY st =
  match float_to_int (Float32.mul relX (Float32.of_int (screenWidth st))),
        float_to_int (Float32.mul relY (Float32.of_int (screenHeight st))) with
  | Some absX, Some absY => Some ((absX, absY), st, [])
  | _, _ => None
  end.
Proof.
  unfold relativeToAbsolute, bind, get, lift, ret.
  destruct (float_to_int (Float32.mul relX _)); [|reflexivity].
  destruct (float_to_int (Float32.mul relY _)); reflexivity.
Qed.

Lemma moveToPosition_eq relX relY st :
  moveToPosition relX relY st =
  match relativeToAbsolute relX relY st with
  | Some ((targetX, targetY), _, _) =>
      match int_sub targetX (currentX st), int_sub targetY (currentY st) with
      | Some dx, Some dy =>
          Some (tt, with_cursor st targetX targetY,
                sub_steps dx dy ++ [Cout (Moved relX relY targetX targetY)])
      | _, _ => None
      end
  | None => None
  end.
Proof.
  unfold moveToPosition. rewrite relativeToAbsolute_eq.
  unfold bind at 1. rewrite relativeToAbsolute_eq.
  destruct (float_to_int (Float32.mul relX _)) as [tx|]; [|reflexivity].
  destruct (float_to_int (Float32.mul relY _)) as [ty|]; [|reflexivity].
  unfold bind, get, lift.
  destruct (int_sub tx (currentX st)) as [dx|]; [|reflexivity].
  destruct (int_sub ty (currentY st)) as [dy|]; [|reflexivity].
  reflexivity.
Qed.

Lemma bind_Some {A B} (m : M A) (k : A -> M B) st b st2 tr :
  bind m k st = Some (b, st2, tr) <->
  exists a st1 tr1 tr2,
    m st = Some (a, st1, tr1) /\ k a st1 = Some (b, st2, tr2) /\ tr = tr1 ++ tr2.
Proof.
  unfold bind. split.
  - destruct (m st) as [[[a st1] tr1]|] eqn:Em; [|discriminate].
    destruct (k a st1) as [[[b' st2'] tr2]|] eqn:Ek; [|discriminate].
    intros H; inversion H; subst. exists a, st1, tr1, tr2. auto.
  - intros (a & st1 & tr1 & tr2 & -> & -> & ->). reflexivity.
Qed.

Lemma hid_events_app tr1 tr2 :
  hid_events (tr1 ++ tr2) = hid_events tr1 ++ hid_events tr2.
Proof. apply filter_app. Qed.

Lemma hid_events_sub_steps dx dy :
  hid_events (sub_steps dx dy) =
  repeat (HidMove (Z.quot dx 10) (Z.quot dy 10)
            (move_report (Z.quot dx 10) (Z.quot dy 10))) 10.
Proof. reflexivity. Qed.

Lemma int_sub_Some a b d : int_sub a b = Some d -> d = a - b.
Proof.
  unfold int_sub, checked. destruct (in_int (a - b)); congruence.
Qed.

Lemma int_sub_in_range a b :
  INT_MIN <= a - b <= INT_MAX -> int_sub a b = Some (a - b).
Proof.
  intros H. unfold int_sub, checked, in_int.
  replace (_ && _) with true; [reflexivity|].
  symmetry. apply andb_true_iff. split; apply Z.leb_le; lia.
Qed.

Lemma moveToPosition_Some relX relY st st' tr :
  moveToPosition relX relY st = Some (tt, st', tr) ->
  exists targetX targetY,
    relativeToAbsolute relX relY st = Some ((targetX, targetY), st, []) /\
    st' = with_cursor st targetX targetY /\
    tr = sub_steps (targetX - currentX st) (targetY - currentY st)
         ++ [Cout (Moved relX relY targetX targetY)].
Proof.
  rewrite moveToPosition_eq, relativeToAbsolute_eq.
  destruct (float_to_int (Float32.mul relX _)) as [tx|]; [|discriminate].
  destruct (float_to_int (Float32.mul relY _)) as [ty|]; [|discriminate].
  destruct (int_sub tx (currentX st)) as [dx|] eqn:Ex; [|discriminate].
  destruct (int_sub ty (currentY st)) as [dy|] eqn:Ey; [|discriminate].
  intros H. inversion H; subst; clear H.
  apply int_sub_Some in Ex, Ey. subst.
  exists tx, ty. auto.
Qed.

Lemma relativeToAbsolute_unit relX relY st :
  0 < screenWidth st <= 2 ^ 24 -> 0 < screenHeight st <= 2 ^ 24 ->
  Float32.in_unit relX -> Float32.in_unit relY ->
  let absX := Qfloor (Float32.value (Float32.mul relX (Float32.of_int (screenWidth st)))) in
  let absY := Qfloor (Float32.value (Float32.mul relY (Float32.of_int (screenHeight st)))) in
  relativeToAbsolute relX relY st = Some ((absX, absY), st, []) /\
  0 <= absX <= screenWidth st /\ 0 <= absY <= screenHeight st.
Proof.
  intros Hw Hh (Hfx & Hx) (Hfy & Hy). cbn zeta.
  destruct (cast_unit relX _ Hfx Hx Hw) as [Ex Bx].
  destruct (cast_unit relY _ Hfy Hy Hh) as [Ey By].
  rewrite relativeToAbsolute_eq, Ex, Ey. auto.
Qed.

Lemma moveToPosition_defined relX relY st :
  on_screen st -> Float32.in_unit relX -> Float32.in_unit relY ->
  exists targetX targetY,
    relativeToAbsolute relX relY st = Some ((targetX, targetY), st, []) /\
    0 <= targetX <= screenWidth st /\ 0 <= targetY <= screenHeight st /\
    moveToPosition relX relY st =
    Some (tt, with_cursor st targetX targetY,
          sub_steps (targetX - currentX st) (targetY - currentY st)
          ++ [Cout (Moved relX relY targetX targetY)]).
Proof.
  intros (Hw & Hh & Hcx & Hcy) Hx Hy.
  destruct (relativeToAbsolute_unit relX relY st Hw Hh Hx Hy) as (Er & Bx & By).
  eexists _, _. split; [exact Er|]. split; [exact Bx|]. split; [exact By|].
  rewrite moveToPosition_eq, Er.
  unfold INT_MIN, INT_MAX in *.
  rewrite !int_sub_in_range by (unfold INT_MIN, INT_MAX; lia).
  reflexivity.
Qed.

Lemma on_screen_with_cursor st x y :
  on_screen st -> 0 <= x <= screenWidth st -> 0 <= y <= screenHeight st ->
  on_screen (with_cursor st x y).
Proof. unfold on_screen. cbn. tauto. Qed.

(** *** Drag and typing *)

Lemma drag_eq fromX fromY toX toY st :
  drag fromX fromY toX toY st =
  match moveToPosition fromX fromY st with
  | Some (_, st1, tr1) =>
      match moveToPosition toX toY st1 with
      | Some (_, st2, tr2) =>
          Some (tt, st2,
                tr1 ++ [Sleep 100; HidClick true (button_report true); Sleep 100]
                ++ tr2 ++ [Sleep 100; HidClick false (button_report false);
                           Cout (Dragged fromX fromY toX toY)])
      | None => None
      end
  | None => None
  end.
Proof.
  unfold drag. unfold bind at 1.
  destruct (moveToPosition fromX fromY st) as [[[u st1] tr1]|]; [|reflexivity].
  unfold bind at 1 2 3. cbn [sleep_for sendMouseButton emit].
  unfold bind at 1.
  destruct (moveToPosition toX toY st1) as [[[u' st2] tr2]|]; reflexivity.
Qed.

Lemma for_each_keys l st :
  for_each l (fun c => sendKeyPress c ;; sleep_for 50) st =
  Some (tt, st, flat_map key_events l).
Proof.
  induction l as [|c l IH]; [reflexivity|].
  cbn [for_each]. unfold bind at 1. cbn. rewrite IH. reflexivity.
Qed.

Lemma typeText_eq t st :
  typeText t st =
  Some (tt, st, Cout (Typing t) :: flat_map key_events (list_ascii_of_string t)).
Proof.
  unfold typeText. unfold bind at 1. cbn [cout emit].
  rewrite for_each_keys. reflexivity.
Qed.

(** *** Recordings as replays *)

Lemma for_each_Replay actions :
  forall st st' tr,
    for_each actions (fun a => execute_action a ;; sleep_for 100) st
    = Some (tt, st', tr) <-> Replay st actions st' tr.
Proof.
  induction actions as [|a actions IH]; intros st st' tr; cbn [for_each].
  - unfold ret. split.
    + intros H; inversion H; subst. constructor.
    + intros H; inversion H; subst. reflexivity.
  - split.
    + intros H. apply bind_Some in H.
      destruct H as ([] & st1 & tr1' & tr2 & H1 & H2 & ->).
      apply bind_Some in H1.
      destruct H1 as ([] & st1' & tr1 & trs & H1 & Hs & ->).
      cbn in Hs. inversion Hs; subst; clear Hs.
      rewrite <- app_assoc. cbn [app].
      econstructor; [exact H1|]. apply IH. exact H2.
    + intros H. inversion H; subst; clear H.
      apply bind_Some. exists tt, st1, (tr1 ++ [Sleep 100]), tr2.
      split; [|split].
      * apply bind_Some. exists tt, st1, tr1, [Sleep 100]. auto.
      * apply IH. assumption.
      * rewrite <- app_assoc. reflexivity.
Qed.

Lemma executeRecording_Replay actions st st' tr :
  executeRecording actions st = Some (tt, st', tr) <->
  exists body,
    Replay st actions st' body /\ tr = Cout Executing :: body ++ [Cout Complete].
Proof.
  unfold executeRecording. split.
  - intros H. apply bind_Some in H.
    destruct H as ([] & st0 & tr0 & tr1 & H0 & H & ->).
    cbn in H0. inversion H0; subst; clear H0.
    apply bind_Some in H.
    destruct H as ([] & st1 & body & tr2 & Hb & Hc & ->).
    cbn in Hc. inversion Hc; subst; clear Hc.
    exists body. split; [apply for_each_Replay; exact Hb | reflexivity].
  - intros (body & Hb & ->). apply for_each_Replay in Hb.
    apply bind_Some. exists tt, st, [Cout Executing], (body ++ [Cout Complete]).
    split; [reflexivity|]. split; [|reflexivity].
    apply bind_Some. exists tt, st', body, [Cout Complete]. auto.
Qed.

Lemma Replay_app acts1 :
  forall st acts2 st' tr,
    Replay st (acts1 ++ acts2) st' tr <->
    exists st1 tr1 tr2,
      Replay st acts1 st1 tr1 /\ Replay st1 acts2 st' tr2 /\ tr = tr1 ++ tr2.
Proof.
  induction acts1 as [|a acts1 IH]; intros st acts2 st' tr; cbn [app].
  - split.
    + intros H. exists st, [], tr. repeat split; [constructor | exact H].
    + intros (st1 & tr1 & tr2 & H1 & H2 & ->). inversion H1; subst. exact H2.
  - split.
    + intros H. inversion H as [|? ? ? ? ? ? ? Hexec Hrest]; subst; clear H.
      apply IH in Hrest. destruct Hrest as (st2 & tr2' & tr3 & Ha & Hb & ->).
      exists st2, (tr1 ++ Sleep 100 :: tr2'), tr3.
      split; [econstructor; eauto|]. split; [exact Hb|].
      rewrite <- app_assoc. reflexivity.
    + intros (st2 & tr12 & tr3 & H1 & H2 & ->).
      inversion H1; subst; clear H1.
      rewrite <- app_assoc. cbn [app].
      econstructor; [eassumption|]. apply IH. eauto 6.
Qed.

(** * Traces of whole actions and recordings *)

Lemma travelled_sub_steps dx dy l :
  travelled (sub_steps dx dy ++ [Cout l])
  = (10 * Z.quot dx 10, 10 * Z.quot dy 10).
Proof.
  unfold sub_steps. generalize (Z.quot dx 10) (Z.quot dy 10). intros q r.
  unfold travelled. cbn [fold_right app List.concat repeat fst snd].
  f_equal; lia.
Qed.

Lemma hid_events_keys l :
  hid_events (flat_map key_events l) = map key_event l.
Proof.
  induction l as [|c l IH]; [reflexivity|].
  cbn [flat_map]. rewrite hid_events_app, IH. reflexivity.
Qed.

Lemma list_ascii_app s1 s2 :
  list_ascii_of_string (s1 ++ s2)%string
  = list_ascii_of_string s1 ++ list_ascii_of_string s2.
Proof. induction s1 as [|c s1 IH]; cbn; [reflexivity | now rewrite IH]. Qed.

(** *** HID events of an action *)

Lemma execute_click_eq a st :
  type a = CLICK ->
  execute_action a st =
  match moveToPosition (relativeX a) (relativeY a) st with
  | Some (_, st1, tr1) =>
      Some (tt, st1,
            tr1 ++ [Sleep 100; HidClick true (button_report true); Sleep 50;
                    HidClick false (button_report false);
                    Cout (Clicked (currentX st1) (currentY st1))])
  | None => None
  end.
Proof.
  intros Ha. unfold execute_action. rewrite Ha. unfold bind at 1.
  destruct (moveToPosition _ _ st) as [[[u st1] tr1]|]; reflexivity.
Qed.

Lemma execute_action_hid_count a st st' tr :
  execute_action a st = Some (tt, st', tr) ->
  List.length (hid_events tr) = hid_count a.
Proof.
  unfold hid_count. destruct (type a) eqn:Ha.
  - unfold execute_action. rewrite Ha. intros H.
    apply moveToPosition_Some in H. destruct H as (tx & ty & _ & _ & ->).
    rewrite hid_events_app, hid_events_sub_steps. reflexivity.
  - rewrite (execute_click_eq a st Ha).
    destruct (moveToPosition _ _ st) as [[[u st1] tr1]|] eqn:E1; [|discriminate].
    destruct u. apply moveToPosition_Some in E1.
    destruct E1 as (tx & ty & _ & _ & ->).
    intros H; inversion H; subst; clear H. reflexivity.
  - unfold execute_action. rewrite Ha, drag_eq.
    destruct (moveToPosition _ _ st) as [[[[] st1] tr1]|] eqn:E1; [|discriminate].
    destruct (moveToPosition _ _ st1) as [[[[] st2] tr2]|] eqn:E2; [|discriminate].
    apply moveToPosition_Some in E1. destruct E1 as (fx & fy & _ & _ & ->).
    apply moveToPosition_Some in E2. destruct E2 as (tx & ty & _ & _ & ->).
    intros H; inversion H; subst; clear H. reflexivity.
  - unfold execute_action. rewrite Ha. intros H. inversion H. reflexivity.
  - unfold execute_action. rewrite Ha, typeText_eq.
    intros H; inversion H; subst; clear H.
    cbn [hid_events filter is_hid].
    fold (hid_events (flat_map key_events (list_ascii_of_string (text a)))).
    rewrite hid_events_keys, length_map. reflexivity.
Qed.

Lemma Replay_hid_count st actions st' body :
  Replay st actions st' body ->
  List.length (hid_events body) = list_sum (map hid_count actions).
Proof.
  induction 1 as [|st a st1 tr1 acts st2 tr2 Hexec _ IH]; [reflexivity|].
  rewrite hid_events_app, length_app. cbn [hid_events filter is_hid map list_sum].
  fold (hid_events tr2). rewrite IH, (execute_action_hid_count _ _ _ _ Hexec).
  reflexivity.
Qed.

(** *** On the default profile, deltas fit a signed byte *)

Lemma as_int8_low_byte q : -128 <= q <= 127 -> as_int8 (low_byte q) = q.
Proof.
  intros Hq. unfold as_int8, low_byte.
  change 255 with (Z.ones 8). rewrite Z.land_ones by lia.
  change (2 ^ 8) with 256.
  destruct (Z_lt_ge_dec q 0) as [Hneg|Hpos].
  - replace (q mod 256) with (q + 256)
      by (apply (Z.mod_unique q 256 (-1)); lia).
    destruct (q + 256 <? 128) eqn:E; [apply Z.ltb_lt in E; lia | lia].
  - rewrite Z.mod_small by lia.
    destruct (q <? 128) eqn:E; [reflexivity | apply Z.ltb_ge in E; lia].
Qed.

Lemma quot10_bounds d b : 0 <= b -> - b <= d <= b -> - (b / 10) <= Z.quot d 10 <= b / 10.
Proof.
  intros Hb Hd.
  destruct (Z_lt_ge_dec d 0) as [Hneg|Hpos].
  - replace d with (- (- d)) by lia. rewrite Z.quot_opp_l by lia.
    rewrite Z.quot_div_nonneg by lia.
    pose proof (Z.div_le_mono (- d) b 10 ltac:(lia) ltac:(lia)).
    pose proof (Z.div_pos (- d) 10 ltac:(lia) ltac:(lia)). lia.
  - rewrite Z.quot_div_nonneg by lia.
    pose proof (Z.div_le_mono d b 10 ltac:(lia) ltac:(lia)).
    pose proof (Z.div_pos d 10 ltac:(lia) ltac:(lia)). lia.
Qed.

Lemma sub_steps_faithful dx dy :
  -390 <= dx <= 390 -> -844 <= dy <= 844 ->
  Forall int8_faithful (sub_steps dx dy).
Proof.
  intros Hx Hy.
  pose proof (quot10_bounds dx 390 ltac:(lia) Hx) as Bx.
  pose proof (quot10_bounds dy 844 ltac:(lia) Hy) as By.
  change (390 / 10) with 39 in Bx. change (844 / 10) with 84 in By.
  assert (H : int8_faithful (HidMove (Z.quot dx 10) (Z.quot dy 10)
                               (move_report (Z.quot dx 10) (Z.quot dy 10)))).
  { cbn. repeat split; try lia; apply as_int8_low_byte; lia. }
  unfold sub_steps. cbn [repeat List.concat app].
  repeat (constructor; [first [exact H | exact I]|]). constructor.
Qed.

Lemma default_profile_on_screen st : default_profile st -> on_screen st.
Proof. unfold default_profile, on_screen. intros (-> & -> & ? & ?). lia. Qed.

Lemma move_faithful relX relY st :
  default_profile st -> Float32.in_unit relX -> Float32.in_unit relY ->
  exists st' tr,
    moveToPosition relX relY st = Some (tt, st', tr) /\
    default_profile st' /\ Forall int8_faithful tr.
Proof.
  intros Hd Hx Hy.
  destruct (moveToPosition_defined relX relY st (default_profile_on_screen st Hd) Hx Hy)
    as (tx & ty & _ & Bx & By & H).
  destruct Hd as (Hw & Hh & Hcx & Hcy). rewrite Hw in Bx. rewrite Hh in By.
  eexists _, _. split; [exact H|]. split.
  - unfold default_profile. cbn. auto.
  - apply Forall_app. split; [apply sub_steps_faithful; lia|].
    constructor; [exact I | constructor].
Qed.

Lemma execute_faithful a st :
  default_profile st -> coords_in_unit a ->
  exists st' tr,
    execute_action a st = Some (tt, st', tr) /\
    default_profile st' /\ Forall int8_faithful tr.
Proof.
  intros Hd Hc. unfold coords_in_unit in Hc.
  destruct (type a) eqn:Ha.
  - destruct Hc as [Hx Hy]. unfold execute_action. rewrite Ha.
    apply move_faithful; assumption.
  - destruct Hc as [Hx Hy]. rewrite (execute_click_eq a st Ha).
    destruct (move_faithful _ _ st Hd Hx Hy) as (st1 & tr1 & -> & Hd1 & F1).
    eexists _, _. split; [reflexivity|]. split; [exact Hd1|].
    apply Forall_app. split; [exact F1|]. repeat (constructor; [exact I|]).
    constructor.
  - destruct Hc as (Hx & Hy & Htx & Hty). unfold execute_action.
    rewrite Ha, drag_eq.
    destruct (move_faithful _ _ st Hd Hx Hy) as (st1 & tr1 & -> & Hd1 & F1).
    destruct (move_faithful _ _ st1 Hd1 Htx Hty) as (st2 & tr2 & -> & Hd2 & F2).
    eexists _, _. split; [reflexivity|]. split; [exact Hd2|].
    apply Forall_app. split; [exact F1|].
    repeat (constructor; [exact I|]).
    apply Forall_app. split; [exact F2|]. repeat (constructor; [exact I|]).
    constructor.
  - unfold execute_action. rewrite Ha.
    eexists _, _. split; [reflexivity|]. split; [exact Hd|].
    repeat (constructor; [exact I|]). constructor.
  - unfold execute_action. rewrite Ha, typeText_eq.
    eexists _, _. split; [reflexivity|]. split; [exact Hd|].
    constructor; [exact I|].
    induction (list_ascii_of_string (text a)) as [|c l IH]; [constructor|].
    cbn. constructor; [exact I|]. constructor; [exact I | exact IH].
Qed.

Lemma replay_faithful actions :
  forall st,
    default_profile st -> Forall coords_in_unit actions ->
    exists st' body,
      Replay st actions st' body /\ default_profile st' /\
      Forall int8_faithful body.
Proof.
  induction actions as [|a actions IH]; intros st Hd Hc.
  - exists st, []. repeat split; try constructor; apply Hd.
  - inversion Hc as [|? ? Ha Hrest]; subst.
    destruct (execute_faithful a st Hd Ha) as (st1 & tr1 & He & Hd1 & F1).
    destruct (IH st1 Hd1 Hrest) as (st2 & tr2 & HR & Hd2 & F2).
    exists st2, (tr1 ++ Sleep 100 :: tr2).
    split; [econstructor; eassumption|]. split; [exact Hd2|].
    apply Forall_app. split; [exact F1|]. constructor; [exact I | exact F2].
Qed.

(** * The claims *)

(** A decimal literal between 0 and 1. *)
Ltac unit_literal :=
  split; [reflexivity | split; vm_compute; discriminate].

(** ** C1: Coordinate mapping *)

(** Counterexample to C1 as stated.  On the controller as constructed
    (390 x 844), [relativeToAbsolute(0.7f, 0.7f)] returns (273, 590).  The
    number [0.7f] denotes is 11744051 / 2^24, and 390 times it is
    272.99999535..., whose floor is 272: the binary32 product is rounded
    up to 273.0 before the conversion to [int]. *)
Lemma relativeToAbsolute_exact_floor_counterexample :
  let x := Float32.literal 7 10 in
  Float32.in_unit x /\
  relativeToAbsolute x x initial = Some ((273, 590), initial, []) /\
  Qfloor (Float32.value x * inject_Z (screenWidth initial)) = 272.
Proof.
  cbv zeta. split; [unit_literal|]. split; vm_compute; reflexivity.
Qed.

(** C1, amended.  For binary32 coordinates [relX], [relY] in [[0, 1]] and
    a profile with [0 < width, height <= 2^24], [relativeToAbsolute]
    returns [(floor (relX (x) width), floor (relY (x) height))], where
    [(x)] is the binary32 product (round to nearest, ties to even) the
    code computes.  Each component is the floor of the exact product or
    that floor plus one, and lies between 0 and the screen dimension.
    The controller is left as it was and nothing is written. *)
Theorem relativeToAbsolute_floor_of_rounded_product :
  forall (relX relY : float) (st : HIDController),
    0 < screenWidth st <= 2 ^ 24 -> 0 < screenHeight st <= 2 ^ 24 ->
    Float32.in_unit relX -> Float32.in_unit relY ->
    let absX := Qfloor (Float32.value
                  (Float32.mul relX (Float32.of_int (screenWidth st)))) in
    let absY := Qfloor (Float32.value
                  (Float32.mul relY (Float32.of_int (screenHeight st)))) in
    relativeToAbsolute relX relY st = Some ((absX, absY), st, []) /\
    Qfloor (Float32.value relX * inject_Z (screenWidth st)) <= absX
      <= Qfloor (Float32.value relX * inject_Z (screenWidth st)) + 1 /\
    Qfloor (Float32.value relY * inject_Z (screenHeight st)) <= absY
      <= Qfloor (Float32.value relY * inject_Z (screenHeight st)) + 1 /\
    0 <= absX <= screenWidth st /\ 0 <= absY <= screenHeight st.
Proof.
  intros relX relY st Hw Hh Hx Hy. cbv zeta.
  destruct (relativeToAbsolute_unit relX relY st Hw Hh Hx Hy) as (E & Bx & By).
  destruct Hx as [Hfx Hx], Hy as [Hfy Hy].
  split; [exact E|].
  split; [apply mul_unit_bracket; assumption|].
  split; [apply mul_unit_bracket; assumption|].
  split; assumption.
Qed.

(** C1 at the home button of the recording: (0.85f, 0.02f) on 390 x 844. *)
Lemma relativeToAbsolute_floor_witness :
  (0 < screenWidth initial <= 2 ^ 24 /\ 0 < screenHeight initial <= 2 ^ 24 /\
   Float32.in_unit (Float32.literal 85 100) /\
   Float32.in_unit (Float32.literal 2 100)) /\
  relativeToAbsolute (Float32.literal 85 100) (Float32.literal 2 100) initial
  = Some ((331, 16), initial, []).
Proof.
  assert (Hw : 0 < screenWidth initial <= 2 ^ 24) by (vm_compute; split; [reflexivity | discriminate]).
  assert (Hh : 0 < screenHeight initial <= 2 ^ 24) by (vm_compute; split; [reflexivity | discriminate]).
  assert (Hx : Float32.in_unit (Float32.literal 85 100)) by unit_literal.
  assert (Hy : Float32.in_unit (Float32.literal 2 100)) by unit_literal.
  split; [auto|].
  exact (proj1 (relativeToAbsolute_floor_of_rounded_product _ _ _ Hw Hh Hx Hy)).
Defined.

(** ** C2: The cursor after a move *)

(** C2.  After a completed [moveToPosition] the cursor is exactly the
    target [relativeToAbsolute] computes for the move's coordinates, from
    every starting cursor; the ten emitted deltas add up to less, by the
    remainders of [dx / 10] and [dy / 10].  A move with coordinates in
    [[0, 1]] from a cursor on the screen always completes.  After any
    recording that ends with a Move, the cursor is the target of that
    Move: nothing accumulates. *)
Theorem moveToPosition_cursor_is_exact_target :
  (forall relX relY st st' tr,
      moveToPosition relX relY st = Some (tt, st', tr) ->
      relativeToAbsolute relX relY st
        = Some ((currentX st', currentY st'), st, []) /\
      screenWidth st' = screenWidth st /\ screenHeight st' = screenHeight st /\
      currentX st' = currentX st + fst (travelled tr)
                     + Z.rem (currentX st' - currentX st) 10 /\
      currentY st' = currentY st + snd (travelled tr)
                     + Z.rem (currentY st' - currentY st) 10) /\
  (forall relX relY st,
      on_screen st -> Float32.in_unit relX -> Float32.in_unit relY ->
      exists st' tr, moveToPosition relX relY st = Some (tt, st', tr)) /\
  (forall acts a st st' tr,
      type a = MOVE ->
      executeRecording (acts ++ [a]) st = Some (tt, st', tr) ->
      relativeToAbsolute (relativeX a) (relativeY a) st'
        = Some ((currentX st', currentY st'), st', [])).
Proof.
  split; [|split].
  - intros relX relY st st' tr H.
    apply moveToPosition_Some in H. destruct H as (tx & ty & Er & -> & ->).
    rewrite travelled_sub_steps.
    cbn [with_cursor currentX currentY screenWidth screenHeight fst snd].
    repeat split; try exact Er.
    + pose proof (Z.quot_rem' (tx - currentX st) 10). lia.
    + pose proof (Z.quot_rem' (ty - currentY st) 10). lia.
  - intros relX relY st Hs Hx Hy.
    destruct (moveToPosition_defined relX relY st Hs Hx Hy)
      as (tx & ty & _ & _ & _ & H). eauto.
  - intros acts a st st' tr Ha H.
    apply executeRecording_Replay in H. destruct H as (body & H & _).
    apply Replay_app in H. destruct H as (st1 & tr1 & tr2 & _ & H & _).
    inversion H as [|? ? st2 tra ? ? trb Hexec Hnil]; subst; clear H.
    inversion Hnil; subst; clear Hnil.
    unfold execute_action in Hexec. rewrite Ha in Hexec.
    apply moveToPosition_Some in Hexec.
    destruct Hexec as (tx & ty & Er & -> & _).
    rewrite relativeToAbsolute_eq in Er |- *.
    cbn [with_cursor currentX currentY screenWidth screenHeight].
    destruct (float_to_int _); [|discriminate].
    destruct (float_to_int _); [|discriminate].
    congruence.
Qed.

(** C2 at the first action of the recording. *)
Lemma moveToPosition_cursor_witness :
  moveToPosition (Float32.literal 5 10) (Float32.literal 5 100) initial
  = Some (tt, with_cursor initial 195 42,
          sub_steps 195 42
          ++ [Cout (Moved (Float32.literal 5 10) (Float32.literal 5 100) 195 42)])
  /\ relativeToAbsolute (Float32.literal 5 10) (Float32.literal 5 100) initial
     = Some ((195, 42), initial, []).
Proof.
  assert (H : moveToPosition (Float32.literal 5 10) (Float32.literal 5 100) initial
              = Some (tt, with_cursor initial 195 42,
                      sub_steps 195 42
                      ++ [Cout (Moved (Float32.literal 5 10) (Float32.literal 5 100) 195 42)]))
    by (vm_compute; reflexivity).
  split; [exact H|].
  exact (proj1 (proj1 moveToPosition_cursor_is_exact_target _ _ _ _ _ H)).
Defined.

(** ** C3: The events of a move *)

(** C3.  A completed [moveToPosition] emits exactly ten HID events, each
    the relative move [(dx / 10, dy / 10)] with [dx], [dy] the distance
    from the cursor to the target and [/] the truncating division of
    [int]; when the target is the cursor these are ten zero moves.  No
    other kind of HID event is emitted.  A move with coordinates in
    [[0, 1]] from a cursor on the screen always completes. *)
Theorem moveToPosition_emits_ten_relative_moves :
  (forall relX relY st st' tr,
      moveToPosition relX relY st = Some (tt, st', tr) ->
      exists targetX targetY,
        relativeToAbsolute relX relY st = Some ((targetX, targetY), st, []) /\
        let dx := targetX - currentX st in
        let dy := targetY - currentY st in
        hid_events tr
        = repeat (HidMove (Z.quot dx 10) (Z.quot dy 10)
                    [0; low_byte (Z.quot dx 10); low_byte (Z.quot dy 10)]) 10 /\
        (targetX = currentX st -> targetY = currentY st ->
         hid_events tr = repeat (HidMove 0 0 [0; 0; 0]) 10)) /\
  (forall relX relY st,
      on_screen st -> Float32.in_unit relX -> Float32.in_unit relY ->
      exists st' tr, moveToPosition relX relY st = Some (tt, st', tr)).
Proof.
  split.
  - intros relX relY st st' tr H.
    apply moveToPosition_Some in H. destruct H as (tx & ty & Er & -> & ->).
    exists tx, ty. split; [exact Er|]. cbv zeta.
    rewrite hid_events_app, hid_events_sub_steps. cbn [hid_events filter is_hid].
    rewrite app_nil_r. split; [reflexivity|].
    intros -> ->. rewrite !Z.sub_diag. reflexivity.
  - intros relX relY st Hs Hx Hy.
    destruct (moveToPosition_defined relX relY st Hs Hx Hy)
      as (tx & ty & _ & _ & _ & H). eauto.
Qed.

(** C3 at a move to the cursor's own position. *)
Lemma moveToPosition_ten_moves_witness :
  moveToPosition (Float32.of_int 0) (Float32.of_int 0) initial
  = Some (tt, state_of initial
                (moveToPosition (Float32.of_int 0) (Float32.of_int 0) initial),
          trace_of (moveToPosition (Float32.of_int 0) (Float32.of_int 0) initial)) /\
  hid_events
    (trace_of (moveToPosition (Float32.of_int 0) (Float32.of_int 0) initial))
  = repeat (HidMove 0 0 [0; 0; 0]) 10.
Proof.
  assert (H : moveToPosition (Float32.of_int 0) (Float32.of_int 0) initial
              = Some (tt, state_of initial
                            (moveToPosition (Float32.of_int 0) (Float32.of_int 0)
                               initial),
                      trace_of (moveToPosition (Float32.of_int 0) (Float32.of_int 0)
                                  initial)))
    by (vm_compute; reflexivity).
  split; [exact H|].
  destruct (proj1 moveToPosition_emits_ten_relative_moves _ _ _ _ _ H)
    as (tx & ty & Er & _ & Hzero).
  assert (E : relativeToAbsolute (Float32.of_int 0) (Float32.of_int 0) initial
              = Some ((0, 0), initial, [])) by reflexivity.
  rewrite E in Er. injection Er as <- <-.
  exact (Hzero eq_refl eq_refl).
Defined.

(** ** C4: Drag *)

(** C4.  A completed Drag emits, in this order: the ten sub-steps to the
    origin, one button-down, the ten sub-steps from the origin to the
    destination, one button-up.  There is one button-down and one
    button-up, also when the destination is the origin (the second leg is
    then ten zero moves).  A Drag with coordinates in [[0, 1]] from a
    cursor on the screen always completes. *)
Theorem drag_event_order :
  (forall a st st' tr,
      type a = DRAG ->
      execute_action a st = Some (tt, st', tr) ->
      exists fromX fromY toX toY,
        relativeToAbsolute (relativeX a) (relativeY a) st
          = Some ((fromX, fromY), st, []) /\
        relativeToAbsolute (toRelativeX a) (toRelativeY a) st
          = Some ((toX, toY), st, []) /\
        let dx1 := Z.quot (fromX - currentX st) 10 in
        let dy1 := Z.quot (fromY - currentY st) 10 in
        let dx2 := Z.quot (toX - fromX) 10 in
        let dy2 := Z.quot (toY - fromY) 10 in
        hid_events tr
        = repeat (HidMove dx1 dy1 [0; low_byte dx1; low_byte dy1]) 10
          ++ [HidClick true [1; 0; 0]]
          ++ repeat (HidMove dx2 dy2 [0; low_byte dx2; low_byte dy2]) 10
          ++ [HidClick false [0; 0; 0]] /\
        count_button true tr = 1%nat /\ count_button false tr = 1%nat /\
        (toRelativeX a = relativeX a -> toRelativeY a = relativeY a ->
         (toX, toY) = (fromX, fromY) /\ dx2 = 0 /\ dy2 = 0)) /\
  (forall a st,
      type a = DRAG -> on_screen st ->
      Float32.in_unit (relativeX a) -> Float32.in_unit (relativeY a) ->
      Float32.in_unit (toRelativeX a) -> Float32.in_unit (toRelativeY a) ->
      exists st' tr, execute_action a st = Some (tt, st', tr)).
Proof.
  split.
  - intros a st st' tr Ha H. unfold execute_action in H. rewrite Ha in H.
    rewrite drag_eq in H.
    destruct (moveToPosition (relativeX a) (relativeY a) st)
      as [[[[] st1] tr1]|] eqn:E1; [|discriminate].
    destruct (moveToPosition (toRelativeX a) (toRelativeY a) st1)
      as [[[[] st2] tr2]|] eqn:E2; [|discriminate].
    inversion H; subst; clear H.
    apply moveToPosition_Some in E1. destruct E1 as (fx & fy & Er1 & -> & ->).
    apply moveToPosition_Some in E2. destruct E2 as (tx & ty & Er2 & -> & ->).
    rewrite relativeToAbsolute_eq in Er2.
    cbn [with_cursor currentX currentY screenWidth screenHeight] in *.
    exists fx, fy, tx, ty. split; [exact Er1|].
    split; [rewrite relativeToAbsolute_eq; destruct (float_to_int _);
            [destruct (float_to_int _); [congruence | discriminate] | discriminate]|].
    cbv zeta. split; [|split; [|split]].
    + rewrite !hid_events_app, !hid_events_sub_steps. reflexivity.
    + unfold count_button. rewrite !filter_app. rewrite !length_app. reflexivity.
    + unfold count_button. rewrite !filter_app. rewrite !length_app. reflexivity.
    + intros Hx Hy. rewrite Hx, Hy in Er2.
      rewrite relativeToAbsolute_eq in Er1.
      destruct (float_to_int _); [|discriminate].
      destruct (float_to_int _); [|discriminate].
      inversion Er1; inversion Er2; subst.
      rewrite !Z.sub_diag. auto.
  - intros a st Ha Hs Hx Hy Htx Hty. unfold execute_action. rewrite Ha, drag_eq.
    destruct (moveToPosition_defined _ _ st Hs Hx Hy)
      as (fx & fy & _ & Bx & By & ->).
    destruct (moveToPosition_defined (toRelativeX a) (toRelativeY a)
                (with_cursor st fx fy)
                (on_screen_with_cursor st fx fy Hs Bx By) Htx Hty)
      as (tx & ty & _ & _ & _ & ->).
    eauto.
Qed.

(** C4 at the drag from (0.25, 0.25) to (0.75, 0.75). *)
Lemma drag_event_order_witness :
  type quarter_drag = DRAG /\
  count_button true (trace_of (execute_action quarter_drag initial)) = 1%nat /\
  count_button false (trace_of (execute_action quarter_drag initial)) = 1%nat.
Proof.
  split; [reflexivity|].
  assert (H : execute_action quarter_drag initial
              = Some (tt, state_of initial (execute_action quarter_drag initial),
                      trace_of (execute_action quarter_drag initial)))
    by (vm_compute; reflexivity).
  destruct (proj1 drag_event_order quarter_drag initial _ _ eq_refl H)
    as (fx & fy & tx & ty & _ & _ & _ & Hdown & Hup & _).
  split; assumption.
Defined.

(** ** C5: Keycodes *)

(** C5.  [asciiToHIDKeycode] is total.  Lowercase and uppercase letters
    map to [4 + offset] in their alphabet (4 to 29), so a letter and its
    uppercase have the same code; '1'..'9' map to [30 + offset] (30 to
    38); '0', space and newline map to 39, 44 and 40; every other
    character maps to 0.
    [sendKeyPress] puts the code in key slot 1 and leaves the modifier
    byte 0.  [typeText] goes on after a character that maps to 0: the
    characters after it get their key reports. *)
Theorem asciiToHIDKeycode_table :
  (forall c : ascii,
      (is_lower c = true ->
       asciiToHIDKeycode c = 4 + (code c - code "a") /\
       4 <= asciiToHIDKeycode c <= 29 /\
       is_upper (to_upper c) = true /\
       asciiToHIDKeycode (to_upper c) = asciiToHIDKeycode c) /\
      (is_upper c = true ->
       asciiToHIDKeycode c = 4 + (code c - code "A") /\
       4 <= asciiToHIDKeycode c <= 29) /\
      (is_digit19 c = true ->
       asciiToHIDKeycode c = 30 + (code c - code "1") /\
       30 <= asciiToHIDKeycode c <= 38) /\
      (c = "0"%char -> asciiToHIDKeycode c = 39) /\
      (c = " "%char -> asciiToHIDKeycode c = 44) /\
      (c = newline -> asciiToHIDKeycode c = 40) /\
      (is_lower c = false -> is_upper c = false -> is_digit19 c = false ->
       c <> "0"%char -> c <> " "%char -> c <> newline ->
       asciiToHIDKeycode c = 0) /\
      0 <= asciiToHIDKeycode c <= 44) /\
  (forall (c : ascii) (st : HIDController),
      sendKeyPress c st
      = Some (tt, st, [HidType c (asciiToHIDKeycode c)
                         [0; 0; asciiToHIDKeycode c; 0; 0; 0; 0; 0]])) /\
  (forall (s1 : string) (c : ascii) (s2 : string) (st : HIDController),
      asciiToHIDKeycode c = 0 ->
      exists tr,
        typeText (s1 ++ String c s2) st = Some (tt, st, tr) /\
        hid_events tr
        = map key_event (list_ascii_of_string s1)
          ++ HidType c 0 [0; 0; 0; 0; 0; 0; 0; 0]
          :: map key_event (list_ascii_of_string s2)).
Proof.
  split; [|split].
  - intros c.
    destruct c as [[] [] [] [] [] [] [] []]; vm_compute;
      intuition (discriminate || congruence).
  - reflexivity.
  - intros s1 c s2 st Hc. eexists. split; [apply typeText_eq|].
    cbn [hid_events filter is_hid]. fold (hid_events (flat_map key_events
      (list_ascii_of_string (s1 ++ String c s2)))).
    rewrite hid_events_keys, list_ascii_app, map_app. cbn [list_ascii_of_string map].
    unfold key_event at 2. rewrite Hc. reflexivity.
Qed.

(** C5 at the letter a. *)
Lemma asciiToHIDKeycode_table_witness :
  is_lower "a" = true /\
  asciiToHIDKeycode "a" = 4 /\ asciiToHIDKeycode "A" = asciiToHIDKeycode "a".
Proof.
  split; [reflexivity|].
  destruct (proj1 (proj1 asciiToHIDKeycode_table "a"%char) eq_refl)
    as (H1 & _ & _ & H2).
  split; [exact H1 | exact H2].
Defined.

(** ** C6: Typing *)

(** C6.  The code against the claim, at the text "ab".  The claim has a
    key-down and then, after the delay, a key-up for each character.
    [typeText] writes the press of key 4, sleeps 50 ms, writes the press
    of key 5, sleeps 50 ms: two key reports for two characters, and no
    key-up.  [sendKeyPress] announces the release ([// Send key release])
    and clears the key slot of its local report, but writes nothing for
    it ([// Would send release report here]); [click], next to it, does
    send its release with [sendMouseButton(false)]. *)
Theorem typeText_emits_no_key_up :
  typeText "ab" initial
  = Some (tt, initial,
          [Cout (Typing "ab");
           HidType "a" 4 [0; 0; 4; 0; 0; 0; 0; 0]; Sleep 50;
           HidType "b" 5 [0; 0; 5; 0; 0; 0; 0; 0]; Sleep 50]) /\
  hid_events (trace_of (typeText "ab" initial))
  = [HidType "a" 4 [0; 0; 4; 0; 0; 0; 0; 0];
     HidType "b" 5 [0; 0; 5; 0; 0; 0; 0; 0]] /\
  List.length (hid_events (trace_of (typeText "ab" initial))) = 2%nat.
Proof. repeat split. Qed.

(** X21.  [typeText] always completes and leaves the controller as it
    was.  For each character of the text, in order, it emits one key
    report, with that character's keycode in key slot 1 and zero in the
    modifier byte and the other five slots, and then sleeps 50 ms.  The
    key reports are as many as the characters: no report carries two
    characters. *)
Theorem typeText_emits_one_report_per_character :
  forall (t : string) (st : HIDController),
  exists tr,
    typeText t st = Some (tt, st, tr) /\
    tr = Cout (Typing t)
         :: flat_map (fun c => [HidType c (asciiToHIDKeycode c)
                                  [0; 0; asciiToHIDKeycode c; 0; 0; 0; 0; 0];
                                Sleep 50])
              (list_ascii_of_string t) /\
    hid_events tr
    = map (fun c => HidType c (asciiToHIDKeycode c)
                      [0; 0; asciiToHIDKeycode c; 0; 0; 0; 0; 0])
        (list_ascii_of_string t) /\
    List.length (hid_events tr) = String.length t.
Proof.
  intros t st. eexists. split; [apply typeText_eq|]. split; [reflexivity|].
  assert (H : hid_events (Cout (Typing t)
                          :: flat_map key_events (list_ascii_of_string t))
              = map key_event (list_ascii_of_string t))
    by apply hid_events_keys.
  split; [exact H|]. rewrite H, length_map.
  clear H. induction t as [|c t IH]; [reflexivity|].
  cbn [list_ascii_of_string List.length String.length]. now rewrite IH.
Qed.

(** ** C7: Transport failures *)

(** C7 is about what the engine does when an emission signals a transport
    failure.  [sendMouseMove], [sendMouseButton] and [sendKeyPress]
    return [void] and write to [std::cout]; [executeRecording] returns
    [void]; no member function takes or returns a transport's answer.
    The premise of the claim has nothing to stand on in this embedding,
    so the claim has no statement here.  What a replay does emit, in
    full and in order, is stated with the further properties of
    [executeRecording] below. *)

(** ** C8: The home button recording *)

(** C8.  Replaying [getHomeButtonRecording] on the controller as
    constructed (390 x 844, cursor (0, 0)): ten moves of (19, 4) and the
    cursor is (195, 42); a wait of 500 ms; ten moves of (13, -2) and the
    cursor is (331, 16); button-down, 50 ms, button-up there; a wait of
    1000 ms.  The cursor after the first, second, third and fourth
    action is (195, 42), (195, 42), (331, 16) and (331, 16). *)
Theorem home_button_recording_trace :
  executeRecording getHomeButtonRecording initial
  = Some (tt,
          {| screenWidth := 390; screenHeight := 844;
             currentX := 331; currentY := 16 |},
          [Cout Executing]
          ++ List.concat (repeat [HidMove 19 4 [0; 19; 4]; Sleep 10] 10)
          ++ [Cout (Moved (Float32.literal 5 10) (Float32.literal 5 100) 195 42);
              Sleep 100;
              Cout (Waiting 500); Sleep 500; Sleep 100]
          ++ List.concat (repeat [HidMove 13 (-2) [0; 13; 254]; Sleep 10] 10)
          ++ [Cout (Moved (Float32.literal 85 100) (Float32.literal 2 100) 331 16);
              Sleep 100;
              HidClick true [1; 0; 0]; Sleep 50; HidClick false [0; 0; 0];
              Cout (Clicked 331 16); Sleep 100;
              Cout (Waiting 1000); Sleep 1000; Sleep 100;
              Cout Complete]) /\
  map (fun n =>
         let st := state_of initial
                     (executeRecording (firstn n getHomeButtonRecording) initial) in
         (currentX st, currentY st))
      [1; 2; 3; 4]%nat
  = [(195, 42); (195, 42); (331, 16); (331, 16)].
Proof. split; vm_compute; reflexivity. Qed.

(** ** C9: The empty recording *)

(** C9.  Replaying the empty recording writes the two banner lines only:
    no HID event, and the controller (cursor included) is as before. *)
Theorem empty_recording_is_a_no_op :
  forall st : HIDController,
    executeRecording [] st = Some (tt, st, [Cout Executing; Cout Complete]) /\
    hid_events [Cout Executing; Cout Complete] = [].
Proof. intros st. split; reflexivity. Qed.

(** ** C10: Deltas and report bytes *)

(** C10.  Replaying, on the controller as constructed, any recording
    whose actions use coordinates in [[0, 1]] always completes, and
    every move event of the trace has both deltas within [[-127, 127]];
    the report bytes [dx & 0xFF], [dy & 0xFF], read back as [int8_t], are
    the deltas. *)
Theorem sub_step_deltas_fit_int8 :
  forall actions : list RecordedAction,
    Forall coords_in_unit actions ->
    exists st' tr,
      executeRecording actions initial = Some (tt, st', tr) /\
      forall dx dy report,
        In (HidMove dx dy report) tr ->
        -127 <= dx <= 127 /\ -127 <= dy <= 127 /\
        report = [0; low_byte dx; low_byte dy] /\
        as_int8 (low_byte dx) = dx /\ as_int8 (low_byte dy) = dy.
Proof.
  intros actions Hc.
  assert (Hd : default_profile initial) by (unfold default_profile; cbn; lia).
  destruct (replay_faithful actions initial Hd Hc) as (st' & body & HR & _ & F).
  exists st', (Cout Executing :: body ++ [Cout Complete]).
  split.
  - apply executeRecording_Replay. exists body. auto.
  - intros dx dy report Hin.
    assert (Hb : In (HidMove dx dy report) body).
    { destruct Hin as [Hin|Hin]; [discriminate|].
      apply in_app_or in Hin. destruct Hin as [Hin|[Hin|[]]];
        [exact Hin | discriminate]. }
    rewrite Forall_forall in F. specialize (F _ Hb). cbn in F.
    destruct F as (Bx & By & Hr & Hx & Hy). repeat split; auto; lia.
Qed.

(** C10 at the home button recording. *)
Lemma sub_step_deltas_fit_int8_witness :
  Forall coords_in_unit getHomeButtonRecording /\
  exists st' tr,
    executeRecording getHomeButtonRecording initial = Some (tt, st', tr) /\
    forall dx dy report,
      In (HidMove dx dy report) tr ->
      -127 <= dx <= 127 /\ -127 <= dy <= 127 /\
      report = [0; low_byte dx; low_byte dy] /\
      as_int8 (low_byte dx) = dx /\ as_int8 (low_byte dy) = dy.
Proof.
  assert (H : Forall coords_in_unit getHomeButtonRecording).
  { unfold getHomeButtonRecording. cbv zeta.
    constructor; [split; unit_literal|]. constructor; [exact I|].
    constructor; [split; unit_literal|]. constructor; [exact I|].
    constructor. }
  split; [exact H|].
  exact (sub_step_deltas_fit_int8 getHomeButtonRecording H).
Defined.

(** * Further properties of the code *)

(** ** Sums over traces *)

Lemma slept_app tr1 tr2 : slept (tr1 ++ tr2) = slept tr1 + slept tr2.
Proof.
  induction tr1 as [|e tr1 IH]; [reflexivity|].
  cbn [app slept fold_right]. fold (slept (tr1 ++ tr2)). fold (slept tr1).
  rewrite IH. destruct e; lia.
Qed.

Lemma travelled_app tr1 tr2 :
  travelled (tr1 ++ tr2)
  = (fst (travelled tr1) + fst (travelled tr2),
     snd (travelled tr1) + snd (travelled tr2)).
Proof.
  induction tr1 as [|e tr1 IH].
  - cbn [app]. change (travelled []) with (0, 0). cbn [fst snd].
    destruct (travelled tr2); reflexivity.
  - cbn [app travelled fold_right]. fold (travelled (tr1 ++ tr2)).
    fold (travelled tr1). rewrite IH.
    destruct e; cbn [fst snd]; try reflexivity. f_equal; lia.
Qed.

Lemma slept_sub_steps dx dy : slept (sub_steps dx dy) = 100.
Proof. reflexivity. Qed.

Lemma slept_keys l : slept (flat_map key_events l) = 50 * Z.of_nat (List.length l).
Proof.
  induction l as [|c l IH]; [reflexivity|].
  cbn [flat_map]. rewrite slept_app, IH.
  change (slept (key_events c)) with 50.
  cbn [List.length]. rewrite Nat2Z.inj_succ. lia.
Qed.

Lemma travelled_keys l : travelled (flat_map key_events l) = (0, 0).
Proof.
  induction l as [|c l IH]; [reflexivity|].
  cbn [flat_map]. rewrite travelled_app, IH. reflexivity.
Qed.

(** What one action does, case by case. *)
Lemma execute_action_cases a st st' tr :
  execute_action a st = Some (tt, st', tr) ->
  match type a with
  | MOVE =>
      exists tx ty,
        relativeToAbsolute (relativeX a) (relativeY a) st = Some ((tx, ty), st, []) /\
        st' = with_cursor st tx ty /\
        tr = sub_steps (tx - currentX st) (ty - currentY st)
             ++ [Cout (Moved (relativeX a) (relativeY a) tx ty)]
  | CLICK =>
      exists tx ty,
        relativeToAbsolute (relativeX a) (relativeY a) st = Some ((tx, ty), st, []) /\
        st' = with_cursor st tx ty /\
        tr = sub_steps (tx - currentX st) (ty - currentY st)
             ++ [Cout (Moved (relativeX a) (relativeY a) tx ty);
                 Sleep 100; HidClick true [1; 0; 0]; Sleep 50;
                 HidClick false [0; 0; 0]; Cout (Clicked tx ty)]
  | DRAG =>
      exists fx fy tx ty,
        relativeToAbsolute (relativeX a) (relativeY a) st = Some ((fx, fy), st, []) /\
        relativeToAbsolute (toRelativeX a) (toRelativeY a) st = Some ((tx, ty), st, []) /\
        st' = with_cursor st tx ty /\
        tr = sub_steps (fx - currentX st) (fy - currentY st)
             ++ [Cout (Moved (relativeX a) (relativeY a) fx fy);
                 Sleep 100; HidClick true [1; 0; 0]; Sleep 100]
             ++ sub_steps (tx - fx) (ty - fy)
             ++ [Cout (Moved (toRelativeX a) (toRelativeY a) tx ty);
                 Sleep 100; HidClick false [0; 0; 0];
                 Cout (Dragged (relativeX a) (relativeY a)
                         (toRelativeX a) (toRelativeY a))]
  | WAIT => st' = st /\ tr = [Cout (Waiting (waitMs a)); Sleep (waitMs a)]
  | TYPE =>
      st' = st /\
      tr = Cout (Typing (text a))
           :: flat_map key_events (list_ascii_of_string (text a))
  end.
Proof.
  destruct (type a) eqn:Ha.
  - unfold execute_action. rewrite Ha. intros H.
    apply moveToPosition_Some in H. destruct H as (tx & ty & Er & -> & ->).
    exists tx, ty. auto.
  - rewrite (execute_click_eq a st Ha).
    destruct (moveToPosition _ _ st) as [[[[] st1] tr1]|] eqn:E1; [|discriminate].
    apply moveToPosition_Some in E1. destruct E1 as (tx & ty & Er & -> & ->).
    intros H; inversion H; subst; clear H.
    exists tx, ty. split; [exact Er|]. split; [reflexivity|].
    first [reflexivity | rewrite <- app_assoc; reflexivity].
  - unfold execute_action. rewrite Ha, drag_eq.
    destruct (moveToPosition _ _ st) as [[[[] st1] tr1]|] eqn:E1; [|discriminate].
    destruct (moveToPosition _ _ st1) as [[[[] st2] tr2]|] eqn:E2; [|discriminate].
    apply moveToPosition_Some in E1. destruct E1 as (fx & fy & Er1 & -> & ->).
    apply moveToPosition_Some in E2. destruct E2 as (tx & ty & Er2 & -> & ->).
    intros H; inversion H; subst; clear H.
    exists fx, fy, tx, ty. split; [exact Er1|].
    rewrite relativeToAbsolute_eq in Er2 |- *.
    cbn [with_cursor currentX currentY screenWidth screenHeight] in *.
    destruct (float_to_int _); [|discriminate].
    destruct (float_to_int _); [|discriminate].
    inversion Er2; subst. split; [reflexivity|]. split; [reflexivity|].
    first [reflexivity | rewrite <- !app_assoc; reflexivity].
  - unfold execute_action. rewrite Ha. intros H. inversion H. auto.
  - unfold execute_action. rewrite Ha, typeText_eq.
    intros H; inversion H; subst. auto.
Qed.

(** ** Clicks *)

(** X1.  A completed Click action moves to the target of its coordinates
    and then, 100 ms later, presses and releases the button there: the
    HID events are the ten sub-steps, one button-down and one button-up;
    the button is held for 50 ms; the line written by [click] reports the
    target, which is the cursor after the action. *)
Theorem click_action_trace :
  forall a st st' tr,
    type a = CLICK ->
    execute_action a st = Some (tt, st', tr) ->
    exists targetX targetY,
      relativeToAbsolute (relativeX a) (relativeY a) st
        = Some ((targetX, targetY), st, []) /\
      (currentX st', currentY st') = (targetX, targetY) /\
      let dx := Z.quot (targetX - currentX st) 10 in
      let dy := Z.quot (targetY - currentY st) 10 in
      hid_events tr
      = repeat (HidMove dx dy [0; low_byte dx; low_byte dy]) 10
        ++ [HidClick true [1; 0; 0]; HidClick false [0; 0; 0]] /\
      exists before,
        tr = before ++ [Sleep 100; HidClick true [1; 0; 0]; Sleep 50;
                        HidClick false [0; 0; 0];
                        Cout (Clicked targetX targetY)] /\
        hid_events before = repeat (HidMove dx dy [0; low_byte dx; low_byte dy]) 10.
Proof.
  intros a st st' tr Ha H. apply execute_action_cases in H. rewrite Ha in H.
  destruct H as (tx & ty & Er & -> & ->).
  exists tx, ty. split; [exact Er|]. split; [reflexivity|]. cbv zeta.
  split.
  - rewrite hid_events_app, hid_events_sub_steps. reflexivity.
  - exists (sub_steps (tx - currentX st) (ty - currentY st)
            ++ [Cout (Moved (relativeX a) (relativeY a) tx ty)]).
    split; [rewrite <- app_assoc; reflexivity|].
    rewrite hid_events_app, hid_events_sub_steps. apply app_nil_r.
Qed.

Lemma click_action_trace_witness :
  exists targetX targetY,
    relativeToAbsolute (Float32.literal 85 100) (Float32.literal 2 100) initial
      = Some ((targetX, targetY), initial, []) /\
    (currentX (state_of initial
                 (execute_action
                    (mkAction CLICK (Float32.literal 85 100) (Float32.literal 2 100))
                    initial)),
     currentY (state_of initial
                 (execute_action
                    (mkAction CLICK (Float32.literal 85 100) (Float32.literal 2 100))
                    initial)))
    = (targetX, targetY).
Proof.
  assert (H : execute_action
                (mkAction CLICK (Float32.literal 85 100) (Float32.literal 2 100))
                initial
              = Some (tt,
                      state_of initial
                        (execute_action
                           (mkAction CLICK (Float32.literal 85 100)
                              (Float32.literal 2 100)) initial),
                      trace_of
                        (execute_action
                           (mkAction CLICK (Float32.literal 85 100)
                              (Float32.literal 2 100)) initial)))
    by (vm_compute; reflexivity).
  destruct (click_action_trace
              (mkAction CLICK (Float32.literal 85 100) (Float32.literal 2 100))
              _ _ _ eq_refl H) as (tx & ty & Er & Hc & _).
  exists tx, ty. split; [exact Er | exact Hc].
Defined.

(** ** What a replay leaves alone *)

Lemma execute_action_frame a st st' tr :
  execute_action a st = Some (tt, st', tr) ->
  screenWidth st' = screenWidth st /\ screenHeight st' = screenHeight st /\
  (is_positional a = false ->
   st' = st /\ travelled tr = (0, 0) /\ count_button true tr = 0%nat /\
   count_button false tr = 0%nat).
Proof.
  intros H. apply execute_action_cases in H. unfold is_positional.
  destruct (type a).
  - destruct H as (tx & ty & _ & -> & _).
    split; [reflexivity|]. split; [reflexivity|]. discriminate.
  - destruct H as (tx & ty & _ & -> & _).
    split; [reflexivity|]. split; [reflexivity|]. discriminate.
  - destruct H as (fx & fy & tx & ty & _ & _ & -> & _).
    split; [reflexivity|]. split; [reflexivity|]. discriminate.
  - destruct H as [-> ->]. repeat split.
  - destruct H as [-> ->].
    split; [reflexivity|]. split; [reflexivity|]. intros _.
    split; [reflexivity|]. split; [|split].
    + cbn [travelled fold_right]. apply travelled_keys.
    + unfold count_button. cbn [filter is_button].
      induction (list_ascii_of_string (text a)); [reflexivity | assumption].
    + unfold count_button. cbn [filter is_button].
      induction (list_ascii_of_string (text a)); [reflexivity | assumption].
Qed.

Lemma count_button_app p tr1 tr2 :
  count_button p (tr1 ++ tr2) = (count_button p tr1 + count_button p tr2)%nat.
Proof. unfold count_button. now rewrite filter_app, length_app. Qed.

Lemma Replay_frame st actions st' body :
  Replay st actions st' body ->
  screenWidth st' = screenWidth st /\ screenHeight st' = screenHeight st /\
  (Forall (fun a => is_positional a = false) actions ->
   st' = st /\ travelled body = (0, 0) /\ count_button true body = 0%nat /\
   count_button false body = 0%nat).
Proof.
  induction 1 as [|st a st1 tr1 acts st2 tr2 Hexec _ IH].
  - repeat split.
  - destruct (execute_action_frame _ _ _ _ Hexec) as (Hw & Hh & Hnp).
    destruct IH as (Hw' & Hh' & IH).
    split; [congruence|]. split; [congruence|].
    intros Hall. inversion Hall as [|? ? Ha Hrest]; subst.
    destruct (Hnp Ha) as (-> & Ht & Hd & Hu).
    destruct (IH Hrest) as (-> & Ht' & Hd' & Hu').
    split; [reflexivity|].
    change (tr1 ++ Sleep 100 :: tr2) with (tr1 ++ [Sleep 100] ++ tr2).
    rewrite !travelled_app, !count_button_app, Ht, Ht', Hd, Hd', Hu, Hu'.
    repeat split.
Qed.

Lemma keys_not_mouse l :
  Forall (fun e => is_mouse e = false) (flat_map key_events l).
Proof.
  induction l as [|c l IH]; [constructor|].
  cbn [flat_map key_events app]. repeat (constructor; [reflexivity|]). exact IH.
Qed.

Lemma execute_action_quiet a st st' tr :
  execute_action a st = Some (tt, st', tr) ->
  is_positional a = false ->
  Forall (fun e => is_mouse e = false) tr /\ hid_events tr = typed_keys a.
Proof.
  intros H Hp. apply execute_action_cases in H.
  unfold is_positional in Hp. unfold typed_keys.
  destruct (type a); try discriminate.
  - destruct H as [_ ->]. split; [|reflexivity].
    repeat (constructor; [reflexivity|]). constructor.
  - destruct H as [_ ->]. split.
    + constructor; [reflexivity | apply keys_not_mouse].
    + change (hid_events (Cout (Typing (text a))
                          :: flat_map key_events (list_ascii_of_string (text a))))
        with (hid_events (flat_map key_events (list_ascii_of_string (text a)))).
      apply hid_events_keys.
Qed.

Lemma Replay_quiet st actions st' body :
  Replay st actions st' body ->
  Forall (fun a => is_positional a = false) actions ->
  Forall (fun e => is_mouse e = false) body /\
  hid_events body = flat_map typed_keys actions.
Proof.
  induction 1 as [|st a st1 tr1 acts st2 tr2 Hexec _ IH]; intros Hall.
  - split; [constructor | reflexivity].
  - inversion Hall as [|? ? Ha Hrest]; subst.
    destruct (execute_action_quiet _ _ _ _ Hexec Ha) as [F1 E1].
    destruct (IH Hrest) as [F2 E2].
    split.
    + apply Forall_app. split; [exact F1|]. constructor; [reflexivity | exact F2].
    + rewrite hid_events_app.
      change (hid_events (Sleep 100 :: tr2)) with (hid_events tr2).
      cbn [flat_map]. rewrite E1, E2. reflexivity.
Qed.

(** X2.  No replay changes the screen profile.  A recording made of
    Wait and Type actions only leaves the whole controller as it was and
    sends no mouse event: no event of the trace is a move or a button
    change, and the HID events are the key reports of the Type actions,
    in order; so the deltas add up to nothing and the button is neither
    pressed nor released. *)
Theorem replay_keeps_profile :
  forall actions st st' tr,
    executeRecording actions st = Some (tt, st', tr) ->
    screenWidth st' = screenWidth st /\ screenHeight st' = screenHeight st /\
    (Forall (fun a => is_positional a = false) actions ->
     st' = st /\
     Forall (fun e => is_mouse e = false) tr /\
     hid_events tr = flat_map typed_keys actions /\
     travelled tr = (0, 0) /\
     count_button true tr = 0%nat /\ count_button false tr = 0%nat).
Proof.
  intros actions st st' tr H.
  apply executeRecording_Replay in H. destruct H as (body & HR & ->).
  destruct (Replay_frame _ _ _ _ HR) as (Hw & Hh & Hnp).
  split; [exact Hw|]. split; [exact Hh|]. intros Hall.
  destruct (Hnp Hall) as (-> & Ht & Hd & Hu).
  destruct (Replay_quiet _ _ _ _ HR Hall) as [Fq Eq].
  split; [reflexivity|].
  split.
  { constructor; [reflexivity|]. apply Forall_app. split; [exact Fq|].
    constructor; [reflexivity | constructor]. }
  split.
  { change (Cout Executing :: body ++ [Cout Complete])
      with ([Cout Executing] ++ body ++ [Cout Complete]).
    rewrite !hid_events_app, Eq. cbn [hid_events filter is_hid app].
    apply app_nil_r. }
  change (Cout Executing :: body ++ [Cout Complete])
    with ([Cout Executing] ++ body ++ [Cout Complete]).
  rewrite !travelled_app, !count_button_app, Ht, Hd, Hu. repeat split.
Qed.

Lemma replay_keeps_profile_witness :
  exists tr,
    executeRecording [wait_action 500; type_action "Hi"] initial
    = Some (tt, initial, tr) /\
    Forall (fun e => is_mouse e = false) tr /\
    hid_events tr = [key_event "H"; key_event "i"].
Proof.
  destruct (executeRecording [wait_action 500; type_action "Hi"] initial)
    as [[[[] st'] tr]|] eqn:E; [|vm_compute in E; discriminate].
  destruct (replay_keeps_profile _ _ _ _ E) as (_ & _ & H).
  destruct H as (-> & Hq & Hk & _).
  - constructor; [reflexivity|]. constructor; [reflexivity|]. constructor.
  - exists tr. split; [reflexivity|]. split; [exact Hq | exact Hk].
Defined.

(** ** Time spent sleeping *)

Lemma execute_action_slept a st st' tr :
  execute_action a st = Some (tt, st', tr) -> slept tr = duration a.
Proof.
  intros H. apply execute_action_cases in H. unfold duration.
  destruct (type a).
  - destruct H as (tx & ty & _ & _ & ->).
    rewrite slept_app, slept_sub_steps. reflexivity.
  - destruct H as (tx & ty & _ & _ & ->).
    rewrite slept_app, slept_sub_steps. reflexivity.
  - destruct H as (fx & fy & tx & ty & _ & _ & _ & ->).
    rewrite !slept_app, !slept_sub_steps. reflexivity.
  - destruct H as [_ ->]. cbn [slept fold_right]. lia.
  - destruct H as [_ ->]. cbn [slept fold_right]. apply slept_keys.
Qed.

(** X3.  A completed replay sleeps, in all, the sum over its actions of
    the time the code of the action sleeps (100 ms for a Move, 250 ms
    for a Click, 500 ms for a Drag, the wait of a Wait when it is
    positive, 50 ms per character of a Type) plus 100 ms after each
    action, whatever the coordinates and the screen. *)
Theorem replay_sleeps_sum_of_durations :
  forall actions st st' tr,
    executeRecording actions st = Some (tt, st', tr) ->
    slept tr = fold_right (fun a acc => duration a + 100 + acc) 0 actions.
Proof.
  intros actions st st' tr H.
  apply executeRecording_Replay in H. destruct H as (body & HR & ->).
  change (Cout Executing :: body ++ [Cout Complete])
    with ([Cout Executing] ++ body ++ [Cout Complete]).
  rewrite !slept_app. change (slept [Cout Executing]) with 0.
  change (slept [Cout Complete]) with 0.
  induction HR as [|st a st1 tr1 acts st2 tr2 Hexec _ IH]; [reflexivity|].
  change (tr1 ++ Sleep 100 :: tr2) with (tr1 ++ [Sleep 100] ++ tr2).
  rewrite !slept_app, (execute_action_slept _ _ _ _ Hexec).
  change (slept [Sleep 100]) with 100. cbn [fold_right]. lia.
Qed.

Lemma replay_sleeps_witness :
  exists st' tr,
    executeRecording getHomeButtonRecording initial = Some (tt, st', tr) /\
    slept tr = 2250.
Proof.
  destruct (executeRecording getHomeButtonRecording initial)
    as [[[[] st'] tr]|] eqn:E; [|vm_compute in E; discriminate].
  exists st', tr. split; [reflexivity|].
  rewrite (replay_sleeps_sum_of_durations _ _ _ _ E). reflexivity.
Defined.

(** ** Deltas against the target *)

Lemma quot10_short d :
  (0 <= d -> 0 <= 10 * Z.quot d 10 <= d /\ d - 10 * Z.quot d 10 <= 9) /\
  (d <= 0 -> d <= 10 * Z.quot d 10 <= 0 /\ 10 * Z.quot d 10 - d <= 9) /\
  (10 * Z.quot d 10 = d <-> Z.rem d 10 = 0).
Proof.
  pose proof (Z.quot_rem' d 10) as E.
  split; [|split].
  - intros Hd. pose proof (Z.rem_bound_pos d 10 Hd ltac:(lia)). lia.
  - intros Hd. pose proof (Z.rem_nonpos d 10 ltac:(lia) Hd).
    pose proof (Z.rem_bound_abs d 10 ltac:(lia)). lia.
  - lia.
Qed.

(** X4.  The ten deltas of a completed move never pass the target: on
    each axis their sum lies between the old cursor and the new one, at
    most 9 pixels short of it, and reaches it exactly when the distance
    is a multiple of 10. *)
Theorem move_stops_short_of_target :
  forall relX relY st st' tr,
    moveToPosition relX relY st = Some (tt, st', tr) ->
    let dx := currentX st' - currentX st in
    let dy := currentY st' - currentY st in
    let sx := fst (travelled tr) in
    let sy := snd (travelled tr) in
    (0 <= dx -> 0 <= sx <= dx /\ dx - sx <= 9) /\
    (dx <= 0 -> dx <= sx <= 0 /\ sx - dx <= 9) /\
    (0 <= dy -> 0 <= sy <= dy /\ dy - sy <= 9) /\
    (dy <= 0 -> dy <= sy <= 0 /\ sy - dy <= 9) /\
    (sx = dx <-> Z.rem dx 10 = 0) /\ (sy = dy <-> Z.rem dy 10 = 0).
Proof.
  intros relX relY st st' tr H.
  apply moveToPosition_Some in H. destruct H as (tx & ty & _ & -> & ->).
  cbv zeta. rewrite travelled_sub_steps.
  cbn [with_cursor currentX currentY fst snd].
  destruct (quot10_short (tx - currentX st)) as (A1 & A2 & A3).
  destruct (quot10_short (ty - currentY st)) as (B1 & B2 & B3).
  repeat split; try tauto; try (apply A1; assumption); try (apply A2; assumption);
    try (apply B1; assumption); try (apply B2; assumption).
Qed.

Lemma move_stops_short_witness :
  moveToPosition (Float32.literal 5 10) (Float32.literal 5 100) initial
  = Some (tt, with_cursor initial 195 42,
          sub_steps 195 42
          ++ [Cout (Moved (Float32.literal 5 10) (Float32.literal 5 100) 195 42)])
  /\ travelled (sub_steps 195 42
                ++ [Cout (Moved (Float32.literal 5 10) (Float32.literal 5 100)
                             195 42)]) = (190, 40)
  /\ ~ (190 = 195 - 0).
Proof.
  assert (E : moveToPosition (Float32.literal 5 10) (Float32.literal 5 100) initial
              = Some (tt, with_cursor initial 195 42,
                      sub_steps 195 42
                      ++ [Cout (Moved (Float32.literal 5 10) (Float32.literal 5 100)
                                  195 42)]))
    by (vm_compute; reflexivity).
  split; [exact E|]. split; [reflexivity|].
  destruct (move_stops_short_of_target _ _ _ _ _ E) as (_ & _ & _ & _ & Hx & _).
  intros H. apply Hx in H. vm_compute in H. discriminate.
Defined.

Lemma low_byte_mod z : low_byte z = z mod 256.
Proof.
  unfold low_byte. change 255 with (Z.ones 8). rewrite Z.land_ones by lia.
  reflexivity.
Qed.

Lemma as_int8_range b : 0 <= b <= 255 -> -128 <= as_int8 b <= 127.
Proof.
  intros Hb. unfold as_int8.
  destruct (b <? 128) eqn:E; [apply Z.ltb_lt in E | apply Z.ltb_ge in E]; lia.
Qed.

Lemma as_int8_low_byte_iff q : as_int8 (low_byte q) = q <-> -128 <= q <= 127.
Proof.
  split; [|apply as_int8_low_byte].
  intros H. rewrite <- H. apply as_int8_range. rewrite low_byte_mod.
  pose proof (Z.mod_pos_bound q 256 ltac:(lia)). lia.
Qed.

Lemma quot10_int8 d : -128 <= Z.quot d 10 <= 127 <-> -1289 <= d <= 1279.
Proof.
  pose proof (Z.quot_rem' d 10) as E.
  pose proof (Z.rem_bound_abs d 10 ltac:(lia)) as B.
  destruct (Z_lt_ge_dec d 0) as [Hn|Hp].
  - pose proof (Z.rem_nonpos d 10 ltac:(lia) ltac:(lia)). lia.
  - pose proof (Z.rem_nonneg d 10 ltac:(lia) ltac:(lia)). lia.
Qed.

Lemma In_sub_steps e dx dy :
  In e (sub_steps dx dy) <->
  e = HidMove (Z.quot dx 10) (Z.quot dy 10)
        (move_report (Z.quot dx 10) (Z.quot dy 10)) \/ e = Sleep 10.
Proof.
  unfold sub_steps. cbn [repeat List.concat app In]. split.
  - intros H. repeat (destruct H as [H|H]; [auto|]). destruct H.
  - intros [H|H]; subst; auto.
Qed.

(** ** Report bytes *)

(** X5.  [sendMouseMove] always returns, leaves the controller alone and
    reports the button byte 0 with the two deltas reduced modulo 256.  A
    delta read back from its byte as [int8_t] is the delta sent exactly
    when the delta lies in [[-128, 127]]. *)
Theorem sendMouseMove_report_bytes :
  forall dx dy st,
  exists bx by_,
    sendMouseMove dx dy st = Some (tt, st, [HidMove dx dy [0; bx; by_]]) /\
    bx = dx mod 256 /\ by_ = dy mod 256 /\
    (as_int8 bx = dx <-> -128 <= dx <= 127) /\
    (as_int8 by_ = dy <-> -128 <= dy <= 127).
Proof.
  intros dx dy st. exists (low_byte dx), (low_byte dy).
  split; [reflexivity|]. split; [apply low_byte_mod|].
  split; [apply low_byte_mod|]. split; apply as_int8_low_byte_iff.
Qed.

(** X6.  For a completed move, the deltas the device reads from the
    report bytes are the deltas [moveToPosition] computed exactly when
    the cursor travels between -1289 and 1279 pixels on each axis: from
    1280 pixels on, [dx / 10] no longer fits the signed byte. *)
Theorem move_reports_read_back_iff :
  forall relX relY st st' tr,
    moveToPosition relX relY st = Some (tt, st', tr) ->
    (forall dx dy report,
        In (HidMove dx dy report) tr ->
        report_dx report = dx /\ report_dy report = dy) <->
    (-1289 <= currentX st' - currentX st <= 1279 /\
     -1289 <= currentY st' - currentY st <= 1279).
Proof.
  intros relX relY st st' tr H.
  apply moveToPosition_Some in H. destruct H as (tx & ty & _ & -> & ->).
  cbn [with_cursor currentX currentY].
  rewrite <- !quot10_int8, <- !as_int8_low_byte_iff. split.
  - intros Hall.
    apply (Hall _ _ (move_report (Z.quot (tx - currentX st) 10)
                                 (Z.quot (ty - currentY st) 10))).
    apply in_or_app. left. apply In_sub_steps. left. reflexivity.
  - intros [Hx Hy] dx dy report Hin.
    apply in_app_or in Hin. destruct Hin as [Hin|[Hin|[]]]; [|discriminate].
    apply In_sub_steps in Hin. destruct Hin as [Hin|Hin]; [|discriminate].
    inversion Hin; subst. split; assumption.
Qed.

Lemma move_reports_read_back_iff_witness :
  moveToPosition (Float32.of_int 1) (Float32.literal 5 10) wide_screen
  = Some (tt, with_cursor wide_screen 1366 512,
          sub_steps 1366 512
          ++ [Cout (Moved (Float32.of_int 1) (Float32.literal 5 10) 1366 512)])
  /\ In (HidMove 136 51 [0; 136; 51]) (sub_steps 1366 512)
  /\ report_dx [0; 136; 51] = -120
  /\ ((forall dx dy report,
          In (HidMove dx dy report)
             (sub_steps 1366 512
              ++ [Cout (Moved (Float32.of_int 1) (Float32.literal 5 10) 1366 512)]) ->
          report_dx report = dx /\ report_dy report = dy) <->
      (-1289 <= 1366 - 0 <= 1279 /\ -1289 <= 512 - 0 <= 1279)).
Proof.
  assert (E : moveToPosition (Float32.of_int 1) (Float32.literal 5 10) wide_screen
              = Some (tt, with_cursor wide_screen 1366 512,
                      sub_steps 1366 512
                      ++ [Cout (Moved (Float32.of_int 1) (Float32.literal 5 10)
                                  1366 512)]))
    by (vm_compute; reflexivity).
  split; [exact E|]. split; [left; reflexivity|]. split; [reflexivity|].
  exact (move_reports_read_back_iff _ _ _ _ _ E).
Defined.

(** ** Moving twice *)

(** X7.  A move to the coordinates of a move that has just completed
    always completes, leaves the controller as it is and emits ten zero
    moves: the target depends on the profile only, not on the cursor. *)
Theorem moveToPosition_twice :
  forall relX relY st st' tr,
    moveToPosition relX relY st = Some (tt, st', tr) ->
    moveToPosition relX relY st'
    = Some (tt, st',
            sub_steps 0 0 ++ [Cout (Moved relX relY (currentX st') (currentY st'))])
    /\ hid_events (sub_steps 0 0) = repeat (HidMove 0 0 [0; 0; 0]) 10.
Proof.
  intros relX relY st st' tr H.
  apply moveToPosition_Some in H. destruct H as (tx & ty & Er & -> & _).
  split; [|reflexivity].
  rewrite moveToPosition_eq.
  rewrite relativeToAbsolute_eq in Er |- *.
  cbn [with_cursor currentX currentY screenWidth screenHeight] in *.
  destruct (float_to_int _) as [ax|]; [|discriminate].
  destruct (float_to_int _) as [ay|]; [|discriminate].
  inversion Er; subst.
  rewrite !int_sub_in_range by (rewrite Z.sub_diag; unfold INT_MIN, INT_MAX; lia).
  rewrite !Z.sub_diag. reflexivity.
Qed.

Lemma moveToPosition_twice_witness :
  moveToPosition (Float32.literal 5 10) (Float32.literal 5 100)
    (with_cursor initial 195 42)
  = Some (tt, with_cursor initial 195 42,
          sub_steps 0 0
          ++ [Cout (Moved (Float32.literal 5 10) (Float32.literal 5 100) 195 42)]).
Proof.
  assert (E : moveToPosition (Float32.literal 5 10) (Float32.literal 5 100) initial
              = Some (tt, with_cursor initial 195 42,
                      sub_steps 195 42
                      ++ [Cout (Moved (Float32.literal 5 10) (Float32.literal 5 100)
                                  195 42)]))
    by (vm_compute; reflexivity).
  exact (proj1 (moveToPosition_twice _ _ _ _ _ E)).
Defined.

(** ** Recordings one after the other *)

(** X8.  Replaying the concatenation of two recordings completes exactly
    when replaying the first completes and replaying the second, from the
    controller the first leaves, completes; the trace is then the two
    bodies one after the other between a single pair of banner lines,
    and the final controller is that of the second replay. *)
Theorem executeRecording_app :
  forall acts1 acts2 st st2 tr,
    executeRecording (acts1 ++ acts2) st = Some (tt, st2, tr) <->
    exists st1 body1 body2,
      executeRecording acts1 st
      = Some (tt, st1, Cout Executing :: body1 ++ [Cout Complete]) /\
      executeRecording acts2 st1
      = Some (tt, st2, Cout Executing :: body2 ++ [Cout Complete]) /\
      tr = Cout Executing :: body1 ++ body2 ++ [Cout Complete].
Proof.
  intros acts1 acts2 st st2 tr. split.
  - intros H. apply executeRecording_Replay in H. destruct H as (body & HR & ->).
    apply Replay_app in HR. destruct HR as (st1 & b1 & b2 & H1 & H2 & ->).
    exists st1, b1, b2. split; [|split].
    + apply executeRecording_Replay. eauto.
    + apply executeRecording_Replay. eauto.
    + rewrite <- app_assoc. reflexivity.
  - intros (st1 & b1 & b2 & H1 & H2 & ->).
    apply executeRecording_Replay in H1. destruct H1 as (b1' & H1 & E1).
    apply executeRecording_Replay in H2. destruct H2 as (b2' & H2 & E2).
    inversion E1 as [E1']. apply app_inv_tail in E1'. subst b1'.
    inversion E2 as [E2']. apply app_inv_tail in E2'. subst b2'.
    apply executeRecording_Replay. exists (b1 ++ b2). split.
    + apply Replay_app. eauto 6.
    + rewrite <- app_assoc. reflexivity.
Qed.

(** ** Every action, in full and in order *)

Lemma execute_action_Performs a st st' tr :
  execute_action a st = Some (tt, st', tr) ->
  Performs st a st' (hid_events tr).
Proof.
  intros H. apply execute_action_cases in H.
  destruct (type a) eqn:Ha.
  - destruct H as (x & y & Er & -> & ->).
    rewrite hid_events_app, hid_events_sub_steps.
    cbn [hid_events filter is_hid]. rewrite app_nil_r.
    apply Performs_move; assumption.
  - destruct H as (x & y & Er & -> & ->).
    rewrite hid_events_app, hid_events_sub_steps.
    apply Performs_click; assumption.
  - destruct H as (fx & fy & x & y & Er1 & Er2 & -> & ->).
    rewrite !hid_events_app, !hid_events_sub_steps.
    apply Performs_drag; assumption.
  - destruct H as [-> ->]. apply Performs_wait. exact Ha.
  - destruct H as [-> ->].
    change (hid_events (Cout (Typing (text a))
                        :: flat_map key_events (list_ascii_of_string (text a))))
      with (hid_events (flat_map key_events (list_ascii_of_string (text a)))).
    rewrite hid_events_keys. apply Performs_type. exact Ha.
Qed.

Lemma Replay_PerformsAll st actions st' body :
  Replay st actions st' body -> PerformsAll st actions st' (hid_events body).
Proof.
  induction 1 as [|st a st1 tr1 acts st2 tr2 Hexec _ IH]; [constructor|].
  rewrite hid_events_app.
  change (hid_events (Sleep 100 :: tr2)) with (hid_events tr2).
  econstructor; [apply execute_action_Performs; exact Hexec | exact IH].
Qed.

(** X20.  [executeRecording] has no early exit.  The HID events of a
    completed replay are those of its actions one after the other, each
    in full and each from the controller the action before leaves: the
    ten sub-steps of a Move; the ten sub-steps, a button-down and a
    button-up of a Click; the ten sub-steps to the origin, a button-down,
    the ten sub-steps to the destination and a button-up of a Drag;
    nothing for a Wait; one key report per character of a Type.  The
    trace starts with the first banner line and ends with the completion
    line. *)
Theorem executeRecording_performs_every_action :
  forall actions st st' tr,
    executeRecording actions st = Some (tt, st', tr) ->
    PerformsAll st actions st' (hid_events tr) /\
    List.length (hid_events tr) = list_sum (map hid_count actions) /\
    hd (Sleep 0) tr = Cout Executing /\
    last tr (Sleep 0) = Cout Complete.
Proof.
  intros actions st st' tr H.
  apply executeRecording_Replay in H. destruct H as (body & HR & ->).
  assert (E : hid_events (Cout Executing :: body ++ [Cout Complete])
              = hid_events body).
  { change (Cout Executing :: body ++ [Cout Complete])
      with ([Cout Executing] ++ body ++ [Cout Complete]).
    rewrite !hid_events_app. cbn [hid_events filter is_hid app].
    apply app_nil_r. }
  rewrite E. split; [apply Replay_PerformsAll; exact HR|].
  split; [apply (Replay_hid_count _ _ _ _ HR)|].
  split; [reflexivity|].
  change (Cout Executing :: body ++ [Cout Complete])
    with ((Cout Executing :: body) ++ [Cout Complete]).
  apply last_last.
Qed.

Lemma executeRecording_performs_every_action_witness :
  exists st' tr,
    executeRecording [quarter_drag; type_action "Hi"] initial = Some (tt, st', tr) /\
    PerformsAll initial [quarter_drag; type_action "Hi"] st' (hid_events tr) /\
    hid_events tr
    = repeat (HidMove 9 21 [0; 9; 21]) 10 ++ [HidClick true [1; 0; 0]]
      ++ repeat (HidMove 19 42 [0; 19; 42]) 10 ++ [HidClick false [0; 0; 0]]
      ++ [key_event "H"; key_event "i"].
Proof.
  destruct (executeRecording [quarter_drag; type_action "Hi"] initial)
    as [[[[] st'] tr]|] eqn:E; [|vm_compute in E; discriminate].
  exists st', tr. split; [reflexivity|].
  split; [exact (proj1 (executeRecording_performs_every_action _ _ _ _ E))|].
  vm_compute in E. inversion E. reflexivity.
Defined.

(** ** Drift between the cursor and the deltas sent *)

Lemma rem10_abs d : -9 <= Z.rem d 10 <= 9.
Proof. pose proof (Z.rem_bound_abs d 10 ltac:(lia)). lia. Qed.

Lemma travelled_steps dx dy :
  travelled (sub_steps dx dy) = (10 * Z.quot dx 10, 10 * Z.quot dy 10).
Proof.
  unfold sub_steps. generalize (Z.quot dx 10) (Z.quot dy 10). intros q r.
  unfold travelled. cbn [fold_right app List.concat repeat fst snd].
  f_equal; lia.
Qed.

Lemma quot10_lag d : -9 <= d - 10 * Z.quot d 10 <= 9.
Proof.
  pose proof (Z.quot_rem' d 10). pose proof (rem10_abs d). lia.
Qed.

Lemma execute_action_lag a st st' tr :
  execute_action a st = Some (tt, st', tr) ->
  - (9 * legs a) <= currentX st' - currentX st - fst (travelled tr) <= 9 * legs a /\
  - (9 * legs a) <= currentY st' - currentY st - snd (travelled tr) <= 9 * legs a.
Proof.
  intros H. apply execute_action_cases in H. unfold legs.
  destruct (type a).
  - destruct H as (tx & ty & _ & -> & ->).
    rewrite travelled_app, travelled_steps.
    cbn [with_cursor currentX currentY fst snd travelled fold_right].
    pose proof (quot10_lag (tx - currentX st)).
    pose proof (quot10_lag (ty - currentY st)). lia.
  - destruct H as (tx & ty & _ & -> & ->).
    rewrite travelled_app, travelled_steps.
    cbn [with_cursor currentX currentY fst snd travelled fold_right].
    pose proof (quot10_lag (tx - currentX st)).
    pose proof (quot10_lag (ty - currentY st)). lia.
  - destruct H as (fx & fy & tx & ty & _ & _ & -> & ->).
    rewrite !travelled_app, !travelled_steps.
    cbn [with_cursor currentX currentY fst snd travelled fold_right].
    pose proof (quot10_lag (fx - currentX st)).
    pose proof (quot10_lag (fy - currentY st)).
    pose proof (quot10_lag (tx - fx)).
    pose proof (quot10_lag (ty - fy)). lia.
  - destruct H as [-> ->]. cbn. lia.
  - destruct H as [-> ->]. cbn [travelled fold_right].
    fold (travelled (flat_map key_events (list_ascii_of_string (text a)))).
    rewrite travelled_keys. cbn. lia.
Qed.

Lemma Replay_lag st actions st' body :
  Replay st actions st' body ->
  - (9 * total_legs actions)
    <= currentX st' - currentX st - fst (travelled body) <= 9 * total_legs actions /\
  - (9 * total_legs actions)
    <= currentY st' - currentY st - snd (travelled body) <= 9 * total_legs actions.
Proof.
  induction 1 as [st|st a st1 tr1 acts st2 tr2 Hexec _ IH].
  - cbn. lia.
  - apply execute_action_lag in Hexec.
    change (tr1 ++ Sleep 100 :: tr2) with (tr1 ++ [Sleep 100] ++ tr2).
    rewrite !travelled_app. cbn [fst snd total_legs fold_right].
    fold (total_legs acts).
    change (travelled [Sleep 100]) with (0, 0). cbn [fst snd]. lia.
Qed.

(** X9.  After a completed replay the cursor kept by the controller and
    the position the emitted deltas add up to differ, on each axis, by at
    most 9 pixels per call of [moveToPosition] the recording makes (one
    per Move and per Click, two per Drag): the remainders of [dx / 10]
    are never sent, and the next move starts from the cursor, not from
    where the deltas end. *)
Theorem replay_device_lag :
  forall actions st st' tr,
    executeRecording actions st = Some (tt, st', tr) ->
    Z.abs (currentX st' - (currentX st + fst (travelled tr))) <= 9 * total_legs actions /\
    Z.abs (currentY st' - (currentY st + snd (travelled tr))) <= 9 * total_legs actions.
Proof.
  intros actions st st' tr H.
  apply executeRecording_Replay in H. destruct H as (body & HR & ->).
  apply Replay_lag in HR.
  change (Cout Executing :: body ++ [Cout Complete])
    with ([Cout Executing] ++ body ++ [Cout Complete]).
  rewrite !travelled_app.
  change (travelled [Cout Executing]) with (0, 0).
  change (travelled [Cout Complete]) with (0, 0). cbn [fst snd]. lia.
Qed.

Lemma replay_device_lag_witness :
  exists st' tr,
    executeRecording getHomeButtonRecording initial = Some (tt, st', tr) /\
    (currentX st', currentY st') = (331, 16) /\
    travelled tr = (320, 20) /\
    Z.abs (currentX st' - (currentX initial + fst (travelled tr))) <= 18.
Proof.
  destruct (executeRecording getHomeButtonRecording initial)
    as [[[[] st'] tr]|] eqn:E; [|vm_compute in E; discriminate].
  exists st', tr. split; [reflexivity|].
  pose proof (replay_device_lag _ _ _ _ E) as [Hx _].
  vm_compute in E. inversion E; subst.
  split; [reflexivity|]. split; [reflexivity|]. exact Hx.
Defined.

(** ** Any screen profile *)

Lemma sub_steps_within w h dx dy :
  0 <= w -> 0 <= h -> - w <= dx <= w -> - h <= dy <= h ->
  Forall (step_within w h) (sub_steps dx dy).
Proof.
  intros Hw Hh Hx Hy.
  pose proof (quot10_bounds dx w Hw Hx) as Bx.
  pose proof (quot10_bounds dy h Hh Hy) as By.
  apply Forall_forall. intros e He. apply In_sub_steps in He.
  destruct He as [->| ->]; [|exact I].
  cbn. repeat split; try lia.
Qed.

Lemma move_within relX relY st :
  on_screen st -> Float32.in_unit relX -> Float32.in_unit relY ->
  exists st' tr,
    moveToPosition relX relY st = Some (tt, st', tr) /\
    on_screen st' /\
    screenWidth st' = screenWidth st /\ screenHeight st' = screenHeight st /\
    Forall (step_within (screenWidth st) (screenHeight st)) tr.
Proof.
  intros Hs Hx Hy.
  destruct (moveToPosition_defined relX relY st Hs Hx Hy)
    as (tx & ty & _ & Bx & By & H).
  eexists _, _. split; [exact H|].
  split; [apply on_screen_with_cursor; assumption|].
  split; [reflexivity|]. split; [reflexivity|].
  destruct Hs as (Hw & Hh & Hcx & Hcy).
  apply Forall_app. split; [apply sub_steps_within; lia|].
  constructor; [exact I | constructor].
Qed.

Lemma execute_within a st :
  on_screen st -> coords_in_unit a ->
  exists st' tr,
    execute_action a st = Some (tt, st', tr) /\
    on_screen st' /\
    screenWidth st' = screenWidth st /\ screenHeight st' = screenHeight st /\
    Forall (step_within (screenWidth st) (screenHeight st)) tr.
Proof.
  intros Hd Hc. unfold coords_in_unit in Hc.
  destruct (type a) eqn:Ha.
  - destruct Hc as [Hx Hy]. unfold execute_action. rewrite Ha.
    apply move_within; assumption.
  - destruct Hc as [Hx Hy]. rewrite (execute_click_eq a st Ha).
    destruct (move_within _ _ st Hd Hx Hy) as (st1 & tr1 & -> & Hd1 & Hw & Hh & F1).
    eexists _, _. split; [reflexivity|]. split; [exact Hd1|].
    split; [exact Hw|]. split; [exact Hh|].
    apply Forall_app. split; [exact F1|]. repeat (constructor; [exact I|]).
    constructor.
  - destruct Hc as (Hx & Hy & Htx & Hty). unfold execute_action.
    rewrite Ha, drag_eq.
    destruct (move_within _ _ st Hd Hx Hy) as (st1 & tr1 & -> & Hd1 & Hw1 & Hh1 & F1).
    destruct (move_within _ _ st1 Hd1 Htx Hty) as (st2 & tr2 & -> & Hd2 & Hw2 & Hh2 & F2).
    rewrite Hw1, Hh1 in *.
    eexists _, _. split; [reflexivity|]. split; [exact Hd2|].
    split; [exact Hw2|]. split; [exact Hh2|].
    apply Forall_app. split; [exact F1|].
    repeat (constructor; [exact I|]).
    apply Forall_app. split; [exact F2|]. repeat (constructor; [exact I|]).
    constructor.
  - unfold execute_action. rewrite Ha.
    eexists _, _. split; [reflexivity|]. split; [exact Hd|].
    split; [reflexivity|]. split; [reflexivity|].
    repeat (constructor; [exact I|]). constructor.
  - unfold execute_action. rewrite Ha, typeText_eq.
    eexists _, _. split; [reflexivity|]. split; [exact Hd|].
    split; [reflexivity|]. split; [reflexivity|].
    constructor; [exact I|].
    induction (list_ascii_of_string (text a)) as [|c l IH]; [constructor|].
    cbn. constructor; [exact I|]. constructor; [exact I | exact IH].
Qed.

Lemma replay_within actions :
  forall st,
    on_screen st -> Forall coords_in_unit actions ->
    exists st' body,
      Replay st actions st' body /\ on_screen st' /\
      Forall (step_within (screenWidth st) (screenHeight st)) body.
Proof.
  induction actions as [|a actions IH]; intros st Hd Hc.
  - exists st, []. repeat split; try constructor; apply Hd.
  - inversion Hc as [|? ? Ha Hrest]; subst.
    destruct (execute_within a st Hd Ha) as (st1 & tr1 & He & Hd1 & Hw & Hh & F1).
    destruct (IH st1 Hd1 Hrest) as (st2 & tr2 & HR & Hd2 & F2).
    rewrite Hw, Hh in F2.
    exists st2, (tr1 ++ Sleep 100 :: tr2).
    split; [econstructor; eassumption|]. split; [exact Hd2|].
    apply Forall_app. split; [exact F1|]. constructor; [exact I | exact F2].
Qed.

(** X10.  On any profile that converts exactly to [float], from a
    cursor on the screen, replaying a recording whose coordinates lie in
    [[0, 1]] completes with the cursor on the screen; every delta is at
    most a tenth of the screen in size; on profiles up to 1279 by 1279
    the device reads every delta back from its byte. *)
Theorem replay_stays_on_screen :
  forall actions st,
    on_screen st -> Forall coords_in_unit actions ->
    exists st' tr,
      executeRecording actions st = Some (tt, st', tr) /\
      on_screen st' /\
      (forall dx dy report,
          In (HidMove dx dy report) tr ->
          Z.abs dx <= screenWidth st / 10 /\ Z.abs dy <= screenHeight st / 10) /\
      (screenWidth st <= 1279 -> screenHeight st <= 1279 ->
       forall dx dy report,
         In (HidMove dx dy report) tr ->
         report_dx report = dx /\ report_dy report = dy).
Proof.
  intros actions st Hs Hc.
  destruct (replay_within actions st Hs Hc) as (st' & body & HR & Hs' & F).
  exists st', (Cout Executing :: body ++ [Cout Complete]).
  split; [apply executeRecording_Replay; eauto|]. split; [exact Hs'|].
  assert (Hin : forall dx dy report,
             In (HidMove dx dy report) (Cout Executing :: body ++ [Cout Complete]) ->
             step_within (screenWidth st) (screenHeight st) (HidMove dx dy report)).
  { intros dx dy report Hin. rewrite Forall_forall in F. apply F.
    destruct Hin as [Hin|Hin]; [discriminate|].
    apply in_app_or in Hin. destruct Hin as [Hin|[Hin|[]]];
      [exact Hin | discriminate]. }
  split.
  - intros dx dy report H. apply Hin in H. unfold step_within in H.
    destruct H as (Bx & By & _). split; apply Z.abs_le; assumption.
  - intros Hw Hh dx dy report H. apply Hin in H. unfold step_within in H.
    destruct H as (Bx & By & ->).
    destruct Hs as (Hw0 & Hh0 & _).
    assert (screenWidth st / 10 < 128)
      by (apply Z.div_lt_upper_bound; lia).
    assert (screenHeight st / 10 < 128)
      by (apply Z.div_lt_upper_bound; lia).
    unfold report_dx, report_dy. cbn [nth].
    split; apply as_int8_low_byte; lia.
Qed.

Lemma replay_stays_on_screen_witness :
  on_screen wide_screen /\
  exists st' tr,
    executeRecording getHomeButtonRecording wide_screen = Some (tt, st', tr) /\
    on_screen st'.
Proof.
  assert (Hs : on_screen wide_screen) by (unfold on_screen; cbn; lia).
  assert (Hc : Forall coords_in_unit getHomeButtonRecording).
  { unfold getHomeButtonRecording. cbv zeta.
    constructor; [split; unit_literal|]. constructor; [exact I|].
    constructor; [split; unit_literal|]. constructor; [exact I|].
    constructor. }
  split; [exact Hs|].
  destruct (replay_stays_on_screen _ _ Hs Hc) as (st' & tr & E & Hs' & _).
  exists st', tr. auto.
Defined.

(** ** Coordinates that are not numbers *)

Lemma mul_not_finite x y :
  Float32.is_finite x = false -> Float32.is_finite (Float32.mul x y) = false.
Proof.
  destruct x as [s|s| |s m e]; try discriminate; intros _;
    destruct y as [s'|s'| |s' m' e']; reflexivity.
Qed.

Lemma float_to_int_not_finite x :
  Float32.is_finite x = false -> float_to_int x = None.
Proof.
  destruct x as [s|s| |s m e]; try discriminate; reflexivity.
Qed.

Lemma relativeToAbsolute_not_finite relX relY st :
  Float32.is_finite relX = false \/ Float32.is_finite relY = false ->
  relativeToAbsolute relX relY st = None.
Proof.
  intros H. rewrite relativeToAbsolute_eq.
  destruct H as [H|H];
    rewrite (float_to_int_not_finite _ (mul_not_finite _ _ H));
    [reflexivity | destruct (float_to_int _); reflexivity].
Qed.

Lemma execute_action_not_finite a st :
  is_positional a = true ->
  Float32.is_finite (relativeX a) = false \/ Float32.is_finite (relativeY a) = false ->
  execute_action a st = None.
Proof.
  intros Hp Hf.
  destruct (execute_action a st) as [[[[] st'] tr]|] eqn:E; [|reflexivity].
  apply execute_action_cases in E. unfold is_positional in Hp.
  pose proof (relativeToAbsolute_not_finite _ _ st Hf) as Hn.
  destruct (type a); try discriminate.
  - destruct E as (tx & ty & Er & _). congruence.
  - destruct E as (tx & ty & Er & _). congruence.
  - destruct E as (fx & fy & tx & ty & Er & _). congruence.
Qed.

(** X11.  A recording that holds a Move, Click or Drag whose first
    coordinates include a NaN or an infinity has no defined replay on any
    controller, wherever the action stands in the recording: the
    conversion of the product to [int] is undefined. *)
Theorem non_finite_coordinate_has_no_replay :
  forall actions a st,
    In a actions -> is_positional a = true ->
    Float32.is_finite (relativeX a) = false \/
    Float32.is_finite (relativeY a) = false ->
    executeRecording actions st = None.
Proof.
  intros actions a st Hin Hp Hf.
  destruct (executeRecording actions st) as [[[[] st'] tr]|] eqn:E; [|reflexivity].
  exfalso.
  apply executeRecording_Replay in E. destruct E as (body & HR & _).
  induction HR as [|st0 a0 st1 tr1 acts st2 tr2 Hexec _ IH]; [destruct Hin|].
  destruct Hin as [->|Hin]; [|exact (IH Hin)].
  rewrite (execute_action_not_finite a st0 Hp Hf) in Hexec. discriminate.
Qed.

Lemma non_finite_coordinate_witness :
  executeRecording (getHomeButtonRecording ++ [nan_move]) initial = None.
Proof.
  apply (non_finite_coordinate_has_no_replay _ nan_move).
  - apply in_or_app. right. left. reflexivity.
  - reflexivity.
  - left. reflexivity.
Defined.

(** ** The button byte during a drag *)

(** X12.  A completed Drag splits at its button-down and its button-up:
    before the button-down, the ten sub-steps from the cursor to the
    origin; between the two, the ten sub-steps from the origin to the
    destination; after the button-up, no HID event.  The moves emitted
    while the button is held are those of the second leg, and the report
    of each has the button byte 0: [sendMouseMove] builds every report
    with no button down, whatever [sendMouseButton] reported before. *)
Theorem drag_moves_carry_no_button :
  forall a st st' tr,
    type a = DRAG ->
    execute_action a st = Some (tt, st', tr) ->
    exists fromX fromY toX toY,
      relativeToAbsolute (relativeX a) (relativeY a) st
        = Some ((fromX, fromY), st, []) /\
      relativeToAbsolute (toRelativeX a) (toRelativeY a) st
        = Some ((toX, toY), st, []) /\
      let dx1 := Z.quot (fromX - currentX st) 10 in
      let dy1 := Z.quot (fromY - currentY st) 10 in
      let dx2 := Z.quot (toX - fromX) 10 in
      let dy2 := Z.quot (toY - fromY) 10 in
      held_moves false tr
      = repeat (HidMove dx2 dy2 [0; low_byte dx2; low_byte dy2]) 10 /\
      Forall buttons_clear (held_moves false tr) /\
      exists before held after,
        tr = before ++ HidClick true [1; 0; 0] :: held
                    ++ HidClick false [0; 0; 0] :: after /\
        hid_events before
        = repeat (HidMove dx1 dy1 [0; low_byte dx1; low_byte dy1]) 10 /\
        hid_events held
        = repeat (HidMove dx2 dy2 [0; low_byte dx2; low_byte dy2]) 10 /\
        hid_events after = [].
Proof.
  intros a st st' tr Ha H. apply execute_action_cases in H. rewrite Ha in H.
  destruct H as (fx & fy & tx & ty & Er1 & Er2 & _ & ->).
  exists fx, fy, tx, ty. split; [exact Er1|]. split; [exact Er2|]. cbv zeta.
  split; [|split].
  - unfold sub_steps, move_report.
    cbn [repeat List.concat app held_moves]. reflexivity.
  - unfold sub_steps, move_report.
    cbn [repeat List.concat app held_moves].
    repeat (constructor; [reflexivity|]). constructor.
  - exists (sub_steps (fx - currentX st) (fy - currentY st)
            ++ [Cout (Moved (relativeX a) (relativeY a) fx fy); Sleep 100]),
           (Sleep 100 :: sub_steps (tx - fx) (ty - fy)
            ++ [Cout (Moved (toRelativeX a) (toRelativeY a) tx ty); Sleep 100]),
           [Cout (Dragged (relativeX a) (relativeY a)
                    (toRelativeX a) (toRelativeY a))].
    split; [|split; [|split]].
    + rewrite <- !app_assoc. cbn [app]. rewrite <- !app_assoc. reflexivity.
    + rewrite hid_events_app, hid_events_sub_steps. apply app_nil_r.
    + change (hid_events (Sleep 100 :: ?l)) with (hid_events l).
      cbn [hid_events filter is_hid]. fold (hid_events (sub_steps (tx - fx) (ty - fy)
        ++ [Cout (Moved (toRelativeX a) (toRelativeY a) tx ty); Sleep 100])).
      rewrite hid_events_app, hid_events_sub_steps. apply app_nil_r.
    + reflexivity.
Qed.

Lemma drag_moves_carry_no_button_witness :
  held_moves false (trace_of (execute_action quarter_drag initial))
  = repeat (HidMove 19 42 [0; 19; 42]) 10 /\
  nth_error (hid_events (trace_of (execute_action quarter_drag initial))) 10
  = Some (HidClick true [1; 0; 0]).
Proof.
  assert (E : execute_action quarter_drag initial
              = Some (tt, state_of initial (execute_action quarter_drag initial),
                      trace_of (execute_action quarter_drag initial)))
    by (vm_compute; reflexivity).
  destruct (drag_moves_carry_no_button quarter_drag _ _ _ eq_refl E)
    as (fx & fy & tx & ty & E1 & E2 & H & _).
  vm_compute in E1, E2. inversion E1; inversion E2; subst.
  split; [exact H | reflexivity].
Defined.

(** ** Coordinates below zero *)

Lemma round_aux_opp s m e l :
  binary_round_aux Float32.prec Float32.emax (negb s) m e l
  = SFopp (binary_round_aux Float32.prec Float32.emax s m e l).
Proof.
  unfold binary_round_aux.
  destruct (shr_fexp _ _ m e l) as [mrs' e'].
  destruct (shr_fexp _ _ _ e' loc_Exact) as [mrs'' e''].
  destruct (shr_m mrs''); [reflexivity | | reflexivity].
  destruct (e'' <=? _); reflexivity.
Qed.

Lemma mul_opp_l x y : Float32.mul (SFopp x) y = SFopp (Float32.mul x y).
Proof.
  unfold Float32.mul, SFmul.
  destruct x as [s|s| |s m e]; destruct y as [s'|s'| |s' m' e']; cbn [SFopp];
    try reflexivity;
    try (destruct s, s'; reflexivity).
  replace (xorb (negb s) s') with (negb (xorb s s')) by (destruct s, s'; reflexivity).
  apply round_aux_opp.
Qed.

Lemma trunc_opp x : Float32.trunc (SFopp x) = option_map Z.opp (Float32.trunc x).
Proof.
  destruct x as [s|s| |s m e]; try reflexivity.
  unfold Float32.trunc, SFopp. cbn [option_map]. f_equal.
  destruct s; cbn [negb cond_Zopp]; lia.
Qed.

Lemma float_to_int_opp x z :
  float_to_int x = Some z -> INT_MIN < z ->
  float_to_int (SFopp x) = Some (- z).
Proof.
  unfold float_to_int. rewrite trunc_opp.
  destruct (Float32.trunc x) as [t|]; [|discriminate]. cbn [option_map].
  unfold checked, in_int, INT_MIN, INT_MAX.
  destruct (_ && _) eqn:E; [|discriminate]. intros H; inversion H; subst.
  intros Hz. apply andb_true_iff in E. destruct E as [E1 E2].
  apply Z.leb_le in E1, E2.
  replace (_ && _) with true; [reflexivity|].
  symmetry. apply andb_true_iff. split; apply Z.leb_le; lia.
Qed.

(** X13.  [relativeToAbsolute] is odd: where it is defined on a pair of
    coordinates (and no result is [INT_MIN]), it is defined on the
    negated pair and gives the negated pixels.  The conversion to [int]
    truncates toward zero, so a coordinate just below 0 maps to pixel 0,
    not to -1. *)
Theorem relativeToAbsolute_odd :
  forall relX relY st absX absY,
    relativeToAbsolute relX relY st = Some ((absX, absY), st, []) ->
    INT_MIN < absX -> INT_MIN < absY ->
    relativeToAbsolute (SFopp relX) (SFopp relY) st
    = Some ((- absX, - absY), st, []).
Proof.
  intros relX relY st absX absY H Hx Hy.
  rewrite relativeToAbsolute_eq in H |- *.
  destruct (float_to_int (Float32.mul relX _)) as [ax|] eqn:Ex; [|discriminate].
  destruct (float_to_int (Float32.mul relY _)) as [ay|] eqn:Ey; [|discriminate].
  inversion H; subst.
  rewrite !mul_opp_l.
  rewrite (float_to_int_opp _ _ Ex Hx), (float_to_int_opp _ _ Ey Hy). reflexivity.
Qed.

Lemma relativeToAbsolute_odd_witness :
  relativeToAbsolute (SFopp (Float32.literal 5 10)) (SFopp (Float32.literal 5 100))
    initial
  = Some ((- 195, - 42), initial, []).
Proof.
  apply (relativeToAbsolute_odd _ _ initial 195 42).
  - vm_compute. reflexivity.
  - vm_compute. reflexivity.
  - vm_compute. reflexivity.
Defined.

(** ** Characters sharing a keycode *)

Lemma all_ascii_complete c : In c all_ascii.
Proof.
  unfold all_ascii. rewrite <- (ascii_nat_embedding c).
  apply in_map. apply in_seq. pose proof (nat_ascii_bounded c). lia.
Qed.

Lemma keycode_table_check :
  collisions_on_same_key (map (fun c => (c, asciiToHIDKeycode c)) all_ascii) = true.
Proof. vm_compute. reflexivity. Qed.

Lemma collisions_sound table p q :
  collisions_on_same_key table = true ->
  In p table -> In q table -> snd p <> 0 -> snd q = snd p ->
  same_key (fst p) (fst q) = true.
Proof.
  unfold collisions_on_same_key. intros K Hp Hq Hnz E.
  rewrite forallb_forall in K. specialize (K p Hp).
  apply Z.eqb_neq in Hnz. rewrite Hnz in K.
  rewrite forallb_forall in K. specialize (K q Hq).
  apply Z.eqb_eq in E. rewrite E in K. exact K.
Qed.

(** X14.  Two characters with the same keycode, other than 0, are the
    same character or the two cases of one letter: apart from the case
    of letters, which the report does not carry, a typed text can be
    read back from its keycodes. *)
Theorem asciiToHIDKeycode_collisions :
  forall c d,
    asciiToHIDKeycode c = asciiToHIDKeycode d ->
    asciiToHIDKeycode c <> 0 ->
    c = d \/ (is_lower c = true /\ d = to_upper c)
          \/ (is_lower d = true /\ c = to_upper d).
Proof.
  intros c d E Hnz.
  pose proof (collisions_sound _ (c, asciiToHIDKeycode c) (d, asciiToHIDKeycode d)
                keycode_table_check
                (in_map (fun c => (c, asciiToHIDKeycode c)) _ _ (all_ascii_complete c))
                (in_map (fun c => (c, asciiToHIDKeycode c)) _ _ (all_ascii_complete d))
                Hnz (eq_sym E)) as K.
  cbn [fst snd] in K. unfold same_key in K.
  apply orb_true_iff in K. destruct K as [K|K].
  - apply orb_true_iff in K. destruct K as [K|K].
    + left. apply Ascii.eqb_eq. exact K.
    + apply andb_true_iff in K. destruct K as [K1 K2].
      right. left. split; [exact K1|]. symmetry. apply Ascii.eqb_eq.
      rewrite Ascii.eqb_sym. exact K2.
  - apply andb_true_iff in K. destruct K as [K1 K2].
    right. right. split; [exact K1|]. apply Ascii.eqb_eq. exact K2.
Qed.

Lemma asciiToHIDKeycode_collisions_witness :
  "H"%char = "h"%char \/
  (is_lower "H" = true /\ "h"%char = to_upper "H") \/
  (is_lower "h" = true /\ "H"%char = to_upper "h").
Proof.
  apply asciiToHIDKeycode_collisions.
  - reflexivity.
  - vm_compute. discriminate.
Defined.

(** ** The corners of the screen *)

Lemma value_zero x :
  Float32.is_finite x = true -> (Float32.value x == 0)%Q ->
  exists s, x = S754_zero s.
Proof.
  destruct x as [s|s| |s m e]; try discriminate; intros _ H; [eauto|].
  exfalso. unfold Float32.value in H.
  pose proof (pow2_pos e) as Hp.
  assert (Hm : ~ (inject_Z (cond_Zopp s (Zpos m)) == 0)%Q).
  { change 0%Q with (inject_Z 0). rewrite inject_Z_injective.
    destruct s; cbn; lia. }
  apply Hm. apply Qmult_integral in H. destruct H as [H|H]; [exact H|].
  rewrite H in Hp. apply Qlt_irrefl in Hp. destruct Hp.
Qed.

Lemma cast_corner x w :
  Float32.is_finite x = true -> 0 < w <= 2 ^ 24 ->
  ((Float32.value x == 0)%Q ->
   float_to_int (Float32.mul x (Float32.of_int w)) = Some 0) /\
  ((Float32.value x == 1)%Q ->
   float_to_int (Float32.mul x (Float32.of_int w)) = Some w).
Proof.
  intros Hf Hw. split; intros Hv.
  - destruct (value_zero x Hf Hv) as [s ->].
    destruct (of_int_exact w Hw) as (m & e & -> & _). reflexivity.
  - assert (Hx : (0 <= Float32.value x <= 1)%Q) by (rewrite Hv; split; discriminate).
    destruct (cast_unit x w Hf Hx Hw) as [-> Hb].
    pose proof (mul_unit_bracket x w Hf Hx Hw) as [Hl _].
    assert (E : Qfloor (Float32.value x * inject_Z w) = w).
    { rewrite <- (Qfloor_Z w) at 2. apply Qfloor_comp. rewrite Hv. ring. }
    f_equal. lia.
Qed.

(** X15.  On every profile that converts exactly to [float], the
    coordinates (0, 0) map to the pixel (0, 0) and the coordinates (1, 1)
    to the pixel (width, height) exactly: the bounds of the range
    [[0, width]] by [[0, height]] are both reached, and the far corner is
    one past the last pixel row and column. *)
Theorem relativeToAbsolute_corners :
  forall relX relY st,
    0 < screenWidth st <= 2 ^ 24 -> 0 < screenHeight st <= 2 ^ 24 ->
    Float32.is_finite relX = true -> Float32.is_finite relY = true ->
    ((Float32.value relX == 0)%Q -> (Float32.value relY == 0)%Q ->
     relativeToAbsolute relX relY st = Some ((0, 0), st, [])) /\
    ((Float32.value relX == 1)%Q -> (Float32.value relY == 1)%Q ->
     relativeToAbsolute relX relY st
     = Some ((screenWidth st, screenHeight st), st, [])).
Proof.
  intros relX relY st Hw Hh Hfx Hfy.
  destruct (cast_corner relX _ Hfx Hw) as [X0 X1].
  destruct (cast_corner relY _ Hfy Hh) as [Y0 Y1].
  split; intros Hx Hy; rewrite relativeToAbsolute_eq.
  - rewrite (X0 Hx), (Y0 Hy). reflexivity.
  - rewrite (X1 Hx), (Y1 Hy). reflexivity.
Qed.

Lemma relativeToAbsolute_corners_witness :
  relativeToAbsolute (Float32.of_int 0) (Float32.of_int 0) initial
  = Some ((0, 0), initial, []) /\
  relativeToAbsolute (Float32.of_int 1) (Float32.of_int 1) initial
  = Some ((390, 844), initial, []).
Proof.
  destruct (relativeToAbsolute_corners (Float32.of_int 0) (Float32.of_int 0) initial)
    as [H0 _]; try (cbn; lia); try reflexivity.
  destruct (relativeToAbsolute_corners (Float32.of_int 1) (Float32.of_int 1) initial)
    as [_ H1]; try (cbn; lia); try reflexivity.
  split; [apply H0 | apply H1]; reflexivity.
Defined.

(** ** Order of the targets *)

Section Float32Rounding.

Import Float32.

Lemma sticky_step M d :
  0 < d ->
  Z.odd (M / d) || negb (M mod d =? 0) = negb (M mod (d * 2) =? 0).
Proof.
  intros Hd.
  rewrite Z.rem_mul_r, Zmod_odd by lia.
  pose proof (Z.mod_pos_bound M d Hd) as Hb.
  destruct (Z.odd (M / d)); cbn [orb].
  - symmetry. apply negb_true_iff. apply Z.eqb_neq. lia.
  - rewrite Z.mul_0_r, Z.add_0_r. reflexivity.
Qed.

Lemma shr_iter_full M (n : nat) :
  0 <= M ->
  let mrs := Nat.iter (S n) shr_1 {| shr_m := M; shr_r := false; shr_s := false |} in
  shr_m mrs = M / 2 ^ Z.of_nat (S n) /\
  shr_r mrs = Z.odd (M / 2 ^ Z.of_nat n) /\
  shr_s mrs = negb (M mod 2 ^ Z.of_nat n =? 0).
Proof.
  intros HM. induction n as [|n IH]; cbn zeta.
  - cbn [Nat.iter]. rewrite shr_1_m, shr_1_r, shr_1_s by (cbn; lia).
    cbn [shr_m shr_r shr_s]. change (2 ^ Z.of_nat 0) with 1.
    change (2 ^ Z.of_nat 1) with 2.
    rewrite Z.div_1_r, Z.mod_1_r. auto.
  - rewrite Nat.iter_succ. cbn zeta in IH. destruct IH as (IHm & IHr & IHs).
    set (mrs := Nat.iter (S n) shr_1 _) in *.
    assert (Hpos : 0 < 2 ^ Z.of_nat n) by (apply Z.pow_pos_nonneg; lia).
    assert (Hpos' : 0 < 2 ^ Z.of_nat (S n)) by (apply Z.pow_pos_nonneg; lia).
    assert (Hm : 0 <= shr_m mrs) by (rewrite IHm; apply Z.div_pos; lia).
    rewrite shr_1_m, shr_1_r, shr_1_s, IHm, IHr, IHs by exact Hm.
    split; [|split].
    + rewrite Z.div_div by lia. f_equal.
      rewrite (Nat2Z.inj_succ (S n)), Z.pow_succ_r by lia. ring.
    + reflexivity.
    + rewrite (Nat2Z.inj_succ n), Z.pow_succ_r by lia.
      rewrite (Z.mul_comm 2). apply sticky_step. exact Hpos.
Qed.

(** The first shift of [binary_round_aux], with its location. *)
Lemma shr_fexp_round M E :
  0 <= M ->
  let n := Z.max 0 (fexp prec emax (Zdigits2 M + E) - E) in
  exists mrs,
    shr_fexp prec emax M E loc_Exact = (mrs, E + n) /\
    round_nearest_even (shr_m mrs) (loc_of_shr_record mrs) = rne_shift M n.
Proof.
  intros HM. cbn zeta. unfold shr_fexp, shr, rne_shift.
  destruct (fexp prec emax (Zdigits2 M + E) - E) as [|p|p] eqn:En.
  - eexists. split; [rewrite Z.add_0_r; reflexivity|]. reflexivity.
  - rewrite iter_pos_nat.
    replace (Z.max 0 (Z.pos p)) with (Z.pos p) by lia.
    eexists. split; [reflexivity|].
    destruct (Pos2Nat.is_succ p) as [k Hk].
    cbn [shr_record_of_loc]. rewrite Hk.
    destruct (shr_iter_full M k HM) as (Hm & Hr & Hs).
    assert (HkZ : Z.of_nat k = Z.pos p - 1) by lia.
    assert (HSk : Z.of_nat (S k) = Z.pos p) by lia.
    rewrite HSk in Hm. rewrite HkZ in Hr, Hs.
    destruct (Nat.iter (S k) shr_1 _) as [m r s]. cbn [shr_m shr_r shr_s] in *.
    subst m r s.
    replace (Z.pos p <=? 0) with false by (symmetry; apply Z.leb_gt; lia).
    reflexivity.
  - eexists. replace (Z.max 0 (Z.neg p)) with 0 by lia.
    split; [rewrite Z.add_0_r; reflexivity|]. reflexivity.
Qed.

Lemma pow2_pred n : 0 < n -> 2 ^ n = 2 ^ (n - 1) * 2.
Proof.
  intros Hn. replace n with (Z.succ (n - 1)) at 1 by lia.
  rewrite Z.pow_succ_r by lia. ring.
Qed.

(** Rounding adds one exactly when the round bit is set and the sticky
    bit is set or the quotient is odd. *)
Lemma rne_shift_up M n :
  0 < n ->
  rne_shift M n
  = M / 2 ^ n
    + (if Z.odd (M / 2 ^ (n - 1))
          && (negb (M mod 2 ^ (n - 1) =? 0) || Z.odd (M / 2 ^ n))
       then 1 else 0).
Proof.
  intros Hn. unfold rne_shift.
  replace (n <=? 0) with false by (symmetry; apply Z.leb_gt; lia).
  rewrite <- (Z.negb_even (M / 2 ^ n)).
  destruct (Z.odd (M / 2 ^ (n - 1))), (negb (M mod 2 ^ (n - 1) =? 0));
    cbn [loc_of_shr_record shr_r shr_s round_nearest_even andb orb]; try lia.
  destruct (Z.even (M / 2 ^ n)); cbn [negb]; lia.
Qed.

Lemma rne_shift_bounds M n :
  0 <= n ->
  M / 2 ^ n <= rne_shift M n <= M / 2 ^ n + 1 /\
  (M mod 2 ^ n = 0 -> rne_shift M n = M / 2 ^ n).
Proof.
  intros Hn. destruct (Z.eq_dec n 0) as [->|Hn0].
  - unfold rne_shift. cbn. rewrite Z.div_1_r. split; [lia | reflexivity].
  - rewrite rne_shift_up by lia. split.
    + destruct (_ && _); lia.
    + intros H0. rewrite (pow2_pred n) in H0 by lia.
      assert (HD : 0 < 2 ^ (n - 1)) by (apply Z.pow_pos_nonneg; lia).
      apply divisible_step in H0; [|exact HD]. destruct H0 as [_ ->].
      cbn [andb]. lia.
Qed.

Lemma rne_shift_mono M M' n :
  0 <= n -> M <= M' -> rne_shift M n <= rne_shift M' n.
Proof.
  intros Hn HM. destruct (Z.eq_dec n 0) as [->|Hn0].
  { unfold rne_shift. cbn. exact HM. }
  rewrite !rne_shift_up by lia.
  assert (HD : 0 < 2 ^ (n - 1)) by (apply Z.pow_pos_nonneg; lia).
  rewrite (pow2_pred n) by lia. rewrite <- !Z.div_div by lia.
  set (D := 2 ^ (n - 1)) in *.
  pose proof (Z.div_mod M D ltac:(lia)) as EM.
  pose proof (Z.div_mod M' D ltac:(lia)) as EM'.
  pose proof (Z.mod_pos_bound M D HD) as BM.
  pose proof (Z.mod_pos_bound M' D HD) as BM'.
  pose proof (Z.div_le_mono M M' D HD HM) as HT.
  set (T := M / D) in *. set (T' := M' / D) in *.
  pose proof (Z.div_mod T 2 ltac:(lia)) as ET.
  pose proof (Z.div_mod T' 2 ltac:(lia)) as ET'.
  rewrite (Zmod_odd T) in ET. rewrite (Zmod_odd T') in ET'.
  pose proof (Z.div_le_mono T T' 2 ltac:(lia) HT) as Hm.
  destruct (Z.eq_dec T T') as [HTT|HTT].
  - rewrite <- HTT in *.
    destruct (Z.odd T); cbn [andb]; [|lia].
    destruct (Z.eqb_spec (M mod D) 0) as [E0|E0]; cbn [negb orb].
    + destruct (negb (M' mod D =? 0)); cbn [orb]; [|lia].
      destruct (Z.odd (T / 2)); lia.
    + destruct (Z.eqb_spec (M' mod D) 0) as [E0'|E0']; cbn [negb orb]; [|lia].
      exfalso. nia.
  - destruct (Z.odd T) eqn:OT; cbn [andb].
    + assert (T / 2 < T' / 2) by (destruct (Z.odd T'); lia).
      destruct (_ || _); destruct (_ && _); lia.
    + destruct (_ && _); lia.
Qed.

Lemma rne_shift_scale M n k :
  0 < n -> 0 <= k -> rne_shift (M * 2 ^ k) (n + k) = rne_shift M n.
Proof.
  intros Hn Hk. rewrite !rne_shift_up by lia.
  assert (Hk2 : 0 < 2 ^ k) by (apply Z.pow_pos_nonneg; lia).
  assert (HD : 0 < 2 ^ (n - 1)) by (apply Z.pow_pos_nonneg; lia).
  assert (Hn2 : 0 < 2 ^ n) by (apply Z.pow_pos_nonneg; lia).
  replace (n + k - 1) with (n - 1 + k) by lia.
  rewrite !Z.pow_add_r by lia.
  rewrite !Z.div_mul_cancel_r by lia.
  rewrite Z.mul_mod_distr_r by lia.
  replace (M mod 2 ^ (n - 1) * 2 ^ k =? 0) with (M mod 2 ^ (n - 1) =? 0);
    [reflexivity|].
  destruct (Z.eqb_spec (M mod 2 ^ (n - 1)) 0) as [E|E].
  - rewrite E. reflexivity.
  - symmetry. apply Z.eqb_neq. nia.
Qed.

(** The value [binary_round_aux] gives to a positive number. *)
Lemma round_aux_value M E :
  let n := Z.max 0 (fexp prec emax (Zdigits2 (Zpos M) + E) - E) in
  let r := binary_round_aux prec emax false (Zpos M) E loc_Exact in
  r = S754_infinity false \/
  (value r == inject_Z (rne_shift (Zpos M) n) * pow2 (E + n))%Q.
Proof.
  cbn zeta. unfold binary_round_aux.
  destruct (shr_fexp_round (Zpos M) E ltac:(lia)) as (mrs1 & H1 & Hr1).
  rewrite H1, Hr1. clear H1 Hr1 mrs1. cbn [Zdigits2].
  destruct (digits_bounds M) as [HMl HMu].
  set (dM := Zpos (digits2_pos M)) in *.
  rewrite fexp_eq.
  set (F := Z.max (dM + E - 24) (-149)) in *.
  set (n1 := Z.max 0 (F - E)) in *.
  set (m2 := rne_shift (Zpos M) n1).
  assert (Hn1 : 0 <= n1) by lia.
  assert (Hp1 : 0 < 2 ^ n1) by (apply Z.pow_pos_nonneg; lia).
  destruct (rne_shift_bounds (Zpos M) n1 Hn1) as [Hrne Hm2b]. fold m2 in Hrne, Hm2b.
  pose proof (Z.div_pos (Zpos M) (2 ^ n1) ltac:(lia) Hp1) as Hm1pos.
  assert (Hm2lo : 0 <= m2) by lia.
  destruct (shr_fexp_spec m2 (E + n1) Hm2lo) as (mrs2 & H2 & Hm3 & _).
  rewrite H2. clear H2. rewrite fexp_eq in *.
  set (n2 := Z.max 0 (Z.max (Zdigits2 m2 + (E + n1) - 24) (-149) - (E + n1))) in *.
  assert (Hp2 : 0 < 2 ^ n2) by (apply Z.pow_pos_nonneg; lia).
  assert (Hex2 : m2 mod 2 ^ n2 = 0).
  { destruct (Z.eq_dec n1 0) as [H0|H0].
    - assert (Hm2 : m2 = Zpos M).
      { rewrite Hm2b; rewrite H0; change (2 ^ 0) with 1.
        - apply Z.div_1_r. - apply Z.mod_1_r. }
      assert (n2 = 0); [|replace n2 with 0 by lia; apply Z.mod_1_r].
      unfold n2. rewrite Hm2. cbn [Zdigits2]. fold dM. lia.
    - assert (HF : E + n1 = F) by lia.
      assert (Hlt : Zpos M / 2 ^ n1 < 2 ^ 24).
      { apply Z.div_lt_upper_bound; [lia|].
        rewrite <- Z.pow_add_r by lia.
        eapply Z.lt_le_trans; [exact HMu|]. apply Z.pow_le_mono_r; lia. }
      destruct m2 as [|p2|p2] eqn:Em2; [apply Z.mod_0_l; lia| |lia].
      destruct (Z.eq_dec (Zpos p2) (2 ^ 24)) as [Htop|Htop].
      + assert (n2 = 1); [|replace n2 with 1 by lia; rewrite Htop; reflexivity].
        unfold n2. injection Htop as ->. cbn [Zdigits2 digits2_pos Pos.succ]. lia.
      + assert (n2 = 0); [|replace n2 with 0 by lia; apply Z.mod_1_r].
        pose proof (digits_le_24 p2 ltac:(lia)).
        unfold n2. cbn [Zdigits2]. lia. }
  assert (Hm32 : shr_m mrs2 * 2 ^ n2 = m2).
  { rewrite Hm3. pose proof (Z.div_mod m2 (2 ^ n2) ltac:(lia)). lia. }
  assert (Hv3 : (inject_Z (shr_m mrs2) * pow2 (E + n1 + n2)
                 == inject_Z m2 * pow2 (E + n1))%Q).
  { rewrite (pow2_split (E + n1) n2), Qmult_assoc, <- inject_Z_mult, Hm32 by lia.
    reflexivity. }
  destruct (shr_m mrs2) as [|m3|m3] eqn:E3.
  - right. cbn [value]. rewrite <- Hv3. ring.
  - destruct (E + n1 + n2 <=? emax - prec); [right; exact Hv3 | left; reflexivity].
  - pose proof (Z.div_pos m2 (2 ^ n2) Hm2lo Hp2). lia.
Qed.

(** Rounding two positive numbers on the same grid keeps their order. *)
Lemma rne_shift_same_grid M E M' E' F :
  (inject_Z (Zpos M) * pow2 E <= inject_Z (Zpos M') * pow2 E')%Q ->
  let n := Z.max 0 (F - E) in
  let n' := Z.max 0 (F - E') in
  (inject_Z (rne_shift (Zpos M) n) * pow2 (E + n)
   <= inject_Z (rne_shift (Zpos M') n') * pow2 (E' + n'))%Q.
Proof.
  intros Hle n n'.
  assert (Hn : 0 <= n) by (unfold n; lia).
  assert (Hn' : 0 <= n') by (unfold n'; lia).
  destruct (rne_shift_bounds (Zpos M) n Hn) as [Hb Hx].
  destruct (rne_shift_bounds (Zpos M') n' Hn') as [Hb' Hx'].
  destruct (Z.eq_dec n 0) as [H0|H0]; destruct (Z.eq_dec n' 0) as [H0'|H0'].
  - rewrite H0, H0', !Z.add_0_r. unfold rne_shift. cbn [Z.leb Z.compare].
    exact Hle.
  - (* the first is exact, the second is rounded *)
    rewrite H0, Z.add_0_r. unfold rne_shift at 1. cbn [Z.leb Z.compare].
    assert (HF : E' + n' = F) by (unfold n' in *; lia). rewrite HF.
    assert (HE : F <= E) by (unfold n in *; lia).
    assert (Hp : 0 < 2 ^ n') by (apply Z.pow_pos_nonneg; lia).
    assert (HK : Zpos M * 2 ^ (E - F) * 2 ^ n' <= Zpos M').
    { replace E with (E' + (E - F + n')) in Hle at 1 by lia.
      rewrite (pow2_split E' (E - F + n')), Qmult_assoc, <- inject_Z_mult in Hle
        by lia.
      apply scale_le in Hle; [|apply pow2_pos].
      rewrite Z.pow_add_r in Hle by lia. lia. }
    replace E with (F + (E - F)) at 1 by lia.
    rewrite (pow2_split F (E - F)), Qmult_assoc, <- inject_Z_mult by lia.
    apply scale_le; [apply pow2_pos|].
    assert (Zpos M * 2 ^ (E - F) <= Zpos M' / 2 ^ n')
      by (apply Z.div_le_lower_bound; lia).
    lia.
  - (* the first is rounded, the second is exact *)
    rewrite H0', Z.add_0_r. unfold rne_shift at 2. cbn [Z.leb Z.compare].
    refine (grid_upper (Zpos M) E n _ M' E' _ Hn _ Hle _ _); lia.
  - assert (HF : E + n = F) by (unfold n in *; lia).
    assert (HF' : E' + n' = F) by (unfold n' in *; lia).
    rewrite HF, HF'. apply scale_le; [apply pow2_pos|].
    destruct (Z_le_gt_dec E' E) as [HEE|HEE].
    + set (k := E - E').
      assert (Hk : 0 <= k) by (unfold k; lia).
      replace E with (E' + k) in Hle by (unfold k; lia).
      rewrite (pow2_split E' k), Qmult_assoc, <- inject_Z_mult in Hle by lia.
      apply scale_le in Hle; [|apply pow2_pos].
      replace n' with (n + k) by (unfold k; lia).
      rewrite <- (rne_shift_scale (Zpos M) n k) by lia.
      apply rne_shift_mono; lia.
    + set (k := E' - E).
      assert (Hk : 0 <= k) by (unfold k; lia).
      replace E' with (E + k) in Hle by (unfold k; lia).
      rewrite (pow2_split E k), Qmult_assoc, <- inject_Z_mult in Hle by lia.
      apply scale_le in Hle; [|apply pow2_pos].
      replace n with (n' + k) by (unfold k; lia).
      rewrite <- (rne_shift_scale (Zpos M') n' k) by lia.
      apply rne_shift_mono; lia.
Qed.

(** Rounding keeps the order of two positive numbers. *)
Lemma round_aux_mono M E M' E' :
  E <= 104 -> Zpos (digits2_pos M') + E' <= 128 ->
  (inject_Z (Zpos M) * pow2 E <= inject_Z (Zpos M') * pow2 E')%Q ->
  let r := binary_round_aux prec emax false (Zpos M) E loc_Exact in
  let r' := binary_round_aux prec emax false (Zpos M') E' loc_Exact in
  nonneg r = true -> nonneg r' = true -> (value r <= value r')%Q.
Proof.
  intros HE Hd' Hle r r' Hr Hr'.
  pose proof (digits_le_of_value_le M' E' M E Hle) as Hdig.
  set (d := Zpos (digits2_pos M) + E) in *.
  set (d' := Zpos (digits2_pos M') + E') in *.
  destruct (Z.eq_dec (fexp prec emax d) (fexp prec emax d')) as [HF|HF].
  - destruct (round_aux_value M E) as [Hi|Hv];
      [fold r in Hi; rewrite Hi in Hr; discriminate|].
    destruct (round_aux_value M' E') as [Hi'|Hv'];
      [fold r' in Hi'; rewrite Hi' in Hr'; discriminate|].
    fold r in Hv. fold r' in Hv'. rewrite Hv, Hv'.
    cbn [Zdigits2]. fold d d'. rewrite <- HF.
    apply rne_shift_same_grid. exact Hle.
  - rewrite !fexp_eq in HF.
    assert (Hc : canonical_mantissa prec emax 8388608 (d' - 24) = true).
    { unfold canonical_mantissa. rewrite fexp_eq. apply Z.eqb_eq.
      change (Zpos (digits2_pos 8388608)) with 24. lia. }
    assert (HB : (inject_Z (Zpos 8388608) * pow2 (d' - 24) == pow2 (d' - 1))%Q).
    { replace (d' - 1) with (d' - 24 + 23) by lia.
      rewrite (pow2_split (d' - 24) 23) by lia. reflexivity. }
    destruct (digits_bounds_Q M E) as [_ Hu]. fold d in Hu.
    destruct (digits_bounds_Q M' E') as [Hl' _].
    replace (Zpos (digits2_pos M') - 1 + E') with (d' - 1) in Hl'
      by (unfold d'; lia).
    assert (H1 : (inject_Z (Zpos M) * pow2 E
                  <= inject_Z (Zpos 8388608) * pow2 (d' - 24))%Q).
    { rewrite HB. apply Qlt_le_weak. eapply Qlt_le_trans; [exact Hu|].
      apply pow2_le_mono. lia. }
    assert (H2 : (inject_Z (Zpos 8388608) * pow2 (d' - 24)
                  <= inject_Z (Zpos M') * pow2 E')%Q).
    { rewrite HB. exact Hl'. }
    destruct (round_aux_upper M E 8388608 (d' - 24) Hc ltac:(lia) HE H1)
      as (_ & _ & Hup).
    destruct (round_aux_lower M' E' 8388608 (d' - 24) Hc H2) as [Hi'|Hlo];
      [fold r' in Hi'; rewrite Hi' in Hr'; discriminate|].
    eapply Qle_trans; [exact Hup | exact Hlo].
Qed.

(** The product with a positive float is monotone on the unit interval. *)
Lemma mul_unit_mono x x' m e :
  is_finite x = true -> is_finite x' = true ->
  (0 <= value x)%Q -> (value x <= value x')%Q -> (value x' <= 1)%Q ->
  canonical_mantissa prec emax m e = true -> e <= 104 ->
  (value (mul x (S754_finite false m e))
   <= value (mul x' (S754_finite false m e)))%Q.
Proof.
  intros Hf Hf' H0 Hle H1 Hc He.
  assert (Hx : (0 <= value x <= 1)%Q) by (split; [exact H0 | eapply Qle_trans; eauto]).
  assert (Hx' : (0 <= value x' <= 1)%Q) by (split; [eapply Qle_trans; eauto | exact H1]).
  destruct (mul_unit_upper x m e Hf Hx Hc He) as [Hn [Hlo Hhi]].
  destruct (mul_unit_upper x' m e Hf' Hx' Hc He) as [Hn' [Hlo' Hhi']].
  destruct x as [s|s| |[|] mx ex]; try discriminate.
  - (* x is zero *) exact Hlo'.
  - (* x is negative *) exfalso. cbn in H0.
    pose proof (pow2_pos ex).
    assert (inject_Z (Z.neg mx) < 0)%Q
      by (change 0%Q with (inject_Z 0); rewrite <- Zlt_Qlt; lia).
    nra.
  - destruct x' as [s'|s'| |[|] mx' ex']; try discriminate.
    + (* x' is zero *) exfalso. cbn in Hle.
      pose proof (pow2_pos ex).
      assert (0 < inject_Z (Z.pos mx))%Q
        by (change 0%Q with (inject_Z 0); rewrite <- Zlt_Qlt; lia).
      nra.
    + exfalso. destruct Hx' as [Hx' _]. cbn in Hx'.
      pose proof (pow2_pos ex').
      assert (inject_Z (Z.neg mx') < 0)%Q
        by (change 0%Q with (inject_Z 0); rewrite <- Zlt_Qlt; lia).
      nra.
    + cbn [value cond_Zopp] in Hle, H1, H0.
      unfold mul, SFmul in *. cbn [xorb] in *.
      assert (Hex : forall p q, (inject_Z (Zpos p) * pow2 q <= 1)%Q -> q <= 0).
      { intros p q Hp. apply pow2_le_inv. change (pow2 0) with 1%Q.
        pose proof (pow2_pos q).
        assert (1 <= inject_Z (Zpos p))%Q
          by (change 1%Q with (inject_Z 1); rewrite <- Zle_Qle; lia).
        nra. }
      assert (Hprod : forall p q,
                 (inject_Z (Zpos (p * m)) * pow2 (q + e)
                  == (inject_Z (Zpos p) * pow2 q) * (inject_Z (Zpos m) * pow2 e))%Q).
      { intros p q. rewrite Pos2Z.inj_mul, inject_Z_mult, pow2_add. ring. }
      apply round_aux_mono; auto.
      * pose proof (Hex mx ex (proj2 Hx)). lia.
      * (* the product is below [2^128] *)
        destruct (digits_bounds_Q (mx' * m) (ex' + e)) as [Hl _].
        rewrite Hprod in Hl.
        destruct (digits_bounds_Q m e) as [_ Hum].
        pose proof (canonical_exponent m e Hc) as Hce.
        assert (Hlt : (pow2 (Zpos (digits2_pos (mx' * m)) - 1 + (ex' + e))
                       < pow2 (Zpos (digits2_pos m) + e))%Q).
        { eapply Qle_lt_trans; [exact Hl|].
          eapply Qle_lt_trans; [|exact Hum].
          pose proof (value_nonneg_pos m e).
          generalize dependent (inject_Z (Zpos m) * pow2 e)%Q.
          generalize dependent (inject_Z (Zpos mx') * pow2 ex')%Q.
          intros; nra. }
        apply pow2_lt_inv in Hlt. lia.
      * rewrite !Hprod.
        pose proof (value_nonneg_pos m e).
        generalize dependent (inject_Z (Zpos m) * pow2 e)%Q.
        generalize dependent (inject_Z (Zpos mx) * pow2 ex)%Q.
        generalize dependent (inject_Z (Zpos mx') * pow2 ex')%Q.
        intros; nra.
Qed.

End Float32Rounding.

(** X16.  [relativeToAbsolute] is monotone on the unit square: on every
    profile that converts exactly to [float], coordinates that are not
    smaller give pixels that are not smaller, on each axis; rounding the
    product to binary32 never swaps two targets. *)
Theorem relativeToAbsolute_monotone :
  forall relX relY relX' relY' st,
    0 < screenWidth st <= 2 ^ 24 -> 0 < screenHeight st <= 2 ^ 24 ->
    Float32.in_unit relX -> Float32.in_unit relY ->
    Float32.in_unit relX' -> Float32.in_unit relY' ->
    (Float32.value relX <= Float32.value relX')%Q ->
    (Float32.value relY <= Float32.value relY')%Q ->
    exists absX absY absX' absY',
      relativeToAbsolute relX relY st = Some ((absX, absY), st, []) /\
      relativeToAbsolute relX' relY' st = Some ((absX', absY'), st, []) /\
      absX <= absX' /\ absY <= absY'.
Proof.
  intros relX relY relX' relY' st Hw Hh Hx Hy Hx' Hy' Hlx Hly.
  destruct (relativeToAbsolute_unit relX relY st Hw Hh Hx Hy) as (E1 & _).
  destruct (relativeToAbsolute_unit relX' relY' st Hw Hh Hx' Hy') as (E2 & _).
  eexists _, _, _, _. split; [exact E1|]. split; [exact E2|].
  destruct Hx as (Hfx & Hx0 & Hx1), Hy as (Hfy & Hy0 & Hy1).
  destruct Hx' as (Hfx' & Hx0' & Hx1'), Hy' as (Hfy' & Hy0' & Hy1').
  destruct (of_int_exact (screenWidth st) Hw) as (mw & ew & -> & Hcw & Hew & _).
  destruct (of_int_exact (screenHeight st) Hh) as (mh & eh & -> & Hch & Heh & _).
  split; apply Qfloor_resp_le; apply mul_unit_mono; auto.
Qed.

Lemma relativeToAbsolute_monotone_witness :
  exists absX absY absX' absY',
    relativeToAbsolute (Float32.literal 5 10) (Float32.literal 2 100) initial
    = Some ((absX, absY), initial, []) /\
    relativeToAbsolute (Float32.literal 85 100) (Float32.literal 5 100) initial
    = Some ((absX', absY'), initial, []) /\
    absX <= absX' /\ absY <= absY'.
Proof.
  apply relativeToAbsolute_monotone;
    try (cbn; lia); try unit_literal; vm_compute; discriminate.
Defined.

(** * The relay client *)

Section RelayFacts.

Import Relay.

Variable to_string : float -> string.
Variable curl_easy_init : bool.
Variable curl_easy_perform : nat -> Z.


Lemma skipws_commands input :
  commands (skipws input) = commands input /\
  (List.length (skipws input) <= List.length input)%nat /\
  match skipws input with
  | c :: _ => isspace c = false
  | [] => True
  end.
Proof.
  induction input as [|c input IH]; [cbn; auto|].
  cbn [skipws]. destruct (isspace c) eqn:E.
  - destruct IH as (IH1 & IH2 & IH3).
    unfold commands at 2. cbn [filter]. rewrite E. cbn [negb].
    split; [exact IH1|]. split; [cbn [List.length]; lia | exact IH3].
  - split; [reflexivity|]. split; [lia | exact E].
Qed.

Lemma extract_spec input cmd :
  (commands input = [] /\ extract input cmd = ([], cmd)) \/
  (exists k rest,
      commands input = k :: commands rest /\
      extract input cmd = (rest, Some k) /\
      (List.length rest < List.length input)%nat).
Proof.
  destruct (skipws_commands input) as (Hc & Hl & Hs). unfold extract.
  destruct (skipws input) as [|k rest].
  - left. rewrite <- Hc. auto.
  - right. exists k, rest. rewrite <- Hc. unfold commands. cbn [filter].
    rewrite Hs. cbn [negb List.length] in *.
    split; [reflexivity|]. split; [reflexivity | lia].
Qed.

Lemma performs_app tr1 tr2 : performs (tr1 ++ tr2) = performs tr1 ++ performs tr2.
Proof. apply filter_app. Qed.

Lemma loop_step turns c input cmd n :
  loop to_string curl_easy_perform (S turns) c input cmd n =
  let '(input', cmd') := extract input cmd in
  match cmd' with
  | None => (Undefined, [Cout Prompt])
  | Some k =>
      if Ascii.eqb k "q" then (Exit 0, [Cout Prompt])
      else
        let '(n', out) := dispatch to_string curl_easy_perform c k n in
        let '(r, tr) := loop to_string curl_easy_perform turns c input' cmd' n' in
        (r, Cout Prompt :: out ++ tr)
  end.
Proof. reflexivity. Qed.

Lemma dispatch_performs c k n :
  List.length (performs (snd (dispatch to_string curl_easy_perform c k n)))
  = (if curl c && is_request k then 1 else 0)%nat /\
  fst (dispatch to_string curl_easy_perform c k n)
  = (n + List.length
           (performs (snd (dispatch to_string curl_easy_perform c k n))))%nat /\
  forall url body res,
    In (Perform url body res) (snd (dispatch to_string curl_easy_perform c k n)) ->
    url = ("http://" ++ esp32_ip c ++ ":8080")%string /\
    res = curl_easy_perform n /\
    (body = home_json \/
     body = (lit "{'type':'click','x':" ++ to_string (Float32.literal 5 10)
             ++ lit ",'y':" ++ to_string (Float32.literal 5 10) ++ "}")%string).
Proof.
  unfold dispatch, is_request, executeHomeButton, click, sendCommand.
  destruct (Ascii.eqb k "h") eqn:Eh; [|destruct (Ascii.eqb k "c") eqn:Ec];
    destruct (curl c); cbn [negb andb orb];
    try destruct (negb (curl_easy_perform n =? CURLE_OK));
    cbn [fst snd performs filter List.length];
    (split; [reflexivity|]); (split; [lia|]); intros url body res Hin;
    first
      [ destruct Hin as [H|[H|[]]]; [inversion H; subst; auto | discriminate]
      | destruct Hin as [H|[]]; discriminate
      | destruct Hin ].
Qed.

Lemma before_quit_cons k cmds :
  Ascii.eqb k "q" = false -> before_quit (k :: cmds) = k :: before_quit cmds.
Proof. intros H. cbn [before_quit]. rewrite H. reflexivity. Qed.

Lemma loop_quits c :
  forall turns input cmd n,
    In "q"%char (commands input) ->
    (List.length input < turns)%nat ->
    exists tr,
      loop to_string curl_easy_perform turns c input cmd n = (Exit 0, tr) /\
      List.length (performs tr)
      = (if curl c
         then List.length (filter is_request (before_quit (commands input)))
         else 0%nat) /\
      forall url body res,
        In (Perform url body res) tr ->
        url = ("http://" ++ esp32_ip c ++ ":8080")%string /\
        (body = home_json \/
         body = (lit "{'type':'click','x':" ++ to_string (Float32.literal 5 10)
                 ++ lit ",'y':" ++ to_string (Float32.literal 5 10) ++ "}")%string).
Proof.
  induction turns as [|turns IH]; intros input cmd n Hq Hl; [lia|].
  rewrite loop_step.
  destruct (extract_spec input cmd) as [[Hc _]|(k & rest & Hc & He & Hlen)].
  { rewrite Hc in Hq. destruct Hq. }
  rewrite He. destruct (Ascii.eqb k "q") eqn:Ek.
  - exists [Cout Prompt]. split; [reflexivity|]. split.
    + rewrite Hc. cbn [before_quit]. rewrite Ek. destruct (curl c); reflexivity.
    + intros url body res [H|[]]. discriminate.
  - assert (Hq' : In "q"%char (commands rest)).
    { rewrite Hc in Hq. destruct Hq as [Hq|Hq]; [|exact Hq].
      subst k. rewrite Ascii.eqb_refl in Ek. discriminate. }
    destruct (dispatch_performs c k n) as (Dn & _ & Du).
    destruct (dispatch to_string curl_easy_perform c k n) as [n' out].
    cbn [fst snd] in Dn, Du.
    destruct (IH rest (Some k) n' Hq' ltac:(lia)) as (tr & -> & Hn & Hu).
    exists (Cout Prompt :: out ++ tr). split; [reflexivity|]. split.
    + change (Cout Prompt :: out ++ tr) with ([Cout Prompt] ++ out ++ tr).
      rewrite !performs_app, !length_app, Dn, Hn, Hc, (before_quit_cons _ _ Ek).
      cbn [filter performs List.length].
      destruct (curl c), (is_request k); reflexivity.
    + intros url body res [H|H]; [discriminate|].
      apply in_app_or in H. destruct H as [H|H]; [|exact (Hu _ _ _ H)].
      destruct (Du _ _ _ H) as (? & _ & ?). auto.
Qed.

Lemma loop_running c :
  forall turns input cmd n,
    spinning input cmd ->
    fst (loop to_string curl_easy_perform turns c input cmd n) = Running.
Proof.
  induction turns as [|turns IH]; intros input cmd n [Hq Hc]; [reflexivity|].
  rewrite loop_step.
  destruct (extract_spec input cmd) as [[Hc0 ->]|(k & rest & Hc0 & -> & Hlen)].
  - destruct Hc as [Hc|(k & -> & Ek)]; [contradiction|].
    rewrite Ek. destruct (dispatch to_string curl_easy_perform c k n) as [n' out].
    specialize (IH [] (Some k) n').
    destruct (loop _ _ turns c [] (Some k) n') as [r tr]. cbn [fst] in *.
    apply IH. split; [intros []|]. right. eauto.
  - rewrite Hc0 in Hq.
    assert (Ek : Ascii.eqb k "q" = false).
    { destruct (Ascii.eqb k "q") eqn:E; [|reflexivity].
      apply Ascii.eqb_eq in E. subst. exfalso. apply Hq. left. reflexivity. }
    rewrite Ek. destruct (dispatch to_string curl_easy_perform c k n) as [n' out].
    specialize (IH rest (Some k) n').
    destruct (loop _ _ turns c rest (Some k) n') as [r tr]. cbn [fst] in *.
    apply IH. split; [intros H; apply Hq; right; exact H|]. right. eauto.
Qed.

(** The command the loop is left with at the end of the input is a
    request. *)
Lemma is_request_not_q k : is_request k = true -> Ascii.eqb k "q" = false.
Proof.
  unfold is_request. intros H. apply orb_true_iff in H.
  destruct H as [H|H]; apply Ascii.eqb_eq in H; subst; reflexivity.
Qed.

Lemma loop_floods c :
  curl c = true ->
  forall turns input cmd n,
    flooding input cmd ->
    (turns <= List.length (performs (snd (loop to_string curl_easy_perform
                                             turns c input cmd n)))
              + List.length input)%nat.
Proof.
  intros Hcurl.
  induction turns as [|turns IH]; intros input cmd n [Hq Hc]; [lia|].
  rewrite loop_step.
  destruct (extract_spec input cmd) as [[Hc0 ->]|(k & rest & Hc0 & -> & Hlen)].
  - rewrite Hc0 in Hc. destruct Hc as (k & Hf & Hk).
    cbn [final_command fold_left] in Hf. subst cmd.
    rewrite (is_request_not_q _ Hk).
    destruct (dispatch_performs c k n) as (Dn & _ & _).
    rewrite Hcurl, Hk in Dn. cbn [andb] in Dn.
    destruct (dispatch to_string curl_easy_perform c k n) as [n' out].
    cbn [fst snd] in Dn.
    specialize (IH [] (Some k) n').
    destruct (loop _ _ turns c [] (Some k) n') as [r tr]. cbn [fst snd] in *.
    change (Cout Prompt :: out ++ tr) with ([Cout Prompt] ++ out ++ tr).
    rewrite !performs_app, !length_app, Dn. cbn [performs filter List.length].
    assert (turns <= List.length (performs tr) + 0)%nat; [|lia].
    apply IH. split; [intros []|]. exists k. auto.
  - rewrite Hc0 in Hq, Hc.
    assert (Ek : Ascii.eqb k "q" = false).
    { destruct (Ascii.eqb k "q") eqn:E; [|reflexivity].
      apply Ascii.eqb_eq in E. subst. exfalso. apply Hq. left. reflexivity. }
    rewrite Ek. destruct (dispatch to_string curl_easy_perform c k n) as [n' out].
    specialize (IH rest (Some k) n').
    destruct (loop _ _ turns c rest (Some k) n') as [r tr]. cbn [fst snd] in *.
    change (Cout Prompt :: out ++ tr) with ([Cout Prompt] ++ out ++ tr).
    rewrite !performs_app, !length_app.
    assert (turns <= List.length (performs tr) + List.length rest)%nat; [|lia].
    apply IH. split; [intros H; apply Hq; right; exact H|].
    exact Hc.
Qed.

Lemma dispatch_no_handle c k n :
  curl c = false ->
  snd (dispatch to_string curl_easy_perform c k n) = [] \/
  snd (dispatch to_string curl_easy_perform c k n) = [Cout Unknown].
Proof.
  intros Hc. unfold dispatch, executeHomeButton, click, sendCommand.
  rewrite Hc. cbn [negb].
  destruct (Ascii.eqb k "h"); [auto|]. destruct (Ascii.eqb k "c"); auto.
Qed.

Lemma loop_no_handle c :
  curl c = false ->
  forall turns input cmd n e,
    In e (snd (loop to_string curl_easy_perform turns c input cmd n)) ->
    e = Cout Prompt \/ e = Cout Unknown.
Proof.
  intros Hc.
  induction turns as [|turns IH]; intros input cmd n e; [intros []|].
  rewrite loop_step. destruct (extract input cmd) as [input' [k|]].
  - destruct (Ascii.eqb k "q").
    + intros [H|[]]. auto.
    + pose proof (dispatch_no_handle c k n Hc) as Hd.
      destruct (dispatch to_string curl_easy_perform c k n) as [n' out]. cbn [snd] in Hd.
      specialize (IH input' (Some k) n' e).
      destruct (loop _ _ turns c input' (Some k) n') as [r tr]. cbn [snd] in *.
      intros [H|H]; [auto|]. apply in_app_or in H. destruct H as [H|H]; [|auto].
      destruct Hd as [-> | ->]; [destruct H|]. destruct H as [H|[]]. auto.
  - intros [H|[]]. auto.
Qed.

End RelayFacts.

(** X17.  A session of the relay whose input holds a [q] among its
    commands (the characters other than white space) returns 0 once the
    loop has run more turns than the input has characters.  With a curl
    handle, the requests performed are as many as the [h] and [c] before
    the first [q], whatever result each request has; without a handle
    there is none.  Every request goes to port 8080 of the address given
    on the command line, with one of the two bodies of the program. *)
Theorem relay_session_requests :
  forall to_string curl_easy_init curl_easy_perform argv0 ip more input turns,
    In "q"%char (Relay.commands input) ->
    (List.length input < turns)%nat ->
    exists tr,
      Relay.main to_string curl_easy_init curl_easy_perform turns
        (argv0 :: ip :: more) input = (Relay.Exit 0, tr) /\
      List.length (Relay.performs tr)
      = (if curl_easy_init
         then List.length (filter Relay.is_request
                             (Relay.before_quit (Relay.commands input)))
         else 0%nat) /\
      forall url body res,
        In (Relay.Perform url body res) tr ->
        url = ("http://" ++ ip ++ ":8080")%string /\
        (body = Relay.home_json \/
         body = (Relay.lit "{'type':'click','x':"
                 ++ to_string (Float32.literal 5 10)
                 ++ Relay.lit ",'y':" ++ to_string (Float32.literal 5 10)
                 ++ "}")%string).
Proof.
  intros to_string init perform argv0 ip more input turns Hq Hl.
  destruct (loop_quits to_string perform (Relay.connect init ip)
              turns input None 0%nat Hq Hl) as (tr & E & Hn & Hu).
  exists (Relay.Cout Relay.Banner :: tr). unfold Relay.main. rewrite E.
  split; [reflexivity|]. split; [exact Hn|].
  intros url body res [H|H]; [discriminate | exact (Hu _ _ _ H)].
Qed.

Lemma relay_session_requests_witness :
  exists tr,
    Relay.main (fun _ => "0.500000"%string) true (fun n => Z.of_nat n) 12
      ["relay"%string; "192.168.1.100"%string]
      (list_ascii_of_string "h c x
q h") = (Relay.Exit 0, tr) /\
    List.length (Relay.performs tr) = 2%nat.
Proof.
  destruct (relay_session_requests (fun _ => "0.500000"%string) true
              (fun n => Z.of_nat n) "relay"%string "192.168.1.100"%string []
              (list_ascii_of_string "h c x
q h") 12) as (tr & E & Hn & _).
  - vm_compute. auto 10.
  - vm_compute. lia.
  - exists tr. split; [exact E | exact Hn].
Defined.

(** X18.  An input without [q] never lets the relay return.  At the end
    of the input the extraction fails, [cmd] keeps the last command and
    the loop runs it again on every turn: with a handle and an [h] or [c]
    as last command, the requests grow with the turns without bound.  On
    an input without any command the first turn already compares the
    uninitialised [cmd]. *)
Theorem relay_never_returns_without_quit :
  forall to_string curl_easy_init curl_easy_perform argv0 ip more input,
    ~ In "q"%char (Relay.commands input) ->
    (Relay.commands input = [] ->
     forall turns, (0 < turns)%nat ->
       fst (Relay.main to_string curl_easy_init curl_easy_perform turns
              (argv0 :: ip :: more) input) = Relay.Undefined) /\
    (Relay.commands input <> [] ->
     forall turns,
       fst (Relay.main to_string curl_easy_init curl_easy_perform turns
              (argv0 :: ip :: more) input) = Relay.Running) /\
    (curl_easy_init = true ->
     forall k,
       Relay.final_command (Relay.commands input) None = Some k ->
       Relay.is_request k = true ->
       forall turns,
         (turns <= List.length
                     (Relay.performs
                        (snd (Relay.main to_string curl_easy_init curl_easy_perform
                                turns (argv0 :: ip :: more) input)))
                   + List.length input)%nat).
Proof.
  intros to_string init perform argv0 ip more input Hq.
  split; [|split].
  - intros Hc [|turns] Ht; [lia|]. unfold Relay.main.
    rewrite loop_step.
    destruct (extract_spec input None) as [[_ ->]|(k & rest & Hc' & _)].
    + reflexivity.
    + rewrite Hc in Hc'. discriminate.
  - intros Hc turns. unfold Relay.main.
    pose proof (loop_running to_string perform (Relay.connect init ip)
                  turns input None 0%nat) as H.
    destruct (Relay.loop _ _ turns _ input None 0%nat) as [r tr].
    cbn [fst] in *. apply H. split; [exact Hq | left; exact Hc].
  - intros Hi k Hf Hk turns. unfold Relay.main.
    pose proof (loop_floods to_string perform (Relay.connect init ip) Hi
                  turns input None 0%nat) as H.
    destruct (Relay.loop _ _ turns _ input None 0%nat) as [r tr].
    cbn [snd] in *.
    change (Relay.Cout Relay.Banner :: tr) with ([Relay.Cout Relay.Banner] ++ tr).
    rewrite performs_app, length_app. cbn [Relay.performs filter List.length].
    apply H. split; [exact Hq|]. eauto.
Qed.

Lemma relay_never_returns_without_quit_witness :
  fst (Relay.main (fun _ => "0.500000"%string) true (fun _ => 7%Z) 1000
         ["relay"%string; "192.168.1.100"%string] (list_ascii_of_string "h"))
  = Relay.Running /\
  (1000 <= List.length
             (Relay.performs
                (snd (Relay.main (fun _ => "0.500000"%string) true (fun _ => 7%Z) 1000
                        ["relay"%string; "192.168.1.100"%string]
                        (list_ascii_of_string "h"))))
           + 1)%nat.
Proof.
  destruct (relay_never_returns_without_quit (fun _ => "0.500000"%string) true
              (fun _ => 7%Z) "relay"%string "192.168.1.100"%string []
              (list_ascii_of_string "h")) as (_ & Hr & Hf).
  - vm_compute. intros [H|[]]. discriminate.
  - split.
    + apply Hr. discriminate.
    + apply (Hf eq_refl "h"%char); reflexivity.
Defined.

(** X19.  When [curl_easy_init] gives no handle, a run writes the usage,
    the banner, prompts and [Unknown command] lines only: every [h] and
    [c] is dropped without a request and without a line.  When no
    address is given, with a handle or without, no request is performed
    either: [main] writes the two usage lines and returns 1, whatever
    the input. *)
Theorem relay_without_handle_sends_nothing :
  (forall to_string curl_easy_perform turns argv input,
      Forall Relay.local_line
        (snd (Relay.main to_string false curl_easy_perform turns argv input))) /\
  (forall to_string curl_easy_init curl_easy_perform turns argv input,
      (List.length argv < 2)%nat ->
      Forall Relay.local_line
        (snd (Relay.main to_string curl_easy_init curl_easy_perform
                turns argv input)) /\
      Relay.performs
        (snd (Relay.main to_string curl_easy_init curl_easy_perform
                turns argv input)) = []) /\
  (forall to_string curl_easy_init curl_easy_perform turns argv0 input,
      Relay.main to_string curl_easy_init curl_easy_perform turns [argv0] input
      = (Relay.Exit 1,
         [Relay.Cout (Relay.Usage argv0); Relay.Cout (Relay.Example_ argv0)])).
Proof.
  split; [|split].
  - intros to_string perform turns argv input. apply Forall_forall. intros e.
    unfold Relay.main. destruct argv as [|argv0 [|ip more]].
    + intros [].
    + intros [<-|[<-|[]]]; exact I.
    + pose proof (loop_no_handle to_string perform (Relay.connect false ip) eq_refl
                    turns input None 0%nat e) as H.
      destruct (Relay.loop _ _ turns _ input None 0%nat) as [r tr]. cbn [snd] in *.
      intros [<-|Hin]; [exact I|]. destruct (H Hin) as [-> | ->]; exact I.
  - intros to_string init perform turns argv input Hlen.
    destruct argv as [|argv0 [|ip more]]; [| |cbn in Hlen; lia].
    + split; [constructor | reflexivity].
    + split; [|reflexivity].
      constructor; [exact I|]. constructor; [exact I | constructor].
  - reflexivity.
Qed.

Lemma relay_without_handle_sends_nothing_witness :
  Forall Relay.local_line
    (snd (Relay.main (fun _ => "0.500000"%string) true (fun _ => 0) 5
            ["relay"%string] (list_ascii_of_string "h c q"))) /\
  Relay.performs
    (snd (Relay.main (fun _ => "0.500000"%string) true (fun _ => 0) 5
            ["relay"%string] (list_ascii_of_string "h c q"))) = [].
Proof.
  apply (proj1 (proj2 relay_without_handle_sends_nothing)).
  cbn. lia.
Defined.
